(** * graph_rewiring.hh: the edge rewiring engine of graph-tool

    A shallow embedding of [src/graph/generation/graph_rewiring.hh]: the
    orientation-aware [source]/[target] accessors, [swap_edge], the verbose
    display, the block abstractions, the six rewiring strategies and the
    main loop [graph_rewire], followed by the properties established about
    them. *)

From Stdlib Require Import ZArith Floats Ascii.
From stdpp Require Import base list gmap fin_maps strings pretty.

(** ** The graph the engine works on *)

Definition vertex_t := nat.

(** An edge descriptor carries its two end points and the identity of the
    stored edge it denotes ([e_id] stands for the pointer to the edge's
    storage: two parallel edges differ in it). *)
Record edge_t := mk_edge { e_source : vertex_t; e_target : vertex_t; e_id : nat }.

Global Instance edge_t_eq_dec : EqDecision edge_t.
Proof. solve_decision. Defined.

Global Instance edge_t_inhabited : Inhabited edge_t := populate (mk_edge 0 0 0).

(** A multigraph: its kind (the compile-time [is_directed] of the source),
    its number of vertices, the stored edges in their order of insertion, and
    the next fresh edge identity. *)
Record Graph := mk_graph {
  is_directed : bool;
  num_vertices : nat;
  edge_list : list edge_t;
  next_id : nat }.

(** Modelled from the spec: the accessors of the surrounding graph library
    ([graph.hh], [graph_util.hh], [graph_filtering.hh] and the graph
    container are not among the sources). [source] and [target] read the end
    points of a descriptor. *)
Definition source (e : edge_t) (g : Graph) : vertex_t := e_source e.
Definition target (e : edge_t) (g : Graph) : vertex_t := e_target e.

(** Modelled from the spec: [remove_edge(e, g)] of the graph library removes
    the one stored edge that the descriptor [e] denotes. *)
Definition remove_edge (e : edge_t) (g : Graph) : Graph :=
  mk_graph (is_directed g) (num_vertices g)
           (filter (λ x, e_id x ≠ e_id e) (edge_list g)) (next_id g).

(** Modelled from the spec: [add_edge(s, t, g)] of the graph library stores a
    new edge from [s] to [t] and returns its descriptor, the [.first] of the
    pair the source reads. *)
Definition add_edge (s t : vertex_t) (g : Graph) : edge_t * Graph :=
  let ne := mk_edge s t (next_id g) in
  (ne, mk_graph (is_directed g) (num_vertices g)
                (edge_list g ++ [ne]) (S (next_id g))).

(** Does the stored edge [x] leave [u] and arrive at [v]? An undirected edge
    does so in both of its orientations. *)
Definition joins (directed : bool) (u v : vertex_t) (x : edge_t) : bool :=
  bool_decide (e_source x = u ∧ e_target x = v)
  || (negb directed && bool_decide (e_source x = v ∧ e_target x = u)).

(** Modelled from the spec: [is_adjacent(u, v, g)] of [graph_util.hh] scans
    the out-edges of [u] for one whose target is [v]. *)
Definition is_adjacent (u v : vertex_t) (g : Graph) : bool :=
  existsb (joins (is_directed g) u v) (edge_list g).

(** The number of stored edges that leave / arrive at [v]. *)
Definition count_source (v : vertex_t) (l : list edge_t) : nat :=
  length (filter (λ x, e_source x = v) l).
Definition count_target (v : vertex_t) (l : list edge_t) : nat :=
  length (filter (λ x, e_target x = v) l).

(** Modelled from the spec: [out_degree] and [in_degree] of the graph
    library. In an undirected graph both count the edge ends at [v] (a
    self-loop counts twice). *)
Definition out_degree (v : vertex_t) (g : Graph) : nat :=
  if is_directed g then count_source v (edge_list g)
  else count_source v (edge_list g) + count_target v (edge_list g).
Definition in_degree (v : vertex_t) (g : Graph) : nat :=
  if is_directed g then count_target v (edge_list g)
  else count_source v (edge_list g) + count_target v (edge_list g).

(** Modelled from the spec: the selector [in_degreeS] of graph-tool (not
    among the sources), which is [in_degree] on a directed graph and 0 on an
    undirected one, where [out_degree] already counts every edge end. The
    properties below hold as well with [in_degree] in its place. *)
Definition in_degreeS (v : vertex_t) (g : Graph) : nat :=
  if is_directed g then in_degree v g else 0.

(** The driver's [edges] vector: slot [i] holds the descriptor of the edge
    that currently occupies slot [i]. Reading past the end is undefined in
    the source; here it yields the default descriptor, and every theorem
    states the range of the slots it reads. *)
Abbreviation edge_table := (list edge_t).

(** ** Orientation-aware accessors (lines 41-63) *)

Abbreviation EdgeRef := (nat * bool)%type.

Definition ref_source (e : EdgeRef) (edges : edge_table) (g : Graph) : vertex_t :=
  if e.2 then target (edges !!! e.1) g else source (edges !!! e.1) g.

Definition ref_target (e : EdgeRef) (edges : edge_table) (g : Graph) : vertex_t :=
  if e.2 then source (edges !!! e.1) g else target (edges !!! e.1) g.

(** ** [struct swap_edge] (lines 66-131) *)

Module swap_edge.

Definition parallel_check_target (e : nat) (te : EdgeRef)
    (edges : edge_table) (g : Graph) : bool :=
  let s := source (edges !!! e) g in
  let t := target (edges !!! e) g in
  let nt := ref_target te edges g in
  let te_s := ref_source te edges g in
  if is_adjacent s nt g then true
  else if is_adjacent te_s t g then true
  else false.

Definition swap_target (e : nat) (te : EdgeRef)
    (edges : edge_table) (g : Graph) : edge_table * Graph :=
  if bool_decide (e = te.1) then (edges, g)
  else
    let s_e := source (edges !!! e) g in
    let t_e := target (edges !!! e) g in
    let s_te := ref_source te edges g in
    let t_te := ref_target te edges g in
    let g := remove_edge (edges !!! e) g in
    let g := remove_edge (edges !!! te.1) g in
    let '(ne, g) := add_edge s_e t_te g in
    let edges := <[e := ne]> edges in
    let '(nte, g) :=
      if negb te.2 then add_edge s_te t_e g
      else add_edge t_e s_te g in
    let edges := <[te.1 := nte]> edges in
    (edges, g).

End swap_edge.

(** ** [print_progress] (lines 133-151)

    The verbose display. A [size_t] is a number below 2^64 and its
    arithmetic wraps; [int(x)] of a [size_t] keeps the low 32 bits, read as
    a signed number (the conversion is the implementation's; this is the
    two's complement one). The stream [str] is its text; the function
    returns what it writes to [cout] and the new text of [str], and [None]
    when it divides by zero or does not return. *)

Definition size_t_wrap (x : Z) : Z := (x `mod` 2 ^ 64)%Z.

Definition int_of_size_t (x : Z) : Z :=
  let y := (x `mod` 2 ^ 32)%Z in if (y <? 2 ^ 31)%Z then y else (y - 2 ^ 32)%Z.

Fixpoint repeat_char (c : Ascii.ascii) (n : nat) : string :=
  match n with
  | 0 => EmptyString
  | S n => String c (repeat_char c n)
  end.

(** The character ['\b']. *)
Definition backspace : Ascii.ascii := Ascii.ascii_of_nat 8.

(** The text of the display. *)
Definition progress_text (i n_iter current total : N) : string :=
  let current1 := ((current + 1) `mod` 2 ^ 64)%N in
  "(" +:+ pretty ((i + 1) `mod` 2 ^ 64)%N +:+ " / " +:+ pretty n_iter +:+ ") "
  +:+ pretty current1 +:+ " of " +:+ pretty total +:+ " ("
  +:+ pretty (((current1 * 100) `mod` 2 ^ 64) `div` total)%N +:+ "%)".

(** The bound [int(size - str.str().length())] of the padding loop. *)
Definition pad_bound (size : nat) (str : string) : Z :=
  int_of_size_t (size_t_wrap (Z.of_nat size - Z.of_nat (String.length str))%Z).

(** The padding loop
    [for (int j = 0; j < int(size - str.str().length()); ++j) str << " "]:
    the bound is read again before every round, from the text as the rounds
    before have lengthened it. The loop may run [fuel] rounds. *)
Fixpoint pad_loop (fuel : nat) (size : nat) (j : Z) (str : string) : option string :=
  if (j <? pad_bound size str)%Z then
    match fuel with
    | 0 => None
    | S fuel => pad_loop fuel size (j + 1)%Z (str +:+ " ")
    end
  else Some str.

(** [print_progress]; the padding loop is given as many rounds as its first
    bound, which it never exceeds. *)
Definition print_progress (i n_iter current total : N) (str : string)
    : option (string * string) :=
  let atom := if (200 <? total)%N then (total `div` 100)%N else 1%N in
  let current1 := ((current + 1) `mod` 2 ^ 64)%N in
  if ((current1 `mod` atom =? 0) || (current1 =? total))%N then
    if (total =? 0)%N then None
    else
      let size := String.length str in
      let erase := repeat_char backspace (String.length str) in
      let str := progress_text i n_iter current total in
      match pad_loop (Z.to_nat (pad_bound size str)) size 0 str with
      | None => None
      | Some str => Some (erase +:+ str, str)
      end
  else Some (EmptyString, str).

(** ** The arithmetic of [double]

    The strategies compute on [double] through the operations below, read
    as those of IEEE binary64. *)

Class DoubleOps (D : Type) := {
  d_zero : D;
  d_min : D;                      (* numeric_limits<double>::min() *)
  d_isnan : D → bool;
  d_isinf : D → bool;
  d_lt : D → D → bool;            (* x < y *)
  d_gt : D → D → bool;            (* x > y *)
  d_ge : D → D → bool;            (* x >= y *)
  d_eq : D → D → bool;            (* x == y *)
  d_mul : D → D → D;
  d_sub : D → D → D;
  d_exp : D → D;
  d_log : D → D }.

(** [numeric_limits<double>::min()]: 2^-1022, the least positive normalized
    binary64 number. *)
Definition DBL_MIN : float := 0x1p-1022%float.

(** [numeric_limits<double>::denorm_min()]: 2^-1074. *)
Definition DBL_DENORM_MIN : float := 0x1p-1074%float.

(** IEEE binary64. [exp] and [log] belong to the C library and are taken as
    parameters. *)
Definition binary64 (fexp flog : float → float) : DoubleOps float := {|
  d_zero := 0%float;
  d_min := DBL_MIN;
  d_isnan := PrimFloat.is_nan;
  d_isinf := PrimFloat.is_infinity;
  d_lt := PrimFloat.ltb;
  d_gt := λ x y, PrimFloat.ltb y x;
  d_ge := λ x y, PrimFloat.leb y x;
  d_eq := PrimFloat.eqb;
  d_mul := PrimFloat.mul;
  d_sub := PrimFloat.sub;
  d_exp := fexp;
  d_log := flog |}.

(** ** Block abstractions (lines 153-185) *)

Class BlockDeg (T block_t : Type) := get_block : T → vertex_t → Graph → block_t.

Inductive DegreeBlock := Build_DegreeBlock.

Global Instance DegreeBlock_get_block : BlockDeg DegreeBlock (nat * nat) :=
  λ _ v g, (in_degreeS v g, out_degree v g).

Record PropertyBlock (V : Type) := Build_PropertyBlock { _p : vertex_t → V }.
Global Arguments Build_PropertyBlock {_} _.
Global Arguments _p {_} _ _.

Global Instance PropertyBlock_get_block {V} : BlockDeg (PropertyBlock V) V :=
  λ pb v _, _p pb v.

(** ** Containers *)

(** [m[k]] on an [unordered_map] of vectors: a key that is absent reads as
    the empty vector (the source's [operator[]] also inserts it, which no
    later read of these maps tells apart from absence). *)
Definition bucket {K A} `{Countable K} (m : gmap K (list A)) (k : K) : list A :=
  default [] (m !! k).

(** [m[k].push_back(x)] *)
Definition push_back {K A} `{Countable K} (k : K) (x : A)
    (m : gmap K (list A)) : gmap K (list A) :=
  <[k := bucket m k ++ [x]]> m.

(** [v.back()] and [v.pop_back()] on a vector of slots. *)
Definition back (l : list nat) : nat := List.last l 0.
Definition pop_back {A} (l : list A) : list A := removelast l.

(** Modelled from the spec: the alias sampler [Sampler(items, probs)] of
    [sampler.hh], which is not among the sources. [sample] returns one of the
    items; [k] is the position of the item the random source selects. *)
Record Sampler (V D : Type) := Build_Sampler { s_items : list V; s_probs : list D }.
Global Arguments Build_Sampler {_ _} _ _.
Global Arguments s_items {_ _} _.
Global Arguments s_probs {_ _} _.

Definition sample {V D} `{Inhabited V} (s : Sampler V D) (k : nat) : V :=
  s_items s !!! k.

(** A strategy object: the graph and the edge table it holds by reference,
    and the members of the derived class. *)
Record rewire_state (St : Type) := mk_state {
  _g : Graph;
  _edges : edge_table;
  _self : St }.
Global Arguments mk_state {_} _ _ _.
Global Arguments _g {_} _.
Global Arguments _edges {_} _.
Global Arguments _self {_} _.

(** ** [RewireStrategyBase] (lines 333-396)

    The derived strategy supplies [get_target_edge] and [update_edge] (the
    source's static polymorphism). [Dr] is the type of what the random
    distributions return during one call of [get_target_edge]. *)

Module RewireStrategyBase.

Class RewireStrategy (St Dr : Type) := {
  get_target_edge : St → edge_table → Graph → Dr → nat → EdgeRef;
  update_edge : St → edge_table → Graph → nat → bool → St }.

Section base.
Context {St Dr : Type} `{!RewireStrategy St Dr}.

(** [operator()(ei, self_loops, parallel_edges)] *)
Definition call (rs : rewire_state St) (dr : Dr) (ei : nat)
    (self_loops parallel_edges : bool) : bool * rewire_state St :=
  let g := _g rs in
  let edges := _edges rs in
  let self := _self rs in
  let et := get_target_edge self edges g dr ei in
  if negb self_loops &&
     (bool_decide (source (edges !!! ei) g = ref_target et edges g)
      || bool_decide (target (edges !!! ei) g = ref_source et edges g))
  then (false, rs)
  else if negb parallel_edges && bool_decide (et.1 ≠ ei) &&
          swap_edge.parallel_check_target ei et edges g
  then (false, rs)
  else if bool_decide (ei ≠ et.1) then
    let self := update_edge self edges g ei false in
    let self := update_edge self edges g et.1 false in
    let '(edges, g) := swap_edge.swap_target ei et edges g in
    let self := update_edge self edges g ei true in
    let self := update_edge self edges g et.1 true in
    (true, mk_state g edges self)
  else (false, rs).

End base.
End RewireStrategyBase.

(** ** [RandomRewireStrategy] (lines 398-444) *)

Module RandomRewireStrategy.

(** What [sample] and [coin] return. *)
Record draws := mk_draws { d_sample : nat; d_coin : bool }.

Definition get_target_edge (edges : edge_table) (g : Graph) (dr : draws)
    (ei : nat) : EdgeRef :=
  let et := (d_sample dr, false) in
  if negb (is_directed g) then (et.1, d_coin dr) else et.

Global Instance strategy : RewireStrategyBase.RewireStrategy unit draws := {|
  RewireStrategyBase.get_target_edge := λ _, get_target_edge;
  RewireStrategyBase.update_edge := λ self _ _ _ _, self |}.

(** [sample] is [uniform_int<>(0, _edges.size() - 1)]. *)
Definition draws_ok (edges : edge_table) (dr : draws) : Prop :=
  d_sample dr ≤ length edges - 1.

End RandomRewireStrategy.

(** ** [CorrelatedRewireStrategy] (lines 447-515) *)

Module CorrelatedRewireStrategy.

Definition deg_t := (nat * nat)%type.

(** The body of the constructor's loop, for slot [ei]. *)
Definition index_edge (edges : edge_table) (g : Graph)
    (m : gmap (nat * nat) (list EdgeRef)) (ei : nat) : gmap (nat * nat) (list EdgeRef) :=
  let e := edges !!! ei in
  let t := target e g in
  let tdeg := (in_degreeS t g, out_degree t g) in
  let m := push_back tdeg (ei, false) m in
  if negb (is_directed g) then
    let t := source e g in
    let tdeg := (in_degreeS t g, out_degree t g) in
    push_back tdeg (ei, true) m
  else m.

(** The constructor builds [_edges_by_target]. The block abstraction and the
    probabilities it is handed are not read. *)
Definition construct (edges : edge_table) (g : Graph) : gmap (nat * nat) (list EdgeRef) :=
  foldl (index_edge edges g) ∅ (seq 0 (length edges)).

Definition get_target_edge (_edges_by_target : gmap (nat * nat) (list EdgeRef))
    (edges : edge_table) (g : Graph) (sample : nat) (ei : nat) : EdgeRef :=
  let e := edges !!! ei in
  let t := target e g in
  let tdeg := (in_degreeS t g, out_degree t g) in
  let elist := bucket _edges_by_target tdeg in
  elist !!! sample.

Global Instance strategy :
    RewireStrategyBase.RewireStrategy (gmap (nat * nat) (list EdgeRef)) nat := {|
  RewireStrategyBase.get_target_edge := get_target_edge;
  RewireStrategyBase.update_edge := λ self _ _ _ _, self |}.

(** [sample] is [uniform_int<>(0, elist.size() - 1)] on the list read. *)
Definition draws_ok (self : gmap (nat * nat) (list EdgeRef)) (edges : edge_table)
    (g : Graph) (ei : nat) (sample : nat) : Prop :=
  let t := target (edges !!! ei) g in
  sample < length (bucket self (in_degreeS t g, out_degree t g)).

End CorrelatedRewireStrategy.

(** ** [ProbabilisticRewireStrategy] (lines 518-643) *)

Module ProbabilisticRewireStrategy.
Section strategy.
Context {D : Type} `{!DoubleOps D}.
Context {BD deg_t : Type} `{Countable deg_t} `{!BlockDeg BD deg_t}.

Record t := mk {
  _corr_prob : deg_t → deg_t → D;
  _blockdeg : BD;
  _probs : gmap (deg_t * deg_t) D }.

(** The constructor's first loop: the blocks of the end points of every edge. *)
Definition deg_set (blockdeg : BD) (edges : edge_table) (g : Graph) : gset deg_t :=
  foldl (λ (s : gset deg_t) ei,
           let e := edges !!! ei in
           let s := {[ get_block blockdeg (source e g) g ]} ∪ s in
           {[ get_block blockdeg (target e g) g ]} ∪ s)
        ∅ (seq 0 (length edges)).

(** The body of the constructor's double loop. *)
Definition cache_prob (corr_prob : deg_t → deg_t → D) (s_deg t_deg : deg_t)
    (probs : gmap (deg_t * deg_t) D) : gmap (deg_t * deg_t) D :=
  let p := corr_prob s_deg t_deg in
  let p := if d_isnan p || d_isinf p || d_lt p d_zero then d_zero else p in
  let p := if d_eq p d_zero then d_min else p in
  <[(s_deg, t_deg) := p]> probs.

(** The constructor. The order in which an [unordered_set] is traversed is
    not specified; [elements] fixes one. *)
Definition construct (edges : edge_table) (g : Graph)
    (corr_prob : deg_t → deg_t → D) (blockdeg : BD) (cache : bool) : t :=
  if cache then
    let ds := elements (deg_set blockdeg edges g) in
    mk corr_prob blockdeg
       (foldl (λ probs s_deg,
                 foldl (λ probs t_deg, cache_prob corr_prob s_deg t_deg probs)
                       probs ds)
              ∅ ds)
  else mk corr_prob blockdeg ∅.

Definition get_prob (self : t) (s_deg t_deg : deg_t) : D :=
  if bool_decide (size (_probs self) = 0) then
    let p := _corr_prob self s_deg t_deg in
    let p := if d_isnan p || d_isinf p || d_lt p d_zero then d_zero else p in
    let p := if d_eq p d_zero then d_min else p in
    p
  else default d_zero (_probs self !! (s_deg, t_deg)).

Definition get_deg (self : t) (v : vertex_t) (g : Graph) : deg_t :=
  get_block (_blockdeg self) v g.

(** What [sample], [coin] and [rsample] return. *)
Record draws := mk_draws { d_sample : nat; d_coin : bool; d_rsample : D }.

Definition get_target_edge (self : t) (edges : edge_table) (g : Graph)
    (dr : draws) (ei : nat) : EdgeRef :=
  let s_deg := get_deg self (source (edges !!! ei) g) g in
  let t_deg := get_deg self (target (edges !!! ei) g) g in
  let epi := d_sample dr in
  let ep := (epi, false) in
  let ep := if negb (is_directed g) then (ep.1, d_coin dr) else ep in
  let ep_s_deg := get_deg self (ref_source ep edges g) g in
  let ep_t_deg := get_deg self (ref_target ep edges g) g in
  let pi := d_mul (get_prob self s_deg t_deg) (get_prob self ep_s_deg ep_t_deg) in
  let pf := d_mul (get_prob self s_deg ep_t_deg) (get_prob self ep_s_deg t_deg) in
  if d_ge pf pi then ep
  else if d_eq pf d_zero then (ei, false)
  else
    let a := d_exp (d_sub (d_log pf) (d_log pi)) in
    let r := d_rsample dr in
    if d_gt r a then (ei, false) else ep.

Global Instance strategy : RewireStrategyBase.RewireStrategy t draws := {|
  RewireStrategyBase.get_target_edge := get_target_edge;
  RewireStrategyBase.update_edge := λ self _ _ _ _, self |}.

(** [sample] is [uniform_int<>(0, _edges.size() - 1)]. *)
Definition draws_ok (edges : edge_table) (dr : draws) : Prop :=
  d_sample dr ≤ length edges - 1.

End strategy.
Global Arguments t _ _ _ {_ _}.
Global Arguments draws : clear implicits.
End ProbabilisticRewireStrategy.

(** ** [AliasProbabilisticRewireStrategy] (lines 646-845) *)

Module AliasProbabilisticRewireStrategy.
Section strategy.
Context {D : Type} `{!DoubleOps D}.
Context {BD deg_t : Type} `{Countable deg_t} `{!Inhabited deg_t} `{!BlockDeg BD deg_t}.

Record t := mk {
  _corr_prob : deg_t → deg_t → D;
  _blockdeg : BD;
  _items : list deg_t;
  _sampler : gmap deg_t (Sampler deg_t D);
  _probs : gmap (deg_t * deg_t) D;
  _in_edges : gmap deg_t (list nat);
  _out_edges : gmap deg_t (list nat);
  _in_pos : list nat;
  _out_pos : list nat }.

(** The inner loop of the constructor, for the source block [s_deg]: the
    weights of its sampler and the entries of [_probs]. *)
Definition row (corr_prob : deg_t → deg_t → D) (s_deg : deg_t) (ds : list deg_t)
    (probs0 : gmap (deg_t * deg_t) D) : list D * gmap (deg_t * deg_t) D :=
  foldl (λ '(probs, _probs) t_deg,
           let p := corr_prob s_deg t_deg in
           let p := if d_isnan p || d_isinf p || d_lt p d_zero then d_zero else p in
           let p := if d_eq p d_zero then d_min else p in
           (probs ++ [p], <[(s_deg, t_deg) := p]> _probs))
        ([], probs0) ds.

(** The constructor's last loop, for slot [i]. *)
Definition index_edge (blockdeg : BD) (edges : edge_table) (g : Graph)
    (acc : gmap deg_t (list nat) * gmap deg_t (list nat) * list nat * list nat)
    (i : nat) : gmap deg_t (list nat) * gmap deg_t (list nat) * list nat * list nat :=
  let '(in_edges, out_edges, in_pos, out_pos) := acc in
  let v := target (edges !!! i) g in
  let d := get_block blockdeg v g in
  let in_edges := push_back d i in_edges in
  let in_pos := <[i := length (bucket in_edges d) - 1]> in_pos in
  if negb (is_directed g) then
    let v := source (edges !!! i) g in
    let d := get_block blockdeg v g in
    let out_edges := push_back d i out_edges in
    let out_pos := <[i := length (bucket out_edges d) - 1]> out_pos in
    (in_edges, out_edges, in_pos, out_pos)
  else (in_edges, out_edges, in_pos, out_pos).

Definition construct (edges : edge_table) (g : Graph)
    (corr_prob : deg_t → deg_t → D) (blockdeg : BD) : t :=
  let ds := elements (ProbabilisticRewireStrategy.deg_set blockdeg edges g) in
  let items := ds in
  let '(sampler, probs) :=
    foldl (λ '(sampler, _probs) s_deg,
             let '(probs, _probs) := row corr_prob s_deg ds _probs in
             (<[s_deg := Build_Sampler items probs]> sampler, _probs))
          (∅, ∅) ds in
  let in_pos := replicate (length edges) 0 in
  let out_pos := if negb (is_directed g) then replicate (length edges) 0 else [] in
  let '(in_edges, out_edges, in_pos, out_pos) :=
    foldl (index_edge blockdeg edges g) (∅, ∅, in_pos, out_pos)
          (seq 0 (length edges)) in
  mk corr_prob blockdeg items sampler probs in_edges out_edges in_pos out_pos.

Definition get_prob (self : t) (s_deg t_deg : deg_t) : D :=
  default d_zero (_probs self !! (s_deg, t_deg)).

Definition get_deg (self : t) (v : vertex_t) (g : Graph) : deg_t :=
  get_block (_blockdeg self) v g.

(** What the sampler (the position of the item it returns), [coin], [sample]
    and [rsample] return. *)
Record draws := mk_draws {
  d_nt : nat; d_coin : bool; d_sample : nat; d_rsample : D }.

Definition get_target_edge (self : t) (edges : edge_table) (g : Graph)
    (dr : draws) (ei : nat) : EdgeRef :=
  let s_deg := get_deg self (source (edges !!! ei) g) g in
  let t_deg := get_deg self (target (edges !!! ei) g) g in
  let nt := sample (default (Build_Sampler [] []) (_sampler self !! s_deg)) (d_nt dr) in
  let ep :=
    if is_directed g || d_coin dr then
      let ies := bucket (_in_edges self) nt in
      let epi := ies !!! d_sample dr in
      (epi, false)
    else
      let oes := bucket (_out_edges self) nt in
      let epi := oes !!! d_sample dr in
      (epi, true) in
  let ep_s_deg := get_deg self (ref_source ep edges g) g in
  let ep_t_deg := get_deg self (ref_target ep edges g) g in
  let pi := d_mul (get_prob self s_deg t_deg) (get_prob self ep_s_deg ep_t_deg) in
  let pf := d_mul (get_prob self s_deg ep_t_deg) (get_prob self ep_s_deg t_deg) in
  if d_ge pf pi then ep
  else if d_eq pf d_zero then (ei, false)
  else
    let a := d_exp (d_sub (d_log pf) (d_log pi)) in
    let r := d_rsample dr in
    if d_gt r a then (ei, false) else ep.

Definition update_edge (self : t) (edges : edge_table) (g : Graph)
    (ei : nat) (insert : bool) : t :=
  if insert then
    let v := target (edges !!! ei) g in
    let d := get_deg self v g in
    let in_edges := push_back d ei (_in_edges self) in
    let in_pos := <[ei := length (bucket in_edges d) - 1]> (_in_pos self) in
    if negb (is_directed g) then
      let v := source (edges !!! ei) g in
      let d := get_deg self v g in
      let out_edges := push_back d ei (_out_edges self) in
      let out_pos := <[ei := length (bucket out_edges d) - 1]> (_out_pos self) in
      mk (_corr_prob self) (_blockdeg self) (_items self) (_sampler self)
         (_probs self) in_edges out_edges in_pos out_pos
    else
      mk (_corr_prob self) (_blockdeg self) (_items self) (_sampler self)
         (_probs self) in_edges (_out_edges self) in_pos (_out_pos self)
  else
    if negb (is_directed g) then
      let v := target (edges !!! ei) g in
      let d := get_deg self v g in
      let j := _in_pos self !!! ei in
      let in_pos := <[back (bucket (_in_edges self) d) := j]> (_in_pos self) in
      let in_edges :=
        <[d := <[j := back (bucket (_in_edges self) d)]> (bucket (_in_edges self) d)]>
          (_in_edges self) in
      let in_edges := <[d := pop_back (bucket in_edges d)]> in_edges in
      mk (_corr_prob self) (_blockdeg self) (_items self) (_sampler self)
         (_probs self) in_edges (_out_edges self) in_pos (_out_pos self)
    else self.

Global Instance strategy : RewireStrategyBase.RewireStrategy t draws := {|
  RewireStrategyBase.get_target_edge := get_target_edge;
  RewireStrategyBase.update_edge := update_edge |}.

(** The values the distributions can return in [get_target_edge]: the
    sampler returns one of its items, [coin] is a Bernoulli draw of
    parameter [|in| / (|in| + |out|)] (so it cannot select an empty list when
    the other one is not), and [sample] is
    [uniform_int<>(0, size - 1)] on the list selected. *)
Definition draws_ok (self : t) (edges : edge_table) (g : Graph) (ei : nat)
    (dr : draws) : Prop :=
  let s_deg := get_deg self (source (edges !!! ei) g) g in
  let smp := default (Build_Sampler [] []) (_sampler self !! s_deg) in
  d_nt dr < length (s_items smp) ∧
  let nt := sample smp (d_nt dr) in
  if is_directed g || d_coin dr
  then d_sample dr < length (bucket (_in_edges self) nt)
  else d_sample dr < length (bucket (_out_edges self) nt).

End strategy.
Global Arguments t _ _ _ {_ _}.
Global Arguments draws : clear implicits.
End AliasProbabilisticRewireStrategy.

(** ** [ErdosRewireStrategy] (lines 276-330) *)

Module ErdosRewireStrategy.

(** The constructor: [_vertices] holds the vertices of the graph, which the
    graph library numbers from 0. *)
Definition construct (edges : edge_table) (g : Graph) : rewire_state (list vertex_t) :=
  mk_state g edges (seq 0 (num_vertices g)).

(** The [while (true)] loop: [draws] lists the pairs that the two calls of
    [sample] return in the successive rounds. The loop leaves at the first
    pair that is not a forbidden self-loop; [None] when the listed rounds all
    [continue]. *)
Fixpoint pick (self_loops : bool) (draws : list (nat * nat)) : option (vertex_t * vertex_t) :=
  match draws with
  | [] => None
  | (s, t) :: draws =>
      if bool_decide (s = t) && negb self_loops then pick self_loops draws
      else Some (s, t)
  end.

(** [operator()(ei, self_loops, parallel_edges)] *)
Definition call (rs : rewire_state (list vertex_t)) (draws : list (nat * nat))
    (ei : nat) (self_loops parallel_edges : bool)
    : option (bool * rewire_state (list vertex_t)) :=
  match pick self_loops draws with
  | None => None
  | Some (s, t) =>
      if negb parallel_edges && is_adjacent s t (_g rs) then Some (false, rs)
      else
        let g := remove_edge (_edges rs !!! ei) (_g rs) in
        let '(ne, g) := add_edge s t g in
        let edges := <[ei := ne]> (_edges rs) in
        Some (true, mk_state g edges (_self rs))
  end.

(** [sample] is [uniform_int<size_t>(0, _vertices.size() - 1)]. *)
Definition draws_ok (rs : rewire_state (list vertex_t)) (draws : list (nat * nat)) : Prop :=
  Forall (λ st, st.1 ≤ length (_self rs) - 1 ∧ st.2 ≤ length (_self rs) - 1) draws.

End ErdosRewireStrategy.

(** ** [TradBlockRewireStrategy] (lines 848-937) *)

Module TradBlockRewireStrategy.
Section strategy.
Context {D : Type} `{!DoubleOps D}.
Context {BD deg_t : Type} `{Countable deg_t} `{!Inhabited deg_t} `{!BlockDeg BD deg_t}.

Record t := mk {
  _corr_prob : deg_t → deg_t → D;
  _blockdeg : BD;
  _vertices : gmap deg_t (list vertex_t);
  _items : list (deg_t * deg_t);
  _sampler : Sampler (deg_t * deg_t) D }.

(** The constructor's second loop. The order in which an [unordered_map] is
    traversed is not specified; [map_to_list] fixes one. *)
Definition weights (corr_prob : deg_t → deg_t → D) (keys : list deg_t)
    : list (deg_t * deg_t) * list D :=
  foldl (λ acc s_iter,
           foldl (λ '(_items, probs) t_iter,
                    let p := corr_prob s_iter t_iter in
                    let p := if d_isnan p || d_isinf p || d_lt p d_zero
                             then d_zero else p in
                    (_items ++ [(s_iter, t_iter)], probs ++ [p]))
                 acc keys)
        ([], []) keys.

Definition construct (edges : edge_table) (g : Graph)
    (corr_prob : deg_t → deg_t → D) (blockdeg : BD) : rewire_state t :=
  let vertices :=
    foldl (λ m v, push_back (get_block blockdeg v g) v m) ∅ (seq 0 (num_vertices g)) in
  let '(items, probs) := weights corr_prob (map_to_list vertices).*1 in
  mk_state g edges (mk corr_prob blockdeg vertices items (Build_Sampler items probs)).

(** What the sampler (the position of the pair it returns), [s_sample] and
    [t_sample] return. *)
Record draws := mk_draws { d_deg : nat; d_s_sample : nat; d_t_sample : nat }.

(** [operator()(ei, self_loops, parallel_edges)] *)
Definition call (rs : rewire_state t) (dr : draws) (ei : nat)
    (self_loops parallel_edges : bool) : bool * rewire_state t :=
  let deg := sample (_sampler (_self rs)) (d_deg dr) in
  let svs := bucket (_vertices (_self rs)) deg.1 in
  let tvs := bucket (_vertices (_self rs)) deg.2 in
  let s : vertex_t := svs !!! d_s_sample dr in
  let t : vertex_t := tvs !!! d_t_sample dr in
  if negb self_loops && bool_decide (s = t) then (false, rs)
  else if negb parallel_edges && is_adjacent s t (_g rs) then (false, rs)
  else
    let g := remove_edge (_edges rs !!! ei) (_g rs) in
    let '(ne, g) := add_edge s t g in
    let edges := <[ei := ne]> (_edges rs) in
    (true, mk_state g edges (_self rs)).

End strategy.
Global Arguments t _ _ _ {_ _}.
End TradBlockRewireStrategy.

(** ** [graph_rewire]: the main rewire loop (lines 187-273) *)

Module graph_rewire.

(** [std::iter_swap] on [edge_pos]. *)
Definition iter_swap (l : list nat) (i j : nat) : list nat :=
  <[j := l !!! i]> (<[i := l !!! j]> l).

(** The state of the loops. [visited] is not a variable of the source: it
    records, in order, the slot [*ei] of every iteration of the inner [for]
    loop, so that the visits can be counted. *)
Record loop_state (RW : Type) := mk_loop {
  rewire : RW;
  edge_pos : list nat;
  pcount : nat;
  visited : list nat }.
Global Arguments mk_loop {_} _ _ _ _.
Global Arguments rewire {_} _.
Global Arguments edge_pos {_} _.
Global Arguments pcount {_} _.
Global Arguments visited {_} _.

(** What the random source returns during a run: [perm_draw i pos] is what
    [random_permutation_iterator] draws to fill position [pos] in iteration
    [i], and [rewire_draws i pos k] is what the strategy draws in its call
    number [k] at that position. *)
Record oracle (Dr : Type) := mk_oracle {
  perm_draw : nat → nat → nat;
  rewire_draws : nat → nat → nat → Dr }.
Global Arguments mk_oracle {_} _ _.
Global Arguments perm_draw {_} _ _ _.
Global Arguments rewire_draws {_} _ _ _ _.

Section main_loop.
Context {RW Dr : Type}.
(** The strategy's [operator()]; [None] when it does not return. *)
Context (rewire_call : RW → Dr → nat → bool → bool → option (bool * RW)).
Context (self_loops parallel_edges persist no_sweep : bool).

(** The [do ... while (persist && !success)] loop, entered with the draws
    [draws k], [draws (k+1)], ...; it may repeat its body [fuel] times after
    the first. *)
Fixpoint do_while (fuel : nat) (draws : nat → Dr) (k : nat) (rw : RW) (ei : nat)
    : option (bool * RW) :=
  match rewire_call rw (draws k) ei self_loops parallel_edges with
  | None => None
  | Some (success, rw) =>
      if persist && negb success then
        match fuel with
        | 0 => None
        | S fuel => do_while fuel draws (S k) rw ei
        end
      else Some (success, rw)
  end.

(** Modelled from the spec: [random_permutation_iterator] of [random.hh],
    which is not among the sources: when it reaches position [pos] it swaps
    [edge_pos[pos]] with an entry drawn uniformly from [pos] to the end, and
    [*ei] reads [edge_pos[pos]].

    The inner [for] loop, from position [pos], with [n] positions left. *)
Fixpoint sweep (fuel : nat) (o : oracle Dr) (i : nat) (n pos : nat)
    (st : loop_state RW) : option (loop_state RW) :=
  match n with
  | 0 => Some st
  | S n =>
      let edge_pos := iter_swap (edge_pos st) pos (pos + perm_draw o i pos) in
      let ei := edge_pos !!! pos in
      match do_while fuel (rewire_draws o i pos) 0 (rewire st) ei with
      | None => None
      | Some (success, rw) =>
          let pcount := if negb success then S (pcount st) else pcount st in
          let st := mk_loop rw edge_pos pcount (visited st ++ [ei]) in
          if no_sweep then Some st else sweep fuel o i n (S pos) st
      end
  end.

(** The outer [for] loop, from iteration [i], with [n] iterations left. *)
Fixpoint iterate (fuel : nat) (o : oracle Dr) (n i : nat) (st : loop_state RW)
    : option (loop_state RW) :=
  match n with
  | 0 => Some st
  | S n =>
      match sweep fuel o i (length (edge_pos st)) 0 st with
      | None => None
      | Some st => iterate fuel o n (S i) st
      end
  end.

(** [operator()] once the strategy object [rw] is constructed over the [m]
    edges of the graph: [edge_pos] is [0, ..., m-1] and [pcount] is 0. The
    progress display ([verbose]) only prints. *)
Definition main_loop (fuel : nat) (o : oracle Dr) (m : nat) (rw : RW) (niter : nat)
    : option (loop_state RW) :=
  iterate fuel o niter 0 (mk_loop rw (seq 0 m) 0 []).

End main_loop.

(** [operator()]: the edges of the graph are copied into [edges], the
    strategy is constructed on them and the loops run. *)
Definition call {RW Dr : Type}
    (construct : edge_table → Graph → RW)
    (rewire_call : RW → Dr → nat → bool → bool → option (bool * RW))
    (g : Graph) (self_loops parallel_edges : bool) (iter_sweep : nat * bool)
    (persist : bool) (fuel : nat) (o : oracle Dr) : option (loop_state RW) :=
  let edges := edge_list g in
  let rw := construct edges g in
  main_loop rewire_call self_loops parallel_edges persist iter_sweep.2
            fuel o (length edges) rw iter_sweep.1.

End graph_rewire.

(** ** Vocabulary of the properties *)

(** The stored edges have pairwise distinct identities, all below the next
    fresh one. *)
Definition graph_ok (g : Graph) : Prop :=
  NoDup (e_id <$> edge_list g) ∧ Forall (λ x, e_id x < next_id g) (edge_list g).

(** The edge table lists the stored edges of the graph, each in one slot:
    what the driver builds, and what every strategy keeps. *)
Definition table_ok (edges : edge_table) (g : Graph) : Prop :=
  graph_ok g ∧ edges ≡ₚ edge_list g.

(** An edge reference of the data model: its slot exists, and it is flipped
    only in an undirected graph. *)
Definition EdgeRef_ok (edges : edge_table) (g : Graph) (et : EdgeRef) : Prop :=
  et.1 < length edges ∧ (is_directed g = true → et.2 = false).

Global Instance graph_ok_dec g : Decision (graph_ok g).
Proof. unfold graph_ok. apply _. Defined.

Global Instance table_ok_dec edges g : Decision (table_ok edges g).
Proof. unfold table_ok. apply _. Defined.

Global Instance EdgeRef_ok_dec edges g et : Decision (EdgeRef_ok edges g et).
Proof. unfold EdgeRef_ok. apply _. Defined.

(** The (in, out) degree pair of a vertex, the key of the Correlated
    strategy's buckets. *)
Definition deg_pair (g : Graph) (v : vertex_t) : nat * nat :=
  (in_degreeS v g, out_degree v g).

(** The blocks of the two ends of every stored edge: the list stands for the
    multiset, which the order of storage does not matter to. *)
Definition block_pairs {BD B : Type} `{!BlockDeg BD B} (bd : BD) (g : Graph)
    : list (B * B) :=
  (λ e, (get_block bd (source e g) g, get_block bd (target e g) g)) <$> edge_list g.

(** The invariant of the Correlated strategy: every edge reference filed
    under a degree pair is one of the data model, and the degree pair of its
    target is the one it is filed under. *)
Definition by_target_ok (self : gmap (nat * nat) (list EdgeRef))
    (edges : edge_table) (g : Graph) : Prop :=
  ∀ tdeg et, et ∈ bucket self tdeg →
    EdgeRef_ok edges g et ∧
    (in_degreeS (ref_target et edges g) g, out_degree (ref_target et edges g) g) = tdeg.

(** The slots filed in the buckets the Alias strategy reads exist
    ([_out_edges] is read in an undirected graph only). *)
Definition slots_in_range {D BD deg_t : Type} `{Countable deg_t}
    (self : AliasProbabilisticRewireStrategy.t D BD deg_t)
    (edges : edge_table) (g : Graph) : Prop :=
  (∀ d i, i ∈ bucket (AliasProbabilisticRewireStrategy._in_edges self) d →
          i < length edges) ∧
  (is_directed g = false →
   ∀ d i, i ∈ bucket (AliasProbabilisticRewireStrategy._out_edges self) d →
          i < length edges).

(** The candidate of the Alias strategy, as [get_target_edge] draws it. *)
Definition Alias_candidate {D BD deg_t : Type} `{Countable deg_t}
    `{!Inhabited deg_t} `{!BlockDeg BD deg_t}
    (self : AliasProbabilisticRewireStrategy.t D BD deg_t)
    (edges : edge_table) (g : Graph) (dr : AliasProbabilisticRewireStrategy.draws D)
    (ei : nat) : EdgeRef :=
  let s_deg := AliasProbabilisticRewireStrategy.get_deg self (source (edges !!! ei) g) g in
  let nt := sample (default (Build_Sampler [] [])
                      (AliasProbabilisticRewireStrategy._sampler self !! s_deg))
                   (AliasProbabilisticRewireStrategy.d_nt dr) in
  if is_directed g || AliasProbabilisticRewireStrategy.d_coin dr then
    (bucket (AliasProbabilisticRewireStrategy._in_edges self) nt
       !!! AliasProbabilisticRewireStrategy.d_sample dr, false)
  else
    (bucket (AliasProbabilisticRewireStrategy._out_edges self) nt
       !!! AliasProbabilisticRewireStrategy.d_sample dr, true).

(** The spec's sanitization, in its words: NaN, Inf or a negative value
    becomes 0. *)
Definition spec_coerce_invalid {D} `{!DoubleOps D} (p : D) : D :=
  if d_isnan p then d_zero
  else if d_isinf p then d_zero
  else if d_lt p d_zero then d_zero
  else p.

(** ... and then 0 becomes [numeric_limits<double>::min()]. *)
Definition spec_sanitized {D} `{!DoubleOps D} (p : D) : D :=
  if d_eq (spec_coerce_invalid p) d_zero then d_min else spec_coerce_invalid p.


(** [pi = p(bs,bt) p(bs',bt')] and [pf = p(bs,bt') p(bs',bt)], for the edge
    of slot [ei] and the candidate [ep]. *)
Definition spec_pi {D} `{!DoubleOps D} {B} (p : B → B → D) (block : vertex_t → B)
    (edges : edge_table) (g : Graph) (ei : nat) (ep : EdgeRef) : D :=
  d_mul (p (block (source (edges !!! ei) g)) (block (target (edges !!! ei) g)))
        (p (block (ref_source ep edges g)) (block (ref_target ep edges g))).

Definition spec_pf {D} `{!DoubleOps D} {B} (p : B → B → D) (block : vertex_t → B)
    (edges : edge_table) (g : Graph) (ei : nat) (ep : EdgeRef) : D :=
  d_mul (p (block (source (edges !!! ei) g)) (block (ref_target ep edges g)))
        (p (block (ref_source ep edges g)) (block (target (edges !!! ei) g))).

(** The candidate of the Probabilistic strategy, as [get_target_edge] draws
    it. *)
Definition Probabilistic_candidate {D : Type} (g : Graph)
    (dr : ProbabilisticRewireStrategy.draws D) : EdgeRef :=
  (ProbabilisticRewireStrategy.d_sample dr,
   negb (is_directed g) && ProbabilisticRewireStrategy.d_coin dr).

(** A bucketing of the slots below [n] by [key]: bucket [b] holds exactly the
    slots of key [b], and [pos] records where each slot stands in its
    bucket. *)
Definition filed {K} `{Countable K} (key : nat → K) (n : nat)
    (m : gmap K (list nat)) (pos : list nat) : Prop :=
  (∀ b i, i ∈ bucket m b ↔ i < n ∧ key i = b) ∧
  (∀ i, i < n → bucket m (key i) !! (pos !!! i) = Some i).

(** The bucketing structure of the Alias strategy agrees with the current
    edges: [_in_edges] and [_in_pos] file the slots by the block of their
    target and, in an undirected graph, [_out_edges] and [_out_pos] file them
    by the block of their source. *)
Definition buckets_agree {D BD deg_t : Type} `{Countable deg_t} `{!BlockDeg BD deg_t}
    (self : AliasProbabilisticRewireStrategy.t D BD deg_t)
    (edges : edge_table) (g : Graph) : Prop :=
  let block := λ v, get_block (AliasProbabilisticRewireStrategy._blockdeg self) v g in
  filed (λ i, block (target (edges !!! i) g)) (length edges)
        (AliasProbabilisticRewireStrategy._in_edges self)
        (AliasProbabilisticRewireStrategy._in_pos self) ∧
  (is_directed g = false →
   filed (λ i, block (source (edges !!! i) g)) (length edges)
         (AliasProbabilisticRewireStrategy._out_edges self)
         (AliasProbabilisticRewireStrategy._out_pos self)).

(** What the random source can return to the permutation iterator in
    iteration [i]: at position [pos], an offset into the rest of the
    positions. *)
Definition perm_draws_ok {Dr} (o : graph_rewire.oracle Dr) (m : nat) : Prop :=
  ∀ i pos, pos < m → pos + graph_rewire.perm_draw o i pos < m.

(** The blocks of the end points of every slot belong to [known]. *)
Definition blocks_known {BD deg_t : Type} `{Countable deg_t} `{!BlockDeg BD deg_t}
    (bd : BD) (known : gset deg_t) (edges : edge_table) (g : Graph) : Prop :=
  ∀ i, i < length edges →
    get_block bd (source (edges !!! i) g) g ∈ known ∧
    get_block bd (target (edges !!! i) g) g ∈ known.

(** A block abstraction that reads the graph through the degrees of the
    vertex only, as both [DegreeBlock] and [PropertyBlock] do. *)
Definition degree_determined {BD deg_t : Type} `{!BlockDeg BD deg_t} (bd : BD) : Prop :=
  ∀ g g' v, is_directed g' = is_directed g →
    (∀ u, in_degree u g' = in_degree u g ∧ out_degree u g' = out_degree u g) →
    get_block bd v g' = get_block bd v g.

(** ** The instances of [graph_rewire] *)

(** [graph_rewire<Strategy>] for a strategy derived from
    [RewireStrategyBase], given its constructor. *)
Definition graph_rewire_edge_pair {St Dr : Type}
    `{!RewireStrategyBase.RewireStrategy St Dr}
    (construct : edge_table → Graph → St)
    (g : Graph) (self_loops parallel_edges : bool) (iter_sweep : nat * bool)
    (persist : bool) (fuel : nat) (o : graph_rewire.oracle Dr)
    : option (graph_rewire.loop_state (rewire_state St)) :=
  graph_rewire.call
    (λ edges g, mk_state g edges (construct edges g))
    (λ rs dr ei self_loops parallel_edges,
       Some (RewireStrategyBase.call rs dr ei self_loops parallel_edges))
    g self_loops parallel_edges iter_sweep persist fuel o.

Definition graph_rewire_Random :=
  graph_rewire_edge_pair (λ _ _, ()).

Definition graph_rewire_Correlated :=
  graph_rewire_edge_pair CorrelatedRewireStrategy.construct.

Definition graph_rewire_Probabilistic {D : Type} `{!DoubleOps D}
    {BD deg_t : Type} `{Countable deg_t} `{!BlockDeg BD deg_t}
    (corr_prob : deg_t → deg_t → D) (bd : BD) (cache : bool) :=
  graph_rewire_edge_pair
    (λ edges g, ProbabilisticRewireStrategy.construct edges g corr_prob bd cache).

Definition graph_rewire_Alias {D : Type} `{!DoubleOps D}
    {BD deg_t : Type} `{Countable deg_t} `{!Inhabited deg_t} `{!BlockDeg BD deg_t}
    (corr_prob : deg_t → deg_t → D) (bd : BD) :=
  graph_rewire_edge_pair
    (λ edges g, AliasProbabilisticRewireStrategy.construct edges g corr_prob bd).

Definition graph_rewire_Erdos :=
  graph_rewire.call ErdosRewireStrategy.construct ErdosRewireStrategy.call.

Definition graph_rewire_TradBlock {D : Type} `{!DoubleOps D}
    {BD deg_t : Type} `{Countable deg_t} `{!Inhabited deg_t} `{!BlockDeg BD deg_t}
    (corr_prob : deg_t → deg_t → D) (bd : BD) :=
  graph_rewire.call
    (λ edges g, TradBlockRewireStrategy.construct edges g corr_prob bd)
    (λ rs dr ei self_loops parallel_edges,
       Some (TradBlockRewireStrategy.call rs dr ei self_loops parallel_edges)).

(** ** Vocabulary of the constraints *)

(** No stored edge joins a vertex to itself. *)
Definition loop_free (g : Graph) : Prop :=
  Forall (λ x, e_source x ≠ e_target x) (edge_list g).

(** Two stored edges are parallel: they join the same vertices, in the same
    direction when the graph is directed. *)
Definition same_ends (directed : bool) (x y : edge_t) : Prop :=
  (e_source x = e_source y ∧ e_target x = e_target y) ∨
  (directed = false ∧ e_source x = e_target y ∧ e_target x = e_source y).

(** No two stored edges are parallel. *)
Definition simple (g : Graph) : Prop :=
  ∀ x y, x ∈ edge_list g → y ∈ edge_list g →
         same_ends (is_directed g) x y → x = y.

(** ** Vocabulary of a whole run *)

(** What a run of a strategy that swaps targets keeps of the graph [g0] it
    started from: the table lists the stored edges, there are as many of
    them, between as many vertices, every vertex has the degrees it had, and
    the constraints asked for hold if they held at the start. *)
Definition run_keeps {St : Type} (g0 : Graph) (self_loops parallel_edges : bool)
    (rs : rewire_state St) : Prop :=
  table_ok (_edges rs) (_g rs) ∧
  length (_edges rs) = length (edge_list g0) ∧
  is_directed (_g rs) = is_directed g0 ∧
  num_vertices (_g rs) = num_vertices g0 ∧
  (∀ v, in_degree v (_g rs) = in_degree v g0 ∧
        out_degree v (_g rs) = out_degree v g0) ∧
  (self_loops = false → loop_free g0 → loop_free (_g rs)) ∧
  (parallel_edges = false → simple g0 →
   is_directed g0 = true ∨ (self_loops = false ∧ loop_free g0) →
   simple (_g rs)).

(** The end points of the stored edges are vertices of the graph. *)
Definition ends_in_range (g : Graph) : Prop :=
  Forall (λ x, e_source x < num_vertices g ∧ e_target x < num_vertices g)
         (edge_list g).

(** What a run of a strategy that replaces edges keeps of the graph [g0] it
    started from: the table lists the stored edges, there are as many of
    them, between as many vertices, and the constraints asked for hold if
    they held at the start. The degrees are not kept. *)
Definition replace_keeps {St : Type} (g0 : Graph) (self_loops parallel_edges : bool)
    (rs : rewire_state St) : Prop :=
  table_ok (_edges rs) (_g rs) ∧
  length (_edges rs) = length (edge_list g0) ∧
  length (edge_list (_g rs)) = length (edge_list g0) ∧
  is_directed (_g rs) = is_directed g0 ∧
  num_vertices (_g rs) = num_vertices g0 ∧
  (self_loops = false → loop_free g0 → loop_free (_g rs)) ∧
  (parallel_edges = false → simple g0 → simple (_g rs)).

(** The values the distributions can return in [operator()] of the
    traditional block model strategy: the sampler returns one of its items,
    and [s_sample] and [t_sample] are [uniform_int<>(0, size - 1)] on the two
    vertex lists selected. *)
Definition TradBlock_draws_ok {D BD deg_t : Type} `{Countable deg_t} `{!Inhabited deg_t}
    (self : TradBlockRewireStrategy.t D BD deg_t)
    (dr : TradBlockRewireStrategy.draws) : Prop :=
  TradBlockRewireStrategy.d_deg dr
    < length (s_items (TradBlockRewireStrategy._sampler self)) ∧
  let deg := sample (TradBlockRewireStrategy._sampler self)
                    (TradBlockRewireStrategy.d_deg dr) in
  TradBlockRewireStrategy.d_s_sample dr
    < length (bucket (TradBlockRewireStrategy._vertices self) deg.1) ∧
  TradBlockRewireStrategy.d_t_sample dr
    < length (bucket (TradBlockRewireStrategy._vertices self) deg.2).

(** A bucketing of the slots below [n] by [key], up to the slots [absent]
    (those between a removal and the next insertion): position [p] of
    bucket [b] holds slot [i] exactly when [i] has key [b] and [pos] records
    [p] for it. Each slot filed thus stands once, in the bucket of its key,
    where [pos] says. *)
Definition filed_at {K} `{Countable K} (key : nat → K) (n : nat) (absent : list nat)
    (m : gmap K (list nat)) (pos : list nat) : Prop :=
  length pos = n ∧
  ∀ b p i, bucket m b !! p = Some i ↔
           (i < n) ∧ (i ∉ absent) ∧ key i = b ∧ pos !!! i = p.

(** [_in_edges] and [_in_pos] of the Alias strategy file every slot, once,
    under the block of its target. *)
Definition in_edges_filed {D BD deg_t : Type} `{Countable deg_t} `{!BlockDeg BD deg_t}
    (self : AliasProbabilisticRewireStrategy.t D BD deg_t)
    (edges : edge_table) (g : Graph) : Prop :=
  filed_at (λ i, get_block (AliasProbabilisticRewireStrategy._blockdeg self)
                   (target (edges !!! i) g) g)
           (length edges) []
           (AliasProbabilisticRewireStrategy._in_edges self)
           (AliasProbabilisticRewireStrategy._in_pos self).

(** A call of a strategy built on [RewireStrategyBase] whose draws must be
    in range: where a draw is not an index of the list it is used on, the
    source reads the vector out of bounds and nothing is defined. *)
Definition in_range_call {St Dr : Type} `{!RewireStrategyBase.RewireStrategy St Dr}
    (in_range : rewire_state St → nat → Dr → Prop)
    `{!∀ rs ei dr, Decision (in_range rs ei dr)}
    (rs : rewire_state St) (dr : Dr) (ei : nat) (self_loops parallel_edges : bool)
    : option (bool * rewire_state St) :=
  if decide (in_range rs ei dr)
  then Some (RewireStrategyBase.call rs dr ei self_loops parallel_edges)
  else None.

Global Instance Correlated_draws_ok_dec self edges g ei sample :
  Decision (CorrelatedRewireStrategy.draws_ok self edges g ei sample).
Proof. unfold CorrelatedRewireStrategy.draws_ok. apply _. Defined.

(** [graph_rewire<CorrelatedRewireStrategy>] on the runs all of whose draws
    are in range: at every call, [sample] is an index of the list that
    [get_target_edge] reads for the slot visited, in the state of the
    call. *)
Definition graph_rewire_Correlated_in_range :=
  graph_rewire.call
    (λ edges g, mk_state g edges (CorrelatedRewireStrategy.construct edges g))
    (in_range_call
       (λ rs ei dr, CorrelatedRewireStrategy.draws_ok (_self rs) (_edges rs) (_g rs) ei dr)).

(** What the runs of the Correlated strategy keep, call by call. *)
Definition Correlated_kept (g : Graph) (self_loops parallel_edges : bool)
    (rs : rewire_state (gmap (nat * nat) (list EdgeRef))) : Prop :=
  run_keeps g self_loops parallel_edges rs ∧
  _self rs = CorrelatedRewireStrategy.construct (edge_list g) g ∧
  by_target_ok (_self rs) (_edges rs) (_g rs) ∧
  ∀ j, deg_pair (_g rs) (source (_edges rs !!! j) (_g rs))
       = deg_pair g (source (edge_list g !!! j) g) ∧
       deg_pair (_g rs) (target (_edges rs !!! j) (_g rs))
       = deg_pair g (target (edge_list g !!! j) g).

(** ** The calls a run makes *)







(** * Properties *)

(** ** Counting and removing stored edges *)

Lemma count_source_cons v x l :
  count_source v (x :: l) =
  (if decide (e_source x = v) then 1 else 0) + count_source v l.
Proof.
  unfold count_source. rewrite filter_cons. destruct (decide _); simpl; lia.
Qed.

Lemma count_target_cons v x l :
  count_target v (x :: l) =
  (if decide (e_target x = v) then 1 else 0) + count_target v l.
Proof.
  unfold count_target. rewrite filter_cons. destruct (decide _); simpl; lia.
Qed.

Lemma count_source_app v l1 l2 :
  count_source v (l1 ++ l2) = count_source v l1 + count_source v l2.
Proof. unfold count_source. by rewrite filter_app, length_app. Qed.

Lemma count_target_app v l1 l2 :
  count_target v (l1 ++ l2) = count_target v l1 + count_target v l2.
Proof. unfold count_target. by rewrite filter_app, length_app. Qed.

Global Instance count_source_perm v : Proper ((≡ₚ) ==> (=)) (count_source v).
Proof. intros l1 l2 Hl. unfold count_source. by rewrite Hl. Qed.

Global Instance count_target_perm v : Proper ((≡ₚ) ==> (=)) (count_target v).
Proof. intros l1 l2 Hl. unfold count_target. by rewrite Hl. Qed.

Lemma filter_all {A} (P : A → Prop) `{∀ x, Decision (P x)} (l : list A) :
  Forall P l → filter P l = l.
Proof.
  induction 1 as [|x l Hx _ IH]; [done|].
  by rewrite filter_cons_True, IH.
Qed.

(** Removing by identity takes out exactly the edge that bears it. *)
Lemma filter_id_perm (l : list edge_t) x :
  NoDup (e_id <$> l) → x ∈ l →
  l ≡ₚ x :: filter (λ z, e_id z ≠ e_id x) l.
Proof.
  induction l as [|y l IH]; intros Hnd Hx; [by apply elem_of_nil in Hx|].
  rewrite fmap_cons in Hnd. apply NoDup_cons in Hnd as [Hy Hnd].
  rewrite filter_cons. apply elem_of_cons in Hx as [->|Hx].
  - destruct (decide _) as [Hne|_]; [done|]. f_equiv.
    rewrite filter_all; [done|]. apply Forall_forall. intros z Hz Heq.
    apply Hy. rewrite <- Heq. by apply list_elem_of_fmap_2.
  - destruct (decide _) as [Hne|Heq].
    + rewrite (IH Hnd Hx) at 1. apply Permutation_swap.
    + exfalso. apply Hy. apply dec_stable in Heq. rewrite Heq.
      by apply list_elem_of_fmap_2.
Qed.

Lemma filter_id_fresh (l : list edge_t) x :
  e_id x ∉ e_id <$> l → filter (λ z, e_id z ≠ e_id x) l = l.
Proof.
  intros Hx. apply filter_all, Forall_forall. intros z Hz Heq.
  apply Hx. rewrite <- Heq. by apply list_elem_of_fmap_2.
Qed.

(** Overwriting a slot of a table without repeated identities by an edge of
    fresh identity. *)
Lemma insert_fresh_perm (l : list edge_t) i x y :
  NoDup (e_id <$> l) → l !! i = Some x → e_id y ≠ e_id x →
  <[i := y]> l ≡ₚ filter (λ z, e_id z ≠ e_id x) l ++ [y].
Proof.
  revert i. induction l as [|z l IH]; intros i Hnd Hi Hy; [done|].
  rewrite fmap_cons in Hnd. apply NoDup_cons in Hnd as [Hz Hnd].
  destruct i as [|i]; simpl in *.
  - injection Hi as ->. rewrite filter_cons_False by (intros H; by apply H).
    rewrite filter_id_fresh by done. by rewrite Permutation_app_comm.
  - rewrite filter_cons_True.
    + simpl. f_equiv. by apply IH.
    + intros Heq. apply Hz. rewrite Heq.
      apply list_elem_of_fmap_2. by eapply list_elem_of_lookup_2.
Qed.

(** ** What [swap_target] computes *)

(** The edge that replaces slot [e], and the one that replaces slot
    [te.first]. *)
Lemma swap_target_unfold e te edges g :
  e ≠ te.1 →
  swap_edge.swap_target e te edges g =
  let x1 := edges !!! e in
  let x2 := edges !!! te.1 in
  let ne := mk_edge (e_source x1) (ref_target te edges g) (next_id g) in
  let nte :=
    if te.2 then mk_edge (e_target x1) (ref_source te edges g) (S (next_id g))
    else mk_edge (ref_source te edges g) (e_target x1) (S (next_id g)) in
  (<[te.1 := nte]> (<[e := ne]> edges),
   mk_graph (is_directed g) (num_vertices g)
     ((filter (λ z, e_id z ≠ e_id x2)
         (filter (λ z, e_id z ≠ e_id x1) (edge_list g)) ++ [ne]) ++ [nte])
     (S (S (next_id g)))).
Proof.
  intros Hne. unfold swap_edge.swap_target.
  rewrite bool_decide_eq_false_2 by done.
  destruct te as [j []]; reflexivity.
Qed.

Lemma table_ok_lookup edges g i x :
  table_ok edges g → edges !! i = Some x → x ∈ edge_list g ∧ e_id x < next_id g.
Proof.
  intros [[_ Hlt] Hp] Hi.
  assert (x ∈ edge_list g) as Hx.
  { rewrite <- Hp. by eapply list_elem_of_lookup_2. }
  split; [done|]. by eapply Forall_forall in Hlt.
Qed.

Lemma table_ok_NoDup edges g : table_ok edges g → NoDup (e_id <$> edges).
Proof. intros [[Hnd _] Hp]. by rewrite Hp. Qed.

Lemma table_ok_ids_ne edges g i j x y :
  table_ok edges g → i ≠ j → edges !! i = Some x → edges !! j = Some y →
  e_id x ≠ e_id y.
Proof.
  intros Hok Hij Hi Hj Heq. apply table_ok_NoDup in Hok.
  apply Hij. eapply NoDup_lookup; [exact Hok| |];
    rewrite list_lookup_fmap; [by rewrite Hi|by rewrite Hj, Heq].
Qed.

(** An accepted swap keeps the table and the graph in step. *)
Lemma swap_target_table_ok e te edges g edges' g' :
  table_ok edges g → e < length edges → te.1 < length edges →
  swap_edge.swap_target e te edges g = (edges', g') →
  table_ok edges' g'.
Proof.
  intros Hok He Hte Hswap.
  destruct (decide (e = te.1)) as [Heq|Hne].
  { unfold swap_edge.swap_target in Hswap.
    rewrite bool_decide_eq_true_2 in Hswap by done. by injection Hswap as <- <-. }
  rewrite swap_target_unfold in Hswap by done. cbv zeta in Hswap.
  destruct (lookup_lt_is_Some_2 _ _ He) as [x1 Hx1].
  destruct (lookup_lt_is_Some_2 _ _ Hte) as [x2 Hx2].
  rewrite (list_lookup_total_correct _ _ _ Hx1) in Hswap.
  rewrite (list_lookup_total_correct _ _ _ Hx2) in Hswap.
  set (ne := mk_edge _ _ (next_id g)) in Hswap.
  set (nte := if te.2 then _ else _) in Hswap.
  assert (e_id nte = S (next_id g)) as Hnte by (subst nte; by destruct (te.2)).
  injection Hswap as <- <-.
  destruct (table_ok_lookup _ _ _ _ Hok Hx1) as [Hin1 Hlt1].
  destruct (table_ok_lookup _ _ _ _ Hok Hx2) as [Hin2 Hlt2].
  pose proof (table_ok_NoDup _ _ Hok) as Hnd.
  destruct Hok as [[Hndg Hlt] Hp].
  assert (<[e:=ne]> edges ≡ₚ filter (λ z, e_id z ≠ e_id x1) edges ++ [ne]) as H1.
  { apply insert_fresh_perm; [done..|]. simpl. lia. }
  assert (<[te.1:=nte]> (<[e:=ne]> edges) ≡ₚ
          filter (λ z, e_id z ≠ e_id x2) (<[e:=ne]> edges) ++ [nte]) as H2.
  { apply insert_fresh_perm.
    - rewrite H1, fmap_app. simpl. apply NoDup_app. split_and!.
      + apply (NoDup_fmap_2_strong _); [|apply NoDup_filter; by eapply NoDup_fmap_1].
        intros a b Ha Hb Hab. apply list_elem_of_filter in Ha as [_ Ha].
        apply list_elem_of_filter in Hb as [_ Hb].
        apply list_elem_of_lookup in Ha as [ia Ha]. apply list_elem_of_lookup in Hb as [ib Hb].
        assert (ia = ib) as ->; [|congruence].
        eapply NoDup_lookup; [exact Hnd| |]; rewrite list_lookup_fmap;
          [by rewrite Ha|by rewrite Hb, Hab].
      + intros a Ha Ha'. apply list_elem_of_singleton in Ha' as ->.
        apply list_elem_of_fmap in Ha as (z & Hz & Hzin).
        apply list_elem_of_filter in Hzin as [_ Hzin].
        rewrite Hp in Hzin. eapply Forall_forall in Hlt; [|done]. lia.
      + apply NoDup_singleton.
    - by rewrite list_lookup_insert_ne.
    - lia. }
  split; [split|]; simpl.
  - rewrite !fmap_app. simpl. rewrite Hnte.
    assert (∀ a, a ∈ e_id <$> filter (λ z, e_id z ≠ e_id x2)
                   (filter (λ z, e_id z ≠ e_id x1) (edge_list g)) → a < next_id g) as Hb.
    { intros a Ha. apply list_elem_of_fmap in Ha as (z & -> & Hz).
      apply list_elem_of_filter in Hz as [_ Hz]. apply list_elem_of_filter in Hz as [_ Hz].
      by eapply Forall_forall in Hlt. }
    apply NoDup_app. split_and!.
    + apply NoDup_app. split_and!.
      * apply (NoDup_fmap_2_strong _); [|do 2 apply NoDup_filter; by eapply NoDup_fmap_1].
        intros a b Ha Hb' Hab.
        apply list_elem_of_filter in Ha as [_ Ha]. apply list_elem_of_filter in Ha as [_ Ha].
        apply list_elem_of_filter in Hb' as [_ Hb']. apply list_elem_of_filter in Hb' as [_ Hb'].
        apply list_elem_of_lookup in Ha as [ia Ha]. apply list_elem_of_lookup in Hb' as [ib Hb'].
        assert (ia = ib) as ->; [|congruence].
        eapply NoDup_lookup; [exact Hndg| |]; rewrite list_lookup_fmap;
          [by rewrite Ha|by rewrite Hb', Hab].
      * intros a Ha Ha'. apply list_elem_of_singleton in Ha' as ->.
        apply Hb in Ha. lia.
      * apply NoDup_singleton.
    + intros a Ha Ha'. apply list_elem_of_singleton in Ha' as ->.
      apply elem_of_app in Ha as [Ha|Ha]; [apply Hb in Ha; lia|].
      apply list_elem_of_singleton in Ha. simpl in Ha. lia.
    + apply NoDup_singleton.
  - rewrite !Forall_app. split_and!.
    + apply Forall_forall. intros z Hz.
      apply list_elem_of_filter in Hz as [_ Hz]. apply list_elem_of_filter in Hz as [_ Hz].
      eapply Forall_forall in Hlt; [|done]. lia.
    + apply Forall_singleton. simpl. lia.
    + apply Forall_singleton. rewrite Hnte. lia.
  - rewrite H2, H1, filter_app, Hp. f_equiv. f_equiv.
    rewrite filter_cons_True; [done|]. simpl. lia.
Qed.

Lemma swap_target_is_directed e (te : EdgeRef) edges g :
  is_directed (swap_edge.swap_target e te edges g).2 = is_directed g.
Proof.
  destruct (decide (e = te.1)) as [Heq|Hne].
  - unfold swap_edge.swap_target. by rewrite bool_decide_eq_true_2.
  - by rewrite swap_target_unfold.
Qed.

(** The stored edges before a swap, as the two edges swapped and the rest. *)
Lemma swap_target_split e (te : EdgeRef) edges g x1 x2 :
  table_ok edges g → e ≠ te.1 →
  edges !! e = Some x1 → edges !! te.1 = Some x2 →
  edge_list g ≡ₚ
  x1 :: x2 :: filter (λ z, e_id z ≠ e_id x2)
                 (filter (λ z, e_id z ≠ e_id x1) (edge_list g)).
Proof.
  intros Hok Hne Hx1 Hx2.
  destruct (table_ok_lookup _ _ _ _ Hok Hx1) as [Hin1 _].
  destruct (table_ok_lookup _ _ _ _ Hok Hx2) as [Hin2 _].
  pose proof (table_ok_ids_ne _ _ _ _ _ _ Hok Hne Hx1 Hx2) as Hid.
  destruct Hok as [[Hnd _] _].
  rewrite (filter_id_perm _ x1 Hnd Hin1) at 1. f_equiv.
  apply filter_id_perm.
  - eapply sublist_NoDup; [exact Hnd|apply fmap_sublist, sublist_filter].
  - apply list_elem_of_filter. split; [congruence|done].
Qed.

(** Degrees across [swap_target], for an edge reference of the data model. *)
Lemma swap_target_degrees e te edges g edges' g' :
  table_ok edges g → e < length edges → EdgeRef_ok edges g te →
  swap_edge.swap_target e te edges g = (edges', g') →
  ∀ v, in_degree v g' = in_degree v g ∧ out_degree v g' = out_degree v g.
Proof.
  intros Hok He [Hte Hflip] Hswap v.
  destruct (decide (e = te.1)) as [Heq|Hne].
  { unfold swap_edge.swap_target in Hswap.
    rewrite bool_decide_eq_true_2 in Hswap by done. by injection Hswap as <- <-. }
  destruct (lookup_lt_is_Some_2 _ _ He) as [x1 Hx1].
  destruct (lookup_lt_is_Some_2 _ _ Hte) as [x2 Hx2].
  pose proof (swap_target_split _ _ _ _ _ _ Hok Hne Hx1 Hx2) as Hsplit.
  rewrite swap_target_unfold in Hswap by done. cbv zeta in Hswap.
  unfold ref_source, ref_target, source, target in Hswap.
  rewrite (list_lookup_total_correct _ _ _ Hx1) in Hswap.
  rewrite (list_lookup_total_correct _ _ _ Hx2) in Hswap.
  injection Hswap as <- <-.
  unfold in_degree, out_degree. simpl.
  set (rest := filter _ (filter _ (edge_list g))) in *.
  destruct (is_directed g) eqn:Hdir.
  - rewrite (Hflip eq_refl). simpl.
    rewrite !count_source_app, !count_target_app, Hsplit.
    rewrite !count_source_cons, !count_target_cons.
    change (count_source v []) with 0. change (count_target v []) with 0.
    simpl. repeat destruct (decide _); simpl; lia.
  - rewrite !count_source_app, !count_target_app, Hsplit.
    rewrite !count_source_cons, !count_target_cons.
    change (count_source v []) with 0. change (count_target v []) with 0.
    destruct (te.2); simpl; repeat destruct (decide _); simpl; lia.
Qed.

(** ** The two outcomes of [RewireStrategyBase::operator()] *)

Section base_outcomes.
Context {St Dr : Type} `{!RewireStrategyBase.RewireStrategy St Dr}.

(** A rejection returns the strategy object as it was. *)
Lemma call_rejected (rs rs' : rewire_state St) dr ei self_loops parallel_edges :
  RewireStrategyBase.call rs dr ei self_loops parallel_edges = (false, rs') →
  rs' = rs.
Proof.
  unfold RewireStrategyBase.call.
  repeat case_match; intros [=]; done.
Qed.

(** An acceptance passed every check and went through [swap_target]. *)
Lemma call_accepted (rs rs' : rewire_state St) dr ei self_loops parallel_edges :
  RewireStrategyBase.call rs dr ei self_loops parallel_edges = (true, rs') →
  let et := RewireStrategyBase.get_target_edge (_self rs) (_edges rs) (_g rs) dr ei in
  ei ≠ et.1 ∧
  swap_edge.swap_target ei et (_edges rs) (_g rs) = (_edges rs', _g rs') ∧
  (self_loops = false →
     source (_edges rs !!! ei) (_g rs) ≠ ref_target et (_edges rs) (_g rs) ∧
     target (_edges rs !!! ei) (_g rs) ≠ ref_source et (_edges rs) (_g rs)) ∧
  (parallel_edges = false →
     swap_edge.parallel_check_target ei et (_edges rs) (_g rs) = false).
Proof.
  intros Hcall et. unfold RewireStrategyBase.call in Hcall. cbv zeta in Hcall.
  fold et in Hcall.
  destruct (negb self_loops && _) eqn:Hsl in Hcall; [done|].
  destruct (negb parallel_edges && _ && _) eqn:Hpe in Hcall; [done|].
  case_bool_decide as Hne; [|done].
  destruct (swap_edge.swap_target _ _ _ _) as [edges' g'] eqn:Hswap.
  injection Hcall as <-. simpl. split_and!; [done..| |].
  - intros ->. simpl in Hsl. apply orb_false_iff in Hsl as [H1 H2].
    apply bool_decide_eq_false in H1, H2. done.
  - intros ->. simpl in Hpe. rewrite bool_decide_eq_true_2 in Hpe by done.
    done.
Qed.

(** The derived strategy after an acceptance: its two remove hooks ran on
    the state before the swap, and its two insert hooks on the state after. *)
Lemma call_accepted_self (rs rs' : rewire_state St) dr ei self_loops parallel_edges :
  RewireStrategyBase.call rs dr ei self_loops parallel_edges = (true, rs') →
  let et := RewireStrategyBase.get_target_edge (_self rs) (_edges rs) (_g rs) dr ei in
  _self rs' =
  RewireStrategyBase.update_edge
    (RewireStrategyBase.update_edge
       (RewireStrategyBase.update_edge
          (RewireStrategyBase.update_edge (_self rs) (_edges rs) (_g rs) ei false)
          (_edges rs) (_g rs) et.1 false)
       (_edges rs') (_g rs') ei true)
    (_edges rs') (_g rs') et.1 true.
Proof.
  intros Hcall et. unfold RewireStrategyBase.call in Hcall. cbv zeta in Hcall.
  fold et in Hcall.
  destruct (negb self_loops && _); [done|].
  destruct (negb parallel_edges && _ && _); [done|].
  destruct (bool_decide (ei ≠ et.1)); [|done].
  destruct (swap_edge.swap_target _ _ _ _) as [edges' g'].
  by injection Hcall as <-.
Qed.

Lemma call_accepted_table_ok (rs rs' : rewire_state St) dr ei sl pe :
  table_ok (_edges rs) (_g rs) → ei < length (_edges rs) →
  EdgeRef_ok (_edges rs) (_g rs)
    (RewireStrategyBase.get_target_edge (_self rs) (_edges rs) (_g rs) dr ei) →
  RewireStrategyBase.call rs dr ei sl pe = (true, rs') →
  table_ok (_edges rs') (_g rs') ∧ length (_edges rs') = length (_edges rs)
  ∧ is_directed (_g rs') = is_directed (_g rs).
Proof.
  intros Hok Hei [Het _] Hcall. apply call_accepted in Hcall as (Hne & Hswap & _).
  cbv zeta in *. split_and!.
  - eapply swap_target_table_ok; [exact Hok|exact Hei|exact Het|exact Hswap].
  - rewrite swap_target_unfold in Hswap by done. injection Hswap as <- _.
    by rewrite !length_insert.
  - change (_g rs') with (_edges rs', _g rs').2. rewrite <- Hswap.
    apply swap_target_is_directed.
Qed.

Lemma call_accepted_degrees (rs rs' : rewire_state St) dr ei sl pe :
  table_ok (_edges rs) (_g rs) → ei < length (_edges rs) →
  EdgeRef_ok (_edges rs) (_g rs)
    (RewireStrategyBase.get_target_edge (_self rs) (_edges rs) (_g rs) dr ei) →
  RewireStrategyBase.call rs dr ei sl pe = (true, rs') →
  ∀ v, in_degree v (_g rs') = in_degree v (_g rs) ∧
       out_degree v (_g rs') = out_degree v (_g rs).
Proof.
  intros Hok Hei Het Hcall. apply call_accepted in Hcall as (Hne & Hswap & _).
  cbv zeta in *. eapply swap_target_degrees; [exact Hok|exact Hei|exact Het|exact Hswap].
Qed.

End base_outcomes.

Lemma graph_ok_id_inj g x y :
  graph_ok g → x ∈ edge_list g → y ∈ edge_list g → e_id x = e_id y → x = y.
Proof.
  intros [Hnd _] Hx Hy Hid.
  apply list_elem_of_lookup in Hx as [i Hi]. apply list_elem_of_lookup in Hy as [j Hj].
  assert (i = j) as ->; [|congruence].
  eapply NoDup_lookup; [exact Hnd| |]; rewrite list_lookup_fmap;
    [by rewrite Hi|by rewrite Hj, Hid].
Qed.

(** ** The frame of [swap_target] *)

(** C10. [swap_target(e, te)] writes the table at slots [e] and [te.first]
    only; the stored edges of the graph afterwards are those before, without
    the two that the slots held and with the two that the slots now hold (so
    the edge of every other slot is still stored); the kind and the vertices
    of the graph are untouched; and when [e = te.first] nothing changes. *)
Theorem swap_target_frame e (te : EdgeRef) edges g :
  table_ok edges g → e < length edges → te.1 < length edges →
  let edges' := (swap_edge.swap_target e te edges g).1 in
  let g' := (swap_edge.swap_target e te edges g).2 in
  (e = te.1 → edges' = edges ∧ g' = g) ∧
  length edges' = length edges ∧
  (∀ j, j ≠ e → j ≠ te.1 → edges' !! j = edges !! j) ∧
  (∀ j x, j ≠ e → j ≠ te.1 → edges !! j = Some x → x ∈ edge_list g') ∧
  (∀ x, x ∈ edge_list g' ↔
        (x ∈ edge_list g ∧ x ≠ edges !!! e ∧ x ≠ edges !!! te.1)
        ∨ x = edges' !!! e ∨ x = edges' !!! te.1) ∧
  is_directed g' = is_directed g ∧ num_vertices g' = num_vertices g.
Proof.
  intros Hok He Hte edges' g'.
  destruct (lookup_lt_is_Some_2 _ _ He) as [x1 Hx1].
  destruct (lookup_lt_is_Some_2 _ _ Hte) as [x2 Hx2].
  destruct (table_ok_lookup _ _ _ _ Hok Hx1) as [Hin1 _].
  destruct (table_ok_lookup _ _ _ _ Hok Hx2) as [Hin2 _].
  destruct (decide (e = te.1)) as [Heq|Hne].
  { assert (edges' = edges ∧ g' = g) as [-> ->].
    { subst edges' g'. unfold swap_edge.swap_target.
      by rewrite bool_decide_eq_true_2. }
    split_and!; try done.
    - intros j x _ _ Hj. by eapply table_ok_lookup.
    - intros x. rewrite <- Heq, (list_lookup_total_correct _ _ _ Hx1). split.
      + intros Hx. destruct (decide (x = x1)); [by right; left|by left].
      + intros [[? _]|[->| ->]]; done. }
  subst edges' g'. rewrite swap_target_unfold by done. cbv zeta. simpl.
  rewrite (list_lookup_total_correct _ _ _ Hx1), (list_lookup_total_correct _ _ _ Hx2).
  set (ne := mk_edge _ _ (next_id g)).
  set (nte := if te.2 then _ else _).
  assert (∀ x, x ∈ filter (λ z, e_id z ≠ e_id x2)
                   (filter (λ z, e_id z ≠ e_id x1) (edge_list g)) ↔
               x ∈ edge_list g ∧ x ≠ x1 ∧ x ≠ x2) as Hrest.
  { intros x. rewrite !list_elem_of_filter. destruct Hok as [Hg _]. split.
    - intros (H2 & H1 & Hx). split_and!; [done|by intros ->..].
    - intros (Hx & H1 & H2). split_and!; [| |done]; intros Hid;
        [apply H2|apply H1]; by eapply graph_ok_id_inj. }
  split_and!; try done.
  - by rewrite !length_insert.
  - intros j Hj1 Hj2. by rewrite !list_lookup_insert_ne.
  - intros j x Hj1 Hj2 Hj. rewrite !elem_of_app. left; left. apply Hrest.
    split_and!; [by eapply table_ok_lookup|..]; intros ->.
    + by eapply (table_ok_ids_ne _ _ j e x1 x1 Hok).
    + by eapply (table_ok_ids_ne _ _ j (te.1) x2 x2 Hok).
  - intros x. rewrite !elem_of_app, !list_elem_of_singleton, Hrest.
    rewrite list_lookup_total_insert_ne by done.
    rewrite !list_lookup_total_insert_eq by (rewrite ?length_insert; done).
    tauto.
Qed.

(** At slots [e = 0] and [te = (1, false)] of the table of the graph with the
    three edges 0 -> 1, 2 -> 3 and 4 -> 5: slot 2 still holds the edge
    4 -> 5, which is still stored in the graph. *)
Lemma swap_target_frame_witness :
  let g := mk_graph true 6 [mk_edge 0 1 0; mk_edge 2 3 1; mk_edge 4 5 2] 3 in
  (swap_edge.swap_target 0 (1, false) (edge_list g) g).1 !! 2 = Some (mk_edge 4 5 2) ∧
  mk_edge 4 5 2 ∈ edge_list (swap_edge.swap_target 0 (1, false) (edge_list g) g).2.
Proof.
  intros g.
  pose proof (swap_target_frame 0 (1, false) (edge_list g) g
                ltac:(apply (bool_decide_unpack _); vm_compute; exact I)
                ltac:(simpl; lia) ltac:(simpl; lia))
    as (_ & _ & Htable & Hgraph & _).
  split.
  - rewrite (Htable 2) by (simpl; lia). reflexivity.
  - apply (Hgraph 2); [lia|simpl; lia|reflexivity].
Defined.

(** ** The parallel-edge check *)

Lemma is_adjacent_spec u v g :
  is_adjacent u v g = true ↔
  ∃ x, x ∈ edge_list g ∧
       ((e_source x = u ∧ e_target x = v) ∨
        (is_directed g = false ∧ e_source x = v ∧ e_target x = u)).
Proof.
  unfold is_adjacent. rewrite existsb_exists. unfold joins.
  split; intros (x & Hx & Hj); exists x.
  - split; [by apply list_elem_of_In|].
    apply orb_true_iff in Hj as [Hj|Hj].
    + left. by apply bool_decide_eq_true in Hj.
    + right. apply andb_true_iff in Hj as [Hd Hj].
      apply bool_decide_eq_true in Hj. by destruct (is_directed g).
  - split; [by apply list_elem_of_In|].
    destruct Hj as [Hj|(Hd & Hj)].
    + by rewrite bool_decide_eq_true_2.
    + rewrite Hd. simpl. rewrite (bool_decide_eq_true_2 (_ = v ∧ _)) by done.
      apply orb_true_r.
Qed.

(** C8. [parallel_check_target(e, te, edges, g)] answers true exactly when
    the source of [edges[e]] is adjacent to the target of [te], or the
    source of [te] is adjacent to the target of [edges[e]], both read in the
    graph [g] it is given: the state before the swap. *)
Theorem parallel_check_target_iff e (te : EdgeRef) edges g :
  swap_edge.parallel_check_target e te edges g = true ↔
  is_adjacent (source (edges !!! e) g) (ref_target te edges g) g = true ∨
  is_adjacent (ref_source te edges g) (target (edges !!! e) g) g = true.
Proof.
  unfold swap_edge.parallel_check_target. cbv zeta.
  destruct (is_adjacent (source _ _) _ _); [by split; [left|]|].
  destruct (is_adjacent (ref_source _ _ _) _ _); [by split; [right|]|].
  split; [done|]. by intros [|].
Qed.

(** ** A rejected proposal *)

Lemma Erdos_call_rejected rs draws ei self_loops parallel_edges rs' :
  ErdosRewireStrategy.call rs draws ei self_loops parallel_edges = Some (false, rs') →
  rs' = rs.
Proof.
  unfold ErdosRewireStrategy.call.
  destruct (ErdosRewireStrategy.pick _ _) as [[s t]|]; [|done].
  destruct (negb parallel_edges && _); [by intros [= ->]|].
  destruct (add_edge _ _ _). done.
Qed.

Lemma TradBlock_call_rejected {D} `{!DoubleOps D} {BD deg_t}
    `{Countable deg_t} `{!Inhabited deg_t} `{!BlockDeg BD deg_t}
    (rs rs' : rewire_state (TradBlockRewireStrategy.t D BD deg_t))
    dr ei self_loops parallel_edges :
  TradBlockRewireStrategy.call rs dr ei self_loops parallel_edges = (false, rs') →
  rs' = rs.
Proof.
  unfold TradBlockRewireStrategy.call. cbv zeta.
  destruct (negb self_loops && _); [by intros [= ->]|].
  destruct (negb parallel_edges && _); [by intros [= ->]|].
  destruct (add_edge _ _ _). done.
Qed.

(** C9. Whenever a proposal returns false, the graph and the edge table are
    what they were before it, for the strategies built on
    [RewireStrategyBase] (Random, Correlated, Probabilistic, Alias, and any
    other instance), for Erdos-Renyi and for the traditional block model:
    every check comes before the first removal. *)
Theorem rejected_proposal_mutates_nothing :
  (∀ (St Dr : Type) (strategy : RewireStrategyBase.RewireStrategy St Dr)
     (rs rs' : rewire_state St) dr ei self_loops parallel_edges,
     RewireStrategyBase.call rs dr ei self_loops parallel_edges = (false, rs') →
     _g rs' = _g rs ∧ _edges rs' = _edges rs) ∧
  (∀ rs rs' draws ei self_loops parallel_edges,
     ErdosRewireStrategy.call rs draws ei self_loops parallel_edges
       = Some (false, rs') →
     _g rs' = _g rs ∧ _edges rs' = _edges rs) ∧
  (∀ (D : Type) (ops : DoubleOps D) (BD deg_t : Type) (eq : EqDecision deg_t)
     (cnt : Countable deg_t) (inh : Inhabited deg_t) (bd : BlockDeg BD deg_t)
     (rs rs' : rewire_state (TradBlockRewireStrategy.t D BD deg_t))
     dr ei self_loops parallel_edges,
     TradBlockRewireStrategy.call rs dr ei self_loops parallel_edges = (false, rs') →
     _g rs' = _g rs ∧ _edges rs' = _edges rs).
Proof.
  split_and!.
  - intros St Dr strategy rs rs' dr ei sl pe Hcall.
    by rewrite (call_rejected _ _ _ _ _ _ Hcall).
  - intros rs rs' draws ei sl pe Hcall.
    by rewrite (Erdos_call_rejected _ _ _ _ _ _ Hcall).
  - intros D ops BD deg_t eq cnt inh bd rs rs' dr ei sl pe Hcall.
    by rewrite (TradBlock_call_rejected _ _ _ _ _ _ Hcall).
Qed.

(** The Random strategy on the graph whose one edge is 0 -> 1: the proposal
    for slot 0 can only draw slot 0, and is rejected. *)
Lemma rejected_proposal_witness :
  let g := mk_graph true 2 [mk_edge 0 1 0] 1 in
  let rs := mk_state g (edge_list g) () in
  let rs' := (RewireStrategyBase.call rs (RandomRewireStrategy.mk_draws 0 false)
                0 false false).2 in
  _g rs' = _g rs ∧ _edges rs' = _edges rs.
Proof.
  intros g rs rs'.
  apply (proj1 rejected_proposal_mutates_nothing _ _ _ rs rs'
           (RandomRewireStrategy.mk_draws 0 false) 0 false false).
  reflexivity.
Defined.

(** ** The target edges the four edge-pair strategies return *)

Lemma Random_EdgeRef_ok edges g dr ei :
  ei < length edges → RandomRewireStrategy.draws_ok edges dr →
  EdgeRef_ok edges g (RandomRewireStrategy.get_target_edge edges g dr ei).
Proof.
  unfold RandomRewireStrategy.draws_ok, RandomRewireStrategy.get_target_edge, EdgeRef_ok.
  intros Hei Hdr. destruct (is_directed g); simpl; split; (lia || done).
Qed.

Lemma Correlated_EdgeRef_ok self edges g sample ei :
  by_target_ok self edges g →
  CorrelatedRewireStrategy.draws_ok self edges g ei sample →
  let et := CorrelatedRewireStrategy.get_target_edge self edges g sample ei in
  EdgeRef_ok edges g et ∧
  (in_degreeS (ref_target et edges g) g, out_degree (ref_target et edges g) g)
  = (in_degreeS (target (edges !!! ei) g) g, out_degree (target (edges !!! ei) g) g).
Proof.
  unfold CorrelatedRewireStrategy.draws_ok, CorrelatedRewireStrategy.get_target_edge.
  cbv zeta. intros Hinv Hdr. apply Hinv.
  by apply list_elem_of_lookup_total_2.
Qed.

Section probabilistic_targets.
Context {D : Type} `{!DoubleOps D}.
Context {BD deg_t : Type} `{Countable deg_t} `{!BlockDeg BD deg_t}.

(** [get_target_edge] returns the candidate or the self-pair. *)
Lemma Probabilistic_get_target_edge_cases
    (self : ProbabilisticRewireStrategy.t D BD deg_t) edges g dr ei :
  ProbabilisticRewireStrategy.get_target_edge self edges g dr ei
    = Probabilistic_candidate g dr ∨
  ProbabilisticRewireStrategy.get_target_edge self edges g dr ei = (ei, false).
Proof.
  unfold ProbabilisticRewireStrategy.get_target_edge, Probabilistic_candidate.
  cbv zeta. destruct (is_directed g); simpl; repeat case_match; auto.
Qed.

Lemma Probabilistic_EdgeRef_ok
    (self : ProbabilisticRewireStrategy.t D BD deg_t) edges g dr ei :
  ei < length edges → ProbabilisticRewireStrategy.draws_ok edges dr →
  EdgeRef_ok edges g (ProbabilisticRewireStrategy.get_target_edge self edges g dr ei).
Proof.
  unfold ProbabilisticRewireStrategy.draws_ok. intros Hei Hdr.
  destruct (Probabilistic_get_target_edge_cases self edges g dr ei) as [-> | ->];
    unfold EdgeRef_ok; simpl.
  - split; [lia|]. by intros ->.
  - done.
Qed.

End probabilistic_targets.

Section alias_targets.
Context {D : Type} `{!DoubleOps D}.
Context {BD deg_t : Type} `{Countable deg_t} `{!Inhabited deg_t} `{!BlockDeg BD deg_t}.

Lemma Alias_get_target_edge_cases
    (self : AliasProbabilisticRewireStrategy.t D BD deg_t) edges g dr ei :
  AliasProbabilisticRewireStrategy.get_target_edge self edges g dr ei
    = Alias_candidate self edges g dr ei ∨
  AliasProbabilisticRewireStrategy.get_target_edge self edges g dr ei = (ei, false).
Proof.
  unfold AliasProbabilisticRewireStrategy.get_target_edge, Alias_candidate. cbv zeta.
  repeat case_match; auto.
Qed.

Lemma Alias_EdgeRef_ok
    (self : AliasProbabilisticRewireStrategy.t D BD deg_t) edges g dr ei :
  ei < length edges → slots_in_range self edges g →
  AliasProbabilisticRewireStrategy.draws_ok self edges g ei dr →
  EdgeRef_ok edges g (AliasProbabilisticRewireStrategy.get_target_edge self edges g dr ei).
Proof.
  intros Hei [Hin Hout] [_ Hdr].
  destruct (Alias_get_target_edge_cases self edges g dr ei) as [-> | ->];
    [|by unfold EdgeRef_ok].
  unfold Alias_candidate, EdgeRef_ok. cbv zeta in *.
  destruct (is_directed g || _) eqn:Hd; simpl.
  - split; [|done]. eapply Hin. by apply list_elem_of_lookup_total_2.
  - apply orb_false_iff in Hd as [Hdir _]. rewrite Hdir in *. split; [|done].
    eapply (Hout eq_refl). by apply list_elem_of_lookup_total_2.
Qed.

End alias_targets.

(** ** Degrees are preserved *)

(** C1. An accepted move of the Random, Correlated, Probabilistic or Alias
    strategy leaves the in-degree and the out-degree of every vertex as they
    were, in a directed and in an undirected graph. The table lists the
    edges of the graph and [ei] is one of its slots; the draws are values
    that the distributions can return; the buckets of the Correlated and of
    the Alias strategy hold edge references of the data model. *)
Theorem accepted_move_preserves_degrees :
  (∀ (rs rs' : rewire_state ()) dr ei self_loops parallel_edges,
     table_ok (_edges rs) (_g rs) → ei < length (_edges rs) →
     RandomRewireStrategy.draws_ok (_edges rs) dr →
     RewireStrategyBase.call rs dr ei self_loops parallel_edges = (true, rs') →
     ∀ v, in_degree v (_g rs') = in_degree v (_g rs) ∧
          out_degree v (_g rs') = out_degree v (_g rs)) ∧
  (∀ (rs rs' : rewire_state (gmap (nat * nat) (list EdgeRef)))
     sample ei self_loops parallel_edges,
     table_ok (_edges rs) (_g rs) → ei < length (_edges rs) →
     by_target_ok (_self rs) (_edges rs) (_g rs) →
     CorrelatedRewireStrategy.draws_ok (_self rs) (_edges rs) (_g rs) ei sample →
     RewireStrategyBase.call rs sample ei self_loops parallel_edges = (true, rs') →
     ∀ v, in_degree v (_g rs') = in_degree v (_g rs) ∧
          out_degree v (_g rs') = out_degree v (_g rs)) ∧
  (∀ (D : Type) (ops : DoubleOps D) (BD deg_t : Type) (eq : EqDecision deg_t)
     (cnt : Countable deg_t) (bd : BlockDeg BD deg_t)
     (rs rs' : rewire_state (ProbabilisticRewireStrategy.t D BD deg_t))
     dr ei self_loops parallel_edges,
     table_ok (_edges rs) (_g rs) → ei < length (_edges rs) →
     ProbabilisticRewireStrategy.draws_ok (_edges rs) dr →
     RewireStrategyBase.call rs dr ei self_loops parallel_edges = (true, rs') →
     ∀ v, in_degree v (_g rs') = in_degree v (_g rs) ∧
          out_degree v (_g rs') = out_degree v (_g rs)) ∧
  (∀ (D : Type) (ops : DoubleOps D) (BD deg_t : Type) (eq : EqDecision deg_t)
     (cnt : Countable deg_t) (inh : Inhabited deg_t) (bd : BlockDeg BD deg_t)
     (rs rs' : rewire_state (AliasProbabilisticRewireStrategy.t D BD deg_t))
     dr ei self_loops parallel_edges,
     table_ok (_edges rs) (_g rs) → ei < length (_edges rs) →
     slots_in_range (_self rs) (_edges rs) (_g rs) →
     AliasProbabilisticRewireStrategy.draws_ok (_self rs) (_edges rs) (_g rs) ei dr →
     RewireStrategyBase.call rs dr ei self_loops parallel_edges = (true, rs') →
     ∀ v, in_degree v (_g rs') = in_degree v (_g rs) ∧
          out_degree v (_g rs') = out_degree v (_g rs)).
Proof.
  split_and!.
  - intros rs rs' dr ei sl pe Hok Hei Hdr Hcall.
    eapply call_accepted_degrees; [done..| |done].
    by apply Random_EdgeRef_ok.
  - intros rs rs' sample ei sl pe Hok Hei Hinv Hdr Hcall.
    eapply call_accepted_degrees; [done..| |done].
    by apply Correlated_EdgeRef_ok.
  - intros D ops BD deg_t eq cnt bd rs rs' dr ei sl pe Hok Hei Hdr Hcall.
    eapply call_accepted_degrees; [done..| |done].
    by apply Probabilistic_EdgeRef_ok.
  - intros D ops BD deg_t eq cnt inh bd rs rs' dr ei sl pe Hok Hei Hinv Hdr Hcall.
    eapply call_accepted_degrees; [done..| |done].
    by apply Alias_EdgeRef_ok.
Qed.

(** The Random strategy on the undirected path 0 - 1, 2 - 3: the proposal for
    slot 0 draws slot 1 flipped, and is accepted. *)
Lemma accepted_move_preserves_degrees_witness :
  let g := mk_graph false 4 [mk_edge 0 1 0; mk_edge 2 3 1] 2 in
  let rs := mk_state g (edge_list g) () in
  let rs' := (RewireStrategyBase.call rs (RandomRewireStrategy.mk_draws 1 true)
                0 false false).2 in
  in_degree 1 (_g rs') = in_degree 1 (_g rs) ∧
  out_degree 1 (_g rs') = out_degree 1 (_g rs).
Proof.
  intros g rs rs'.
  refine (proj1 accepted_move_preserves_degrees rs rs'
            (RandomRewireStrategy.mk_draws 1 true) 0 false false _ _ _ _ 1).
  - compute_done.
  - simpl. lia.
  - unfold RandomRewireStrategy.draws_ok. simpl. lia.
  - reflexivity.
Defined.

(** ** Buckets *)

Lemma bucket_empty {K A} `{Countable K} (k : K) : bucket (∅ : gmap K (list A)) k = [].
Proof. unfold bucket. by rewrite lookup_empty. Qed.

Lemma bucket_insert {K A} `{Countable K} (m : gmap K (list A)) k k' l :
  bucket (<[k := l]> m) k' = if decide (k = k') then l else bucket m k'.
Proof.
  unfold bucket. destruct (decide (k = k')) as [->|Hne].
  - by rewrite lookup_insert_eq.
  - by rewrite lookup_insert_ne.
Qed.

Lemma bucket_push_back {K A} `{Countable K} (m : gmap K (list A)) k k' x :
  bucket (push_back k x m) k' =
  if decide (k = k') then bucket m k ++ [x] else bucket m k'.
Proof. unfold push_back. apply bucket_insert. Qed.

Lemma elem_of_bucket_push_back {K A} `{Countable K} (m : gmap K (list A)) k k' x y :
  y ∈ bucket (push_back k x m) k' ↔ y ∈ bucket m k' ∨ (k = k' ∧ y = x).
Proof.
  rewrite bucket_push_back. destruct (decide (k = k')) as [->|Hne].
  - rewrite elem_of_app, list_elem_of_singleton. tauto.
  - split; [by left|]. by intros [?|[? ?]].
Qed.

(** ** The Correlated strategy keeps the degree correlations *)

(** The constructor files every slot under the degree pair of its target
    (and, in an undirected graph, its flipped form under that of its
    source). *)
Lemma Correlated_construct_ok edges g :
  by_target_ok (CorrelatedRewireStrategy.construct edges g) edges g.
Proof.
  unfold CorrelatedRewireStrategy.construct.
  assert (∀ n, n ≤ length edges →
            by_target_ok (foldl (CorrelatedRewireStrategy.index_edge edges g) ∅ (seq 0 n))
                         edges g) as Hn; [|by apply Hn].
  induction n as [|n IH]; intros Hle.
  { intros tdeg et. simpl. rewrite bucket_empty. by intros ?%elem_of_nil. }
  rewrite seq_S, foldl_app. simpl.
  specialize (IH ltac:(lia)). revert IH.
  generalize (foldl (CorrelatedRewireStrategy.index_edge edges g) ∅ (seq 0 n)).
  intros m IH tdeg et. unfold CorrelatedRewireStrategy.index_edge. cbv zeta.
  destruct (is_directed g) eqn:Hdir; simpl.
  - rewrite elem_of_bucket_push_back. intros [Het|[<- ->]]; [by apply IH|].
    unfold EdgeRef_ok, ref_target. simpl. split; [split; [lia|done]|done].
  - rewrite !elem_of_bucket_push_back. intros [[Het|[<- ->]]|[<- ->]]; [by apply IH|..];
      unfold EdgeRef_ok, ref_target; simpl; (split; [split; [lia|]|done]);
      rewrite Hdir; done.
Qed.

(** The end points of the slots after a swap. *)
Lemma swap_target_ends e (te : EdgeRef) edges g edges' g' :
  e < length edges → te.1 < length edges → e ≠ te.1 →
  swap_edge.swap_target e te edges g = (edges', g') →
  source (edges' !!! e) g' = source (edges !!! e) g ∧
  target (edges' !!! e) g' = ref_target te edges g ∧
  ref_source te edges' g' = ref_source te edges g ∧
  ref_target te edges' g' = target (edges !!! e) g ∧
  ∀ j, j ≠ e → j ≠ te.1 → edges' !!! j = edges !!! j.
Proof.
  intros He Hte Hne Hswap. rewrite swap_target_unfold in Hswap by done.
  cbv zeta in Hswap. injection Hswap as <- <-.
  unfold ref_source, ref_target, source, target.
  rewrite list_lookup_total_insert_ne by done.
  rewrite !list_lookup_total_insert_eq by (rewrite ?length_insert; done).
  split_and!; try done.
  - by destruct (te.2).
  - by destruct (te.2).
  - intros j Hj1 Hj2. by rewrite !list_lookup_total_insert_ne.
Qed.

Lemma deg_pair_preserved g g' :
  is_directed g' = is_directed g →
  (∀ v, in_degree v g' = in_degree v g ∧ out_degree v g' = out_degree v g) →
  ∀ v, deg_pair g' v = deg_pair g v.
Proof.
  intros Hd Hdeg v. unfold deg_pair, in_degreeS. rewrite Hd.
  destruct (Hdeg v) as [-> ->]. done.
Qed.

(** When the two targets exchanged by a swap have the same degree pair, both
    ends of every slot keep their degree pairs. *)
Lemma swap_target_deg_pairs e (te : EdgeRef) edges g edges' g' :
  table_ok edges g → e < length edges → EdgeRef_ok edges g te →
  deg_pair g (ref_target te edges g) = deg_pair g (target (edges !!! e) g) →
  swap_edge.swap_target e te edges g = (edges', g') →
  ∀ j, deg_pair g' (source (edges' !!! j) g') = deg_pair g (source (edges !!! j) g) ∧
       deg_pair g' (target (edges' !!! j) g') = deg_pair g (target (edges !!! j) g).
Proof.
  intros Hok He Hte Hdeg Hswap j.
  assert (∀ v, deg_pair g' v = deg_pair g v) as Hpres.
  { apply deg_pair_preserved.
    - change g' with (edges', g').2. rewrite <- Hswap. apply swap_target_is_directed.
    - by eapply swap_target_degrees. }
  rewrite !Hpres.
  destruct (decide (e = te.1)) as [Heq|Hne].
  { unfold swap_edge.swap_target in Hswap.
    rewrite bool_decide_eq_true_2 in Hswap by done. by injection Hswap as <- <-. }
  destruct Hte as [Hte _].
  destruct (swap_target_ends _ _ _ _ _ _ He Hte Hne Hswap) as (Hs & Ht & Hrs & Hrt & Hoth).
  destruct (decide (j = e)) as [->|Hje]; [by rewrite Hs, Ht, Hdeg|].
  destruct (decide (j = te.1)) as [->|Hjt]; [|by rewrite Hoth].
  revert Hrs Hrt Hdeg. unfold ref_source, ref_target. unfold source, target.
  destruct (te.2); intros -> -> ->; done.
Qed.

(** C4, as the code has it. The Correlated strategy reads no block
    abstraction: its buckets are keyed by the (in, out) degree pair. The
    edge reference [get_target_edge(ei)] returns is one of the bucket of the
    degree pair of [target(edges[ei])], and its own target has that degree
    pair; across an accepted move the multiset of the degree pairs of the two
    ends of the edges is unchanged, slot by slot, and the table and the
    buckets stay as the next move needs them. *)
Theorem Correlated_preserves_degree_correlations
    (rs : rewire_state (gmap (nat * nat) (list EdgeRef)))
    (sample ei : nat) (self_loops parallel_edges : bool) :
  table_ok (_edges rs) (_g rs) → ei < length (_edges rs) →
  by_target_ok (_self rs) (_edges rs) (_g rs) →
  CorrelatedRewireStrategy.draws_ok (_self rs) (_edges rs) (_g rs) ei sample →
  let et := CorrelatedRewireStrategy.get_target_edge
              (_self rs) (_edges rs) (_g rs) sample ei in
  (et ∈ bucket (_self rs) (deg_pair (_g rs) (target (_edges rs !!! ei) (_g rs))) ∧
   EdgeRef_ok (_edges rs) (_g rs) et ∧
   deg_pair (_g rs) (ref_target et (_edges rs) (_g rs))
   = deg_pair (_g rs) (target (_edges rs !!! ei) (_g rs))) ∧
  ∀ rs', RewireStrategyBase.call rs sample ei self_loops parallel_edges = (true, rs') →
    block_pairs Build_DegreeBlock (_g rs') ≡ₚ block_pairs Build_DegreeBlock (_g rs) ∧
    (∀ j, deg_pair (_g rs') (source (_edges rs' !!! j) (_g rs'))
          = deg_pair (_g rs) (source (_edges rs !!! j) (_g rs)) ∧
          deg_pair (_g rs') (target (_edges rs' !!! j) (_g rs'))
          = deg_pair (_g rs) (target (_edges rs !!! j) (_g rs))) ∧
    table_ok (_edges rs') (_g rs') ∧
    by_target_ok (_self rs') (_edges rs') (_g rs').
Proof.
  intros Hok Hei Hinv Hdr et.
  destruct (Correlated_EdgeRef_ok _ _ _ _ _ Hinv Hdr) as [Het Hdeg].
  fold et in Het, Hdeg. fold (deg_pair (_g rs)) in Hdeg.
  split.
  { split_and!; [|done..].
    subst et. unfold CorrelatedRewireStrategy.get_target_edge. cbv zeta.
    by apply list_elem_of_lookup_total_2. }
  intros rs' Hcall.
  destruct (@call_accepted_table_ok _ _ CorrelatedRewireStrategy.strategy
              rs rs' sample ei _ _ Hok Hei Het Hcall) as (Hok' & Hlen & Hdir).
  pose proof (@call_accepted_degrees _ _ CorrelatedRewireStrategy.strategy
                rs rs' sample ei _ _ Hok Hei Het Hcall) as Hdegs.
  pose proof (deg_pair_preserved _ _ Hdir Hdegs) as Hpres.
  assert (_self rs' = _self rs) as Hself.
  { unfold RewireStrategyBase.call in Hcall. cbv zeta in Hcall.
    repeat case_match; try done. by injection Hcall as <-. }
  apply call_accepted in Hcall as (Hne & Hswap & _). cbv zeta in Hne, Hswap.
  change (RewireStrategyBase.get_target_edge (_self rs) (_edges rs) (_g rs) sample ei)
    with et in Hne, Hswap.
  pose proof (swap_target_deg_pairs _ _ _ _ _ _ Hok Hei Het Hdeg Hswap) as Hslots.
  split_and!; [|done|done|].
  - unfold block_pairs. destruct Hok as [_ Hp]. destruct Hok' as [_ Hp'].
    rewrite <- Hp, <- Hp'.
    assert (∀ l l' : list edge_t, length l' = length l →
              (∀ j, deg_pair (_g rs') (source (l' !!! j) (_g rs'))
                    = deg_pair (_g rs) (source (l !!! j) (_g rs)) ∧
                    deg_pair (_g rs') (target (l' !!! j) (_g rs'))
                    = deg_pair (_g rs) (target (l !!! j) (_g rs))) →
              (λ e, (get_block Build_DegreeBlock (source e (_g rs')) (_g rs'),
                     get_block Build_DegreeBlock (target e (_g rs')) (_g rs'))) <$> l'
              = (λ e, (get_block Build_DegreeBlock (source e (_g rs)) (_g rs),
                       get_block Build_DegreeBlock (target e (_g rs)) (_g rs))) <$> l)
      as Heq; [|by rewrite (Heq _ _ Hlen Hslots)].
    intros l l' Hl Hj. apply list_eq. intros j. rewrite !list_lookup_fmap.
    destruct (l !! j) as [x|] eqn:Hx.
    + assert (is_Some (l' !! j)) as [x' Hx'].
      { apply lookup_lt_is_Some. rewrite Hl. by eapply lookup_lt_Some. }
      rewrite Hx'. simpl. f_equal. destruct (Hj j) as [H1 H2].
      rewrite (list_lookup_total_correct _ _ _ Hx) in H1, H2.
      rewrite (list_lookup_total_correct _ _ _ Hx') in H1, H2.
      unfold get_block, DegreeBlock_get_block. unfold deg_pair in H1, H2.
      by rewrite H1, H2.
    + assert (l' !! j = None) as ->; [|done].
      apply lookup_ge_None. rewrite Hl. by apply lookup_ge_None.
  - rewrite Hself. intros tdeg et' Hin.
    destruct (Hinv tdeg et' Hin) as [[Hr Hf] Ht]. split.
    + split; [by rewrite Hlen|by rewrite Hdir].
    + fold (deg_pair (_g rs)) in Ht. fold (deg_pair (_g rs')).
      rewrite <- Ht. revert Hslots. unfold ref_target.
      intros Hslots. destruct (Hslots (et'.1)) as [H1 H2].
      by destruct (et'.2).
Qed.

(** C4, as stated, fails under a property-map block abstraction: on the
    directed graph 0 -> 1, 2 -> 3 with the property [v >= 2], the two targets
    have the same degree pair and different blocks; the Correlated proposal
    for slot 0 draws slot 1, whose target has another block, the move is
    accepted, and the block pairs (false, false), (true, true) become
    (false, true), (true, false). *)
Lemma Correlated_ignores_block_abstraction :
  let pb := Build_PropertyBlock (λ v, bool_decide (2 ≤ v)) in
  let g := mk_graph true 4 [mk_edge 0 1 0; mk_edge 2 3 1] 2 in
  let rs := mk_state g (edge_list g)
              (CorrelatedRewireStrategy.construct (edge_list g) g) in
  let et := CorrelatedRewireStrategy.get_target_edge (_self rs) (_edges rs) g 1 0 in
  let res := RewireStrategyBase.call rs 1 0 false false in
  CorrelatedRewireStrategy.draws_ok (_self rs) (_edges rs) g 0 1 ∧
  get_block pb (ref_target et (_edges rs) g) g
    ≠ get_block pb (target (_edges rs !!! 0) g) g ∧
  res.1 = true ∧
  ¬ (block_pairs pb (_g res.2) ≡ₚ block_pairs pb g).
Proof.
  intros pb g rs et res. split_and!.
  - unfold CorrelatedRewireStrategy.draws_ok. vm_compute. lia.
  - compute_done.
  - compute_done.
  - compute_done.
Qed.

(** The same proposal, read with degree pairs. *)
Lemma Correlated_preserves_degree_correlations_witness :
  let g := mk_graph true 4 [mk_edge 0 1 0; mk_edge 2 3 1] 2 in
  let rs := mk_state g (edge_list g)
              (CorrelatedRewireStrategy.construct (edge_list g) g) in
  let rs' := (RewireStrategyBase.call rs 1 0 false false).2 in
  block_pairs Build_DegreeBlock (_g rs') ≡ₚ block_pairs Build_DegreeBlock (_g rs).
Proof.
  intros g rs rs'.
  refine (proj1 (proj2 (Correlated_preserves_degree_correlations
                          rs 1 0 false false _ _ _ _) rs' _)).
  - compute_done.
  - simpl. lia.
  - apply Correlated_construct_ok.
  - unfold CorrelatedRewireStrategy.draws_ok. vm_compute. lia.
  - reflexivity.
Defined.

(** ** Sanitized probabilities *)

Lemma foldl_ext {A B} (f g : A → B → A) (a : A) (l : list B) :
  (∀ a b, f a b = g a b) → foldl f a l = foldl g a l.
Proof.
  intros Hfg. revert a. induction l as [|b l IH]; intros a; [done|].
  simpl. by rewrite Hfg, IH.
Qed.

Section sanitization.
Context {D : Type} `{!DoubleOps D}.

Lemma spec_coerce_invalid_eq (p : D) :
  (if d_isnan p || d_isinf p || d_lt p d_zero then d_zero else p)
  = spec_coerce_invalid p.
Proof.
  unfold spec_coerce_invalid.
  by destruct (d_isnan p), (d_isinf p), (d_lt p d_zero).
Qed.

Context {BD deg_t : Type} `{Countable deg_t} `{!BlockDeg BD deg_t}.

Lemma cache_prob_eq (corr_prob : deg_t → deg_t → D) s t probs :
  ProbabilisticRewireStrategy.cache_prob corr_prob s t probs
  = <[(s, t) := spec_sanitized (corr_prob s t)]> probs.
Proof.
  unfold ProbabilisticRewireStrategy.cache_prob, spec_sanitized. cbv zeta.
  by rewrite spec_coerce_invalid_eq.
Qed.

(** The entries written by a double loop over [ss] and [ts]. *)
Lemma lookup_foldl_insert2 {V} (f : deg_t → deg_t → V) (ss ts : list deg_t)
    (m0 : gmap (deg_t * deg_t) V) s t :
  foldl (λ m s, foldl (λ m t, <[(s, t) := f s t]> m) m ts) m0 ss !! (s, t)
  = if decide (s ∈ ss ∧ t ∈ ts) then Some (f s t) else m0 !! (s, t).
Proof.
  assert (∀ s' ts' (m : gmap (deg_t * deg_t) V),
            foldl (λ m t, <[(s', t) := f s' t]> m) m ts' !! (s, t)
            = if decide (s' = s ∧ t ∈ ts') then Some (f s t) else m !! (s, t)) as Hin.
  { intros s' ts'. induction ts' as [|t' ts' IH] using rev_ind; intros m.
    - rewrite decide_False; [done|]. by intros [_ ?%elem_of_nil].
    - rewrite foldl_app. simpl. destruct (decide ((s', t') = (s, t))) as [[= -> ->]|Hne].
      + rewrite lookup_insert_eq. rewrite decide_True; [done|].
        split; [done|]. apply elem_of_app. right. by apply list_elem_of_singleton.
      + rewrite lookup_insert_ne by done. rewrite IH.
        destruct (decide (s' = s ∧ t ∈ ts')) as [[-> Ht]|Hn].
        * rewrite decide_True; [done|]. split; [done|]. apply elem_of_app. by left.
        * rewrite decide_False; [done|]. intros [-> Ht]. apply Hn. split; [done|].
          apply elem_of_app in Ht as [Ht|Ht%list_elem_of_singleton]; [done|].
          by subst. }
  revert m0. induction ss as [|s' ss IH] using rev_ind; intros m0.
  - rewrite decide_False; [done|]. by intros [?%elem_of_nil _].
  - rewrite foldl_app. simpl. rewrite Hin, IH.
    destruct (decide (s' = s ∧ t ∈ ts)) as [[-> Ht]|Hn].
    + rewrite decide_True; [done|]. split; [|done]. apply elem_of_app. right.
      by apply list_elem_of_singleton.
    + destruct (decide (s ∈ ss ∧ t ∈ ts)) as [[Hs Ht]|Hn'].
      * rewrite decide_True; [done|]. split; [|done]. apply elem_of_app. by left.
      * rewrite decide_False; [done|]. intros [Hs Ht]. apply Hn'. split; [|done].
        apply elem_of_app in Hs as [Hs|Hs%list_elem_of_singleton]; [done|].
        exfalso. apply Hn. by subst.
Qed.

(** [get_prob] of the Probabilistic strategy, with or without the cache, on
    the blocks of the end points of the edges it was constructed on. *)
Lemma Probabilistic_get_prob_constructed edges g
    (corr_prob : deg_t → deg_t → D) (blockdeg : BD) cache s t :
  s ∈ ProbabilisticRewireStrategy.deg_set blockdeg edges g →
  t ∈ ProbabilisticRewireStrategy.deg_set blockdeg edges g →
  ProbabilisticRewireStrategy.get_prob
    (ProbabilisticRewireStrategy.construct edges g corr_prob blockdeg cache) s t
  = spec_sanitized (corr_prob s t).
Proof.
  intros Hs Ht. unfold ProbabilisticRewireStrategy.get_prob,
    ProbabilisticRewireStrategy.construct. cbv zeta.
  destruct cache; simpl.
  - set (ds := elements _).
    assert (foldl (λ probs s_deg,
                     foldl (λ probs t_deg,
                              ProbabilisticRewireStrategy.cache_prob corr_prob s_deg t_deg probs)
                           probs ds) ∅ ds !! (s, t)
            = Some (spec_sanitized (corr_prob s t))) as Hl.
    { rewrite (foldl_ext _ (λ m s, foldl (λ m t, <[(s, t) := spec_sanitized (corr_prob s t)]> m) m ds)).
      - rewrite lookup_foldl_insert2. rewrite decide_True; [done|].
        subst ds. by rewrite !elem_of_elements.
      - intros m s'. apply foldl_ext. intros m' t'. apply cache_prob_eq. }
    rewrite bool_decide_eq_false_2.
    + by rewrite Hl.
    + intros Hsz. apply map_size_empty_iff in Hsz. rewrite Hsz in Hl.
      by rewrite lookup_empty in Hl.
  - rewrite map_size_empty. rewrite bool_decide_eq_true_2 by done.
    unfold spec_sanitized. by rewrite spec_coerce_invalid_eq.
Qed.

(** Without the cache [get_prob] sanitizes on demand, whatever the blocks. *)
Lemma Probabilistic_get_prob_on_demand
    (self : ProbabilisticRewireStrategy.t D BD deg_t) s t :
  ProbabilisticRewireStrategy._probs self = ∅ →
  ProbabilisticRewireStrategy.get_prob self s t
  = spec_sanitized (ProbabilisticRewireStrategy._corr_prob self s t).
Proof.
  intros He. unfold ProbabilisticRewireStrategy.get_prob. rewrite He, map_size_empty.
  rewrite bool_decide_eq_true_2 by done. cbv zeta.
  unfold spec_sanitized. by rewrite spec_coerce_invalid_eq.
Qed.

End sanitization.

Lemma foldl_invariant {A B} (P : A → Prop) (f : A → B → A) (a : A) (l : list B) :
  (∀ a b, P a → P (f a b)) → P a → P (foldl f a l).
Proof.
  intros Hf. revert a. induction l as [|b l IH]; intros a Ha; [done|].
  simpl. by apply IH, Hf.
Qed.

Section sanitization_alias.
Context {D : Type} `{!DoubleOps D}.
Context {BD deg_t : Type} `{Countable deg_t} `{!Inhabited deg_t} `{!BlockDeg BD deg_t}.

(** The weights and the entries of [_probs] that one round of the
    constructor's outer loop computes. *)
Lemma Alias_row_eq (corr_prob : deg_t → deg_t → D) s ds probs0 :
  AliasProbabilisticRewireStrategy.row corr_prob s ds probs0
  = ((λ t, spec_sanitized (corr_prob s t)) <$> ds,
     foldl (λ m t, <[(s, t) := spec_sanitized (corr_prob s t)]> m) probs0 ds).
Proof.
  unfold AliasProbabilisticRewireStrategy.row.
  assert (∀ (l0 : list D) (m0 : gmap (deg_t * deg_t) D),
    foldl (λ '(probs, _probs) t_deg,
             let p := corr_prob s t_deg in
             let p := if d_isnan p || d_isinf p || d_lt p d_zero then d_zero else p in
             let p := if d_eq p d_zero then d_min else p in
             (probs ++ [p], <[(s, t_deg) := p]> _probs)) (l0, m0) ds
    = (l0 ++ ((λ t, spec_sanitized (corr_prob s t)) <$> ds),
       foldl (λ m t, <[(s, t) := spec_sanitized (corr_prob s t)]> m) m0 ds)) as Hg;
    [|by rewrite Hg].
  induction ds as [|t ds IH]; intros l0 m0; simpl.
  - by rewrite app_nil_r.
  - rewrite spec_coerce_invalid_eq. fold (spec_sanitized (corr_prob s t)).
    rewrite IH. by rewrite <- app_assoc.
Qed.

Lemma Alias_construct_probs edges g (corr_prob : deg_t → deg_t → D) (blockdeg : BD) :
  let ds := elements (ProbabilisticRewireStrategy.deg_set blockdeg edges g) in
  AliasProbabilisticRewireStrategy._probs
    (AliasProbabilisticRewireStrategy.construct edges g corr_prob blockdeg)
  = foldl (λ m s, foldl (λ m t, <[(s, t) := spec_sanitized (corr_prob s t)]> m) m ds) ∅ ds
  ∧ AliasProbabilisticRewireStrategy._sampler
      (AliasProbabilisticRewireStrategy.construct edges g corr_prob blockdeg)
    = foldl (λ smp s, <[s := Build_Sampler ds (list_fmap _ _ (λ t, spec_sanitized (corr_prob s t)) ds)]> smp)
            ∅ ds
  ∧ AliasProbabilisticRewireStrategy._items
      (AliasProbabilisticRewireStrategy.construct edges g corr_prob blockdeg) = ds.
Proof.
  intros ds. unfold AliasProbabilisticRewireStrategy.construct. cbv zeta. fold ds.
  assert (∀ (ss : list deg_t) (smp0 : gmap deg_t (Sampler deg_t D))
            (m0 : gmap (deg_t * deg_t) D),
    foldl (λ '(sampler, _probs) s_deg,
             let '(probs, _probs) :=
               AliasProbabilisticRewireStrategy.row corr_prob s_deg ds _probs in
             (<[s_deg := Build_Sampler ds probs]> sampler, _probs)) (smp0, m0) ss
    = (foldl (λ smp s, <[s := Build_Sampler ds (list_fmap _ _ (λ t, spec_sanitized (corr_prob s t)) ds)]> smp)
             smp0 ss,
       foldl (λ m s, foldl (λ m t, <[(s, t) := spec_sanitized (corr_prob s t)]> m) m ds) m0 ss))
    as Hg.
  { induction ss as [|s ss IH]; intros smp0 m0; [done|].
    simpl. rewrite Alias_row_eq. apply IH. }
  rewrite Hg.
  destruct (foldl (AliasProbabilisticRewireStrategy.index_edge blockdeg edges g) _ _)
    as [[[in_edges out_edges] in_pos] out_pos].
  done.
Qed.

Lemma Alias_get_prob_constructed edges g
    (corr_prob : deg_t → deg_t → D) (blockdeg : BD) s t :
  s ∈ ProbabilisticRewireStrategy.deg_set blockdeg edges g →
  t ∈ ProbabilisticRewireStrategy.deg_set blockdeg edges g →
  AliasProbabilisticRewireStrategy.get_prob
    (AliasProbabilisticRewireStrategy.construct edges g corr_prob blockdeg) s t
  = spec_sanitized (corr_prob s t).
Proof.
  intros Hs Ht. unfold AliasProbabilisticRewireStrategy.get_prob.
  destruct (Alias_construct_probs edges g corr_prob blockdeg) as (-> & _).
  rewrite lookup_foldl_insert2. rewrite decide_True; [done|].
  by rewrite !elem_of_elements.
Qed.

Lemma lookup_foldl_insert1 {V} (f : deg_t → V) (ss : list deg_t) (m0 : gmap deg_t V) s :
  foldl (λ m s, <[s := f s]> m) m0 ss !! s
  = if decide (s ∈ ss) then Some (f s) else m0 !! s.
Proof.
  revert m0. induction ss as [|s' ss IH] using rev_ind; intros m0.
  - rewrite decide_False; [done|]. by intros ?%elem_of_nil.
  - rewrite foldl_app. simpl. destruct (decide (s' = s)) as [->|Hne].
    + rewrite lookup_insert_eq, decide_True; [done|].
      apply elem_of_app. right. by apply list_elem_of_singleton.
    + rewrite lookup_insert_ne, IH by done.
      destruct (decide (s ∈ ss)) as [Hs|Hs].
      * rewrite decide_True; [done|]. apply elem_of_app. by left.
      * rewrite decide_False; [done|].
        intros [?|?%list_elem_of_singleton]%elem_of_app; congruence.
Qed.

(** The sampler of a source block draws among all the blocks, with the
    sanitized probabilities as weights. *)
Lemma Alias_sampler_constructed edges g
    (corr_prob : deg_t → deg_t → D) (blockdeg : BD) s :
  s ∈ ProbabilisticRewireStrategy.deg_set blockdeg edges g →
  let ds := elements (ProbabilisticRewireStrategy.deg_set blockdeg edges g) in
  AliasProbabilisticRewireStrategy._sampler
    (AliasProbabilisticRewireStrategy.construct edges g corr_prob blockdeg) !! s
  = Some (Build_Sampler ds (list_fmap _ _ (λ t, spec_sanitized (corr_prob s t)) ds)).
Proof.
  intros Hs ds.
  destruct (Alias_construct_probs edges g corr_prob blockdeg) as (_ & -> & _).
  rewrite (lookup_foldl_insert1
             (λ s, Build_Sampler ds (list_fmap _ _ (λ t, spec_sanitized (corr_prob s t)) ds))).
  rewrite decide_True; [done|]. by rewrite elem_of_elements.
Qed.

(** The weights of the traditional block model's sampler: only the first
    step of the sanitization is applied. *)
Lemma TradBlock_weights (corr_prob : deg_t → deg_t → D) keys :
  (TradBlockRewireStrategy.weights corr_prob keys).2
  = (λ st, spec_coerce_invalid (corr_prob st.1 st.2))
      <$> (TradBlockRewireStrategy.weights corr_prob keys).1.
Proof.
  unfold TradBlockRewireStrategy.weights.
  apply (foldl_invariant
           (λ acc : list (deg_t * deg_t) * list D,
              acc.2 = (λ st, spec_coerce_invalid (corr_prob st.1 st.2)) <$> acc.1));
    [|done].
  intros acc s Hacc. apply foldl_invariant; [|done].
  intros [items probs] t. simpl. intros ->.
  by rewrite fmap_app, spec_coerce_invalid_eq.
Qed.

Lemma TradBlock_construct_weights edges g
    (corr_prob : deg_t → deg_t → D) (blockdeg : BD) :
  let self := _self (TradBlockRewireStrategy.construct edges g corr_prob blockdeg) in
  s_items (TradBlockRewireStrategy._sampler self) = TradBlockRewireStrategy._items self ∧
  s_probs (TradBlockRewireStrategy._sampler self)
  = (λ st, spec_coerce_invalid (corr_prob st.1 st.2))
      <$> TradBlockRewireStrategy._items self.
Proof.
  unfold TradBlockRewireStrategy.construct. cbv zeta.
  set (keys := (map_to_list _).*1).
  pose proof (TradBlock_weights corr_prob keys) as Hw.
  destruct (TradBlockRewireStrategy.weights corr_prob keys) as [items probs].
  simpl in *. done.
Qed.

End sanitization_alias.

(** The two steps on binary64 numbers. *)
Lemma binary64_sanitized (fexp flog : float → float) (p : float) :
  let ops := binary64 fexp flog in
  @spec_coerce_invalid float ops p
    = (if PrimFloat.is_nan p || PrimFloat.is_infinity p || PrimFloat.ltb p 0
       then 0%float else p) ∧
  @spec_sanitized float ops p
    = (if PrimFloat.is_nan p || PrimFloat.is_infinity p || PrimFloat.ltb p 0
       then DBL_MIN
       else if PrimFloat.eqb p 0 then DBL_MIN else p) ∧
  PrimFloat.eqb (@spec_sanitized float ops p) 0 = false.
Proof.
  intros ops. unfold spec_sanitized. rewrite <- !spec_coerce_invalid_eq. simpl.
  destruct (PrimFloat.is_nan p || PrimFloat.is_infinity p || PrimFloat.ltb p 0);
    [done|].
  by destruct (PrimFloat.eqb p 0) eqn:Hp.
Qed.

(** ** The Metropolis-Hastings acceptance *)







(** ** The buckets of the Alias strategy *)

Lemma filed_empty {K} `{Countable K} (key : nat → K) pos : filed key 0 ∅ pos.
Proof.
  split.
  - intros b i. rewrite bucket_empty. split; [by intros ?%elem_of_nil|lia].
  - lia.
Qed.

(** Filing one more slot, as the constructor and the insert hook do. *)
Lemma filed_push_back {K} `{Countable K} (key : nat → K) n m pos :
  filed key n m pos → n < length pos →
  filed key (S n) (push_back (key n) n m)
        (<[n := length (bucket (push_back (key n) n m) (key n)) - 1]> pos).
Proof.
  intros [Hmem Hpos] Hn. split.
  - intros b i. rewrite elem_of_bucket_push_back, Hmem. split.
    + intros [[Hi Hk]|[Hk ->]]; split; (lia || done).
    + intros [Hi Hk]. destruct (decide (i = n)) as [->|Hne]; [by right|].
      left. split; [lia|done].
  - intros i Hi. rewrite !bucket_push_back. rewrite decide_True by done.
    rewrite length_app. simpl.
    destruct (decide (i = n)) as [->|Hne].
    + rewrite decide_True by done. rewrite list_lookup_total_insert_eq by done.
      replace (length (bucket m (key n)) + 1 - 1) with (length (bucket m (key n))) by lia.
      by rewrite list_lookup_middle.
    + rewrite list_lookup_total_insert_ne by done.
      assert (i < n) as Hlt by lia. specialize (Hpos i Hlt).
      destruct (decide (key n = key i)) as [Heq|Hneq].
      * rewrite Heq in *. by apply lookup_app_l_Some.
      * done.
Qed.

Section alias_buckets.
Context {D : Type} `{!DoubleOps D}.
Context {BD deg_t : Type} `{Countable deg_t} `{!Inhabited deg_t} `{!BlockDeg BD deg_t}.

(** The constructor files every slot: the structure agrees with the edges
    it is built on. *)
Lemma Alias_construct_buckets_agree edges g
    (corr_prob : deg_t → deg_t → D) (blockdeg : BD) :
  buckets_agree (AliasProbabilisticRewireStrategy.construct edges g corr_prob blockdeg)
                edges g.
Proof.
  unfold buckets_agree, AliasProbabilisticRewireStrategy.construct. cbv zeta.
  destruct (foldl (λ '(sampler, _probs) s_deg, _) _ _) as [sampler probs].
  set (kin := λ i, get_block blockdeg (target (edges !!! i) g) g).
  set (kout := λ i, get_block blockdeg (source (edges !!! i) g) g).
  assert (∀ n, n ≤ length edges →
    let '(ie, oe, ip, op) :=
      foldl (AliasProbabilisticRewireStrategy.index_edge blockdeg edges g)
        (∅, ∅, replicate (length edges) 0,
         if negb (is_directed g) then replicate (length edges) 0 else [])
        (seq 0 n) in
    length ip = length edges ∧ filed kin n ie ip ∧
    (is_directed g = false → length op = length edges ∧ filed kout n oe op)) as Hn.
  { induction n as [|n IH]; intros Hle.
    - simpl. rewrite length_replicate. split_and!; [done|apply filed_empty|].
      intros ->. simpl. rewrite length_replicate. split; [done|apply filed_empty].
    - rewrite seq_S, foldl_app. simpl. specialize (IH ltac:(lia)).
      destruct (foldl _ _ (seq 0 n)) as [[[ie oe] ip] op].
      destruct IH as (Hlen & Hin & Hout).
      unfold AliasProbabilisticRewireStrategy.index_edge. cbv zeta.
      fold (kin n). fold (kout n).
      destruct (is_directed g) eqn:Hdir; simpl.
      + split_and!; [by rewrite length_insert| |done].
        apply filed_push_back; [done|lia].
      + destruct (Hout eq_refl) as [Hlen' Hout'].
        split_and!; [by rewrite length_insert| |].
        * apply filed_push_back; [done|lia].
        * intros _. split; [by rewrite length_insert|].
          apply filed_push_back; [done|lia]. }
  specialize (Hn (length edges) ltac:(lia)).
  destruct (foldl _ _ (seq 0 (length edges))) as [[[ie oe] ip] op].
  destruct Hn as (Hlen & Hin & Hout). simpl. split; [done|].
  intros Hd. by apply Hout.
Qed.

End alias_buckets.

(** C2 fails on the code. On the graph 0 -> 1, 2 -> 3 with the blocks
    {0, 1} and {2, 3}, the structure agrees with the edges after the
    constructor; the proposal for slot 0 draws slot 1 and is accepted.
    Directed: [update_edge(., false)] does nothing and [update_edge(., true)]
    appends, so [_in_edges] of the block of vertex 1 is [0; 1] although slot
    0 now arrives at vertex 3. Undirected (the candidate is slot 1 flipped):
    nothing is ever removed from [_out_edges], which still files slot 1
    under the block of vertex 2 although it now leaves vertex 1. *)
Theorem Alias_buckets_diverge :
  let ops := binary64 (λ x, x) (λ x, x) in
  let pb := Build_PropertyBlock (λ v, bool_decide (2 ≤ v)) in
  let start := λ directed,
    let g := mk_graph directed 4 [mk_edge 0 1 0; mk_edge 2 3 1] 2 in
    mk_state g (edge_list g)
      (@AliasProbabilisticRewireStrategy.construct float ops (PropertyBlock bool) bool
         _ _ _ (edge_list g) g (λ _ _, 1%float) pb) in
  let dr := AliasProbabilisticRewireStrategy.mk_draws 1 false 0 0%float in
  let move := λ directed,
    @RewireStrategyBase.call _ _
      (@AliasProbabilisticRewireStrategy.strategy float ops _ _ _ _ _ _)
      (start directed) dr 0 false false in
  (∀ directed,
     buckets_agree (_self (start directed)) (_edges (start directed)) (_g (start directed)) ∧
     AliasProbabilisticRewireStrategy.draws_ok (_self (start directed))
       (_edges (start directed)) (_g (start directed)) 0 dr ∧
     (move directed).1 = true) ∧
  (bucket (AliasProbabilisticRewireStrategy._in_edges (_self (move true).2)) false = [0; 1] ∧
   target (_edges (move true).2 !!! 0) (_g (move true).2) = 3 ∧
   ¬ buckets_agree (_self (move true).2) (_edges (move true).2) (_g (move true).2)) ∧
  (bucket (AliasProbabilisticRewireStrategy._out_edges (_self (move false).2)) true = [1] ∧
   source (_edges (move false).2 !!! 1) (_g (move false).2) = 1 ∧
   ¬ buckets_agree (_self (move false).2) (_edges (move false).2) (_g (move false).2)).
Proof.
  intros ops pb start dr move. split_and!.
  - intros directed. split_and!.
    + apply Alias_construct_buckets_agree.
    + destruct directed; vm_compute; split; lia.
    + by destruct directed; vm_compute.
  - by vm_compute.
  - by vm_compute.
  - intros [[Hmem _] _]. specialize (Hmem false 0).
    assert (0 ∈ bucket (AliasProbabilisticRewireStrategy._in_edges (_self (move true).2)) false)
      as Hin by (vm_compute; apply list_elem_of_here).
    apply Hmem in Hin as [_ Hblock]. vm_compute in Hblock. done.
  - by vm_compute.
  - by vm_compute.
  - intros [_ Hout]. destruct (Hout eq_refl) as [Hmem _]. specialize (Hmem true 1).
    assert (1 ∈ bucket (AliasProbabilisticRewireStrategy._out_edges (_self (move false).2)) true)
      as Hin by (vm_compute; apply list_elem_of_here).
    apply Hmem in Hin as [_ Hblock]. vm_compute in Hblock. done.
Qed.

(** ** The main loop *)

Lemma length_iter_swap l i j : length (graph_rewire.iter_swap l i j) = length l.
Proof. unfold graph_rewire.iter_swap. by rewrite !length_insert. Qed.

Lemma insert_head_perm (l : list nat) j x :
  j < length l → (l !!! j) :: <[j := x]> l ≡ₚ x :: l.
Proof.
  revert j. induction l as [|y l IH]; intros j Hj; simpl in *; [lia|].
  destruct j as [|j]; simpl.
  - apply Permutation_swap.
  - rewrite Permutation_swap. rewrite (IH j) by lia. apply Permutation_swap.
Qed.

Lemma iter_swap_perm l i j :
  i < length l → j < length l → graph_rewire.iter_swap l i j ≡ₚ l.
Proof.
  unfold graph_rewire.iter_swap.
  revert i j. induction l as [|x l IH]; intros i j Hi Hj; simpl in *; [lia|].
  destruct i as [|i], j as [|j]; simpl.
  - done.
  - apply insert_head_perm. lia.
  - apply insert_head_perm. lia.
  - f_equiv. apply IH; lia.
Qed.

Lemma iter_swap_lookup l i j :
  i < length l → j < length l → graph_rewire.iter_swap l i j !!! i = l !!! j.
Proof.
  intros Hi Hj. unfold graph_rewire.iter_swap.
  destruct (decide (i = j)) as [->|Hne].
  - rewrite list_lookup_total_insert_eq; [done|by rewrite length_insert].
  - rewrite list_lookup_total_insert_ne by done.
    by rewrite list_lookup_total_insert_eq.
Qed.

Lemma iter_swap_take l i j :
  i ≤ j → take i (graph_rewire.iter_swap l i j) = take i l.
Proof.
  intros Hij. unfold graph_rewire.iter_swap. by rewrite !take_insert_ge by lia.
Qed.

Lemma length_concat_const (sweeps : list (list nat)) c :
  Forall (λ s, length s = c) sweeps → length (concat sweeps) = length sweeps * c.
Proof.
  induction 1 as [|s sweeps Hs _ IH]; [done|].
  simpl. rewrite length_app, IH, Hs. lia.
Qed.

Section main_loop_facts.
Context {RW Dr : Type}.
Context (rewire_call : RW → Dr → nat → bool → bool → option (bool * RW)).
Context (self_loops parallel_edges persist no_sweep : bool).

Local Abbreviation do_while :=
  (graph_rewire.do_while rewire_call self_loops parallel_edges persist).
Local Abbreviation sweep :=
  (graph_rewire.sweep rewire_call self_loops parallel_edges persist no_sweep).
Local Abbreviation iterate :=
  (graph_rewire.iterate rewire_call self_loops parallel_edges persist no_sweep).

(** Without persistence the [do ... while] loop is one call. *)
Lemma do_while_once fuel draws k rw ei :
  persist = false →
  do_while fuel draws k rw ei = rewire_call rw (draws k) ei self_loops parallel_edges.
Proof.
  intros Hp. destruct fuel; simpl; rewrite Hp; simpl;
    by destruct (rewire_call _ _ _ _ _) as [[[] ?]|].
Qed.

(** One run of the inner loop from position [pos]: it logs the slots it
    visits; [edge_pos] is permuted; in a full sweep the slots visited are
    the entries of [edge_pos] from [pos] on, as the loop leaves them. *)
Lemma sweep_visits fuel o i n pos st st' :
  sweep fuel o i n pos st = Some st' →
  pos + n = length (graph_rewire.edge_pos st) →
  perm_draws_ok o (length (graph_rewire.edge_pos st)) →
  ∃ vs, graph_rewire.visited st' = graph_rewire.visited st ++ vs ∧
        graph_rewire.edge_pos st' ≡ₚ graph_rewire.edge_pos st ∧
        take pos (graph_rewire.edge_pos st') = take pos (graph_rewire.edge_pos st) ∧
        (no_sweep = false → vs = drop pos (graph_rewire.edge_pos st')) ∧
        (no_sweep = true → length vs = n `min` 1 ∧
                           Forall (λ v, v ∈ graph_rewire.edge_pos st) vs) ∧
        graph_rewire.pcount st ≤ graph_rewire.pcount st'
          ≤ graph_rewire.pcount st + length vs.
Proof.
  revert pos st. induction n as [|n IH]; intros pos st Hsweep Hlen Hdraws.
  { simpl in Hsweep. injection Hsweep as <-. exists []. rewrite app_nil_r.
    split_and!; try done; try lia.
    intros _. rewrite drop_ge; [done|lia]. }
  simpl in Hsweep.
  set (ep1 := graph_rewire.iter_swap _ _ _) in Hsweep.
  destruct (do_while _ _ _ _ _) as [[success rw]|]; [|done].
  assert (pos < length (graph_rewire.edge_pos st)) as Hpos by lia.
  pose proof (Hdraws i pos Hpos) as Hj.
  assert (ep1 ≡ₚ graph_rewire.edge_pos st) as Hperm1 by (by apply iter_swap_perm).
  assert (length ep1 = length (graph_rewire.edge_pos st)) as Hlen1
    by apply length_iter_swap.
  assert (take pos ep1 = take pos (graph_rewire.edge_pos st)) as Htake1
    by (apply iter_swap_take; lia).
  assert (ep1 !! pos = Some (ep1 !!! pos)) as Hlk1.
  { apply list_lookup_lookup_total_lt. lia. }
  destruct no_sweep eqn:Hns.
  - injection Hsweep as <-. simpl. exists [ep1 !!! pos].
    split_and!; try done.
    + intros _. split; [simpl; lia|]. apply Forall_singleton.
      rewrite <- Hperm1. by eapply list_elem_of_lookup_2.
    + destruct success; simpl; lia.
    + destruct success; simpl; lia.
  - apply IH in Hsweep as (vs & Hvis & Hperm & Htake & Hvs & _ & Hpc);
      simpl in *; [|lia|by rewrite Hlen1].
    exists (ep1 !!! pos :: vs). specialize (Hvs eq_refl).
    assert (graph_rewire.edge_pos st' !! pos = Some (ep1 !!! pos)) as Hlk.
    { rewrite <- (lookup_take_lt _ (S pos)) by lia. rewrite Htake.
      by rewrite lookup_take_lt by lia. }
    split_and!.
    + by rewrite Hvis, <- app_assoc.
    + by rewrite Hperm.
    + rewrite <- Htake1.
      replace pos with (pos `min` S pos) at 1 2 by lia.
      by rewrite <- !take_take, Htake.
    + intros _. rewrite Hvs. symmetry. by apply drop_S.
    + done.
    + destruct success; simpl in *; lia.
    + destruct success; simpl in *; lia.
Qed.

(** The outer loop: one list of visits per iteration. *)
Lemma iterate_visits fuel o n i st st' m :
  iterate fuel o n i st = Some st' →
  graph_rewire.edge_pos st ≡ₚ seq 0 m → perm_draws_ok o m →
  graph_rewire.edge_pos st' ≡ₚ seq 0 m ∧
  ∃ sweeps, graph_rewire.visited st' = graph_rewire.visited st ++ concat sweeps ∧
    length sweeps = n ∧
    (no_sweep = false → Forall (λ s, s ≡ₚ seq 0 m) sweeps) ∧
    (no_sweep = true →
       Forall (λ s, length s = m `min` 1 ∧ Forall (λ v, v < m) s) sweeps) ∧
    graph_rewire.pcount st ≤ graph_rewire.pcount st'
      ≤ graph_rewire.pcount st + length (concat sweeps).
Proof.
  revert i st. induction n as [|n IH]; intros i st Hit Hperm Hdraws.
  { simpl in Hit. injection Hit as <-. split; [done|]. exists [].
    simpl. rewrite app_nil_r. split_and!; try done; lia. }
  simpl in Hit.
  destruct (sweep _ _ _ _ _ _) as [st1|] eqn:Hsweep; [|done].
  assert (length (graph_rewire.edge_pos st) = m) as Hlen.
  { by rewrite Hperm, length_seq. }
  apply sweep_visits in Hsweep as (vs & Hvis & Hperm1 & _ & Hfull & Hone & Hpc);
    [|done|by rewrite Hlen].
  apply IH in Hit as (Hperm' & sweeps & Hvis' & Hlen' & Hfull' & Hone' & Hpc');
    [|by rewrite Hperm1|done].
  split; [done|]. exists (vs :: sweeps). simpl. split_and!.
  - by rewrite Hvis', Hvis, <- app_assoc.
  - by rewrite Hlen'.
  - intros Hns. apply Forall_cons. split; [|by apply Hfull'].
    rewrite (Hfull Hns). simpl. by rewrite Hperm1.
  - intros Hns. apply Forall_cons. split; [|by apply Hone'].
    destruct (Hone Hns) as [Hl Hin]. rewrite Hlen in Hl. split; [done|].
    eapply Forall_impl; [exact Hin|]. intros v Hv. simpl in Hv.
    rewrite Hperm in Hv. apply elem_of_seq in Hv. lia.
  - lia.
  - rewrite length_app. lia.
Qed.

Lemma iterate_visits_length fuel o n i st st' m :
  iterate fuel o n i st = Some st' →
  graph_rewire.edge_pos st ≡ₚ seq 0 m → perm_draws_ok o m →
  length (graph_rewire.visited st')
  = length (graph_rewire.visited st) + n * (if no_sweep then m `min` 1 else m).
Proof.
  intros Hit Hperm Hdraws.
  apply (iterate_visits _ _ _ _ _ _ m) in Hit
    as (_ & sweeps & -> & <- & Hfull & Hone & _); [|done..].
  rewrite length_app. f_equal. apply length_concat_const.
  destruct no_sweep.
  - eapply Forall_impl; [exact (Hone eq_refl)|]. by intros s [? _].
  - eapply Forall_impl; [exact (Hfull eq_refl)|]. intros s Hs. simpl in Hs.
    by rewrite Hs, length_seq.
Qed.

(** Without persistence, and with a strategy whose call returns, the loops
    return. *)
Lemma sweep_total fuel o i n pos st :
  persist = false →
  (∀ rw dr ei, is_Some (rewire_call rw dr ei self_loops parallel_edges)) →
  is_Some (sweep fuel o i n pos st).
Proof.
  intros Hp Htot. revert pos st. induction n as [|n IH]; intros pos st; [done|].
  simpl. rewrite do_while_once by done.
  destruct (Htot (graph_rewire.rewire st) (graph_rewire.rewire_draws o i pos 0)
              (graph_rewire.iter_swap (graph_rewire.edge_pos st) pos
                 (pos + graph_rewire.perm_draw o i pos) !!! pos)) as [[success rw] ->].
  destruct no_sweep; [done|apply IH].
Qed.

Lemma iterate_total fuel o n i st :
  persist = false →
  (∀ rw dr ei, is_Some (rewire_call rw dr ei self_loops parallel_edges)) →
  is_Some (iterate fuel o n i st).
Proof.
  intros Hp Htot. revert i st. induction n as [|n IH]; intros i st; [done|].
  simpl. destruct (sweep_total fuel o i (length (graph_rewire.edge_pos st)) 0 st Hp Htot)
    as [st1 ->]. apply IH.
Qed.

(** When the strategy object [rw0] rejects every proposal for a slot of the
    table and stays as it is, every visit is counted in [pcount]. *)
Lemma sweep_all_rejected fuel o i n pos st rw0 m :
  persist = false → graph_rewire.rewire st = rw0 →
  graph_rewire.edge_pos st ≡ₚ seq 0 m → perm_draws_ok o m → pos + n = m →
  (∀ pos ei, pos < m → ei < m →
     rewire_call rw0 (graph_rewire.rewire_draws o i pos 0) ei
       self_loops parallel_edges = Some (false, rw0)) →
  ∃ st', sweep fuel o i n pos st = Some st' ∧ graph_rewire.rewire st' = rw0 ∧
         graph_rewire.edge_pos st' ≡ₚ seq 0 m ∧
         graph_rewire.pcount st' + length (graph_rewire.visited st)
         = graph_rewire.pcount st + length (graph_rewire.visited st').
Proof.
  intros Hp Hrw0 Hperm Hdraws Hlen Hrej. revert pos st Hrw0 Hperm Hlen.
  induction n as [|n IH]; intros pos st Hrw0 Hperm Hlen.
  { exists st. by split_and!. }
  assert (length (graph_rewire.edge_pos st) = m) as Hm by (by rewrite Hperm, length_seq).
  assert (pos < m) as Hpos by lia.
  pose proof (Hdraws i pos Hpos) as Hj.
  set (ep1 := graph_rewire.iter_swap (graph_rewire.edge_pos st) pos
                (pos + graph_rewire.perm_draw o i pos)).
  assert (ep1 ≡ₚ seq 0 m) as Hperm1.
  { subst ep1. rewrite iter_swap_perm; [done|lia..]. }
  assert (ep1 !!! pos < m) as Hei.
  { assert (∀ v, v ∈ ep1 → v < m) as Hall.
    { intros v Hv. rewrite Hperm1 in Hv. apply elem_of_seq in Hv. lia. }
    apply Hall, list_elem_of_lookup_total_2. subst ep1.
    rewrite length_iter_swap. lia. }
  simpl. rewrite do_while_once by done. fold ep1. rewrite Hrw0, Hrej by done. simpl.
  destruct no_sweep.
  - eexists. split_and!; [done|done|done|]. simpl. rewrite length_app. simpl. lia.
  - edestruct (IH (S pos)) as (st' & -> & Hrw & Hperm' & Hpc); [done|done|lia|].
    exists st'. split_and!; [done..|]. simpl in Hpc. rewrite length_app in Hpc.
    simpl in Hpc. lia.
Qed.

Lemma iterate_all_rejected fuel o n i st rw0 m :
  persist = false → graph_rewire.rewire st = rw0 →
  graph_rewire.edge_pos st ≡ₚ seq 0 m → perm_draws_ok o m →
  (∀ i pos ei, pos < m → ei < m →
     rewire_call rw0 (graph_rewire.rewire_draws o i pos 0) ei
       self_loops parallel_edges = Some (false, rw0)) →
  ∃ st', iterate fuel o n i st = Some st' ∧ graph_rewire.rewire st' = rw0 ∧
         graph_rewire.pcount st' + length (graph_rewire.visited st)
         = graph_rewire.pcount st + length (graph_rewire.visited st').
Proof.
  intros Hp Hrw0 Hperm Hdraws Hrej. revert i st Hrw0 Hperm.
  induction n as [|n IH]; intros i st Hrw0 Hperm.
  { exists st. by split_and!. }
  simpl.
  assert (length (graph_rewire.edge_pos st) = m) as Hm by (by rewrite Hperm, length_seq).
  destruct (sweep_all_rejected fuel o i (length (graph_rewire.edge_pos st)) 0 st rw0 m)
    as (st1 & -> & Hrw1 & Hperm1 & Hpc1); [done..|lia|by apply Hrej|].
  destruct (IH (S i) st1 Hrw1 Hperm1) as (st' & -> & Hrw' & Hpc').
  exists st'. split_and!; [done..|]. lia.
Qed.

End main_loop_facts.

(** The calls that the loops make on the strategy. *)
Section main_loop_log.
Context {RW Dr : Type}.
Context (rewire_call : RW → Dr → nat → bool → bool → option (bool * RW)).
Context (self_loops parallel_edges persist no_sweep : bool).








End main_loop_log.




(** ** A graph with one edge *)

(** A proposal whose target edge is the edge itself is rejected, whatever
    the checks before say. *)
Lemma call_self_pair_rejected {St Dr : Type} `{!RewireStrategyBase.RewireStrategy St Dr}
    (rs : rewire_state St) dr ei self_loops parallel_edges :
  (RewireStrategyBase.get_target_edge (_self rs) (_edges rs) (_g rs) dr ei).1 = ei →
  RewireStrategyBase.call rs dr ei self_loops parallel_edges = (false, rs).
Proof.
  intros Het. unfold RewireStrategyBase.call. cbv zeta. rewrite Het.
  destruct (negb self_loops && _); [done|].
  rewrite (bool_decide_eq_false_2 (ei ≠ ei)) by (by intros ?).
  by rewrite andb_false_r.
Qed.

Lemma buckets_agree_slots_in_range {D BD deg_t : Type} `{Countable deg_t}
    `{!BlockDeg BD deg_t} (self : AliasProbabilisticRewireStrategy.t D BD deg_t)
    edges g :
  buckets_agree self edges g → slots_in_range self edges g.
Proof.
  intros [[Hin _] Hout]. split.
  - intros d i Hi. by apply Hin in Hi as [? _].
  - intros Hd d i Hi. destruct (Hout Hd) as [Hmem _]. by apply Hmem in Hi as [? _].
Qed.

(** On a table with one slot, an edge reference of the data model is the
    slot itself. *)
Lemma single_slot_rejected {St Dr : Type} `{!RewireStrategyBase.RewireStrategy St Dr}
    (rs : rewire_state St) dr ei self_loops parallel_edges :
  length (_edges rs) = 1 → ei < 1 →
  EdgeRef_ok (_edges rs) (_g rs)
    (RewireStrategyBase.get_target_edge (_self rs) (_edges rs) (_g rs) dr ei) →
  RewireStrategyBase.call rs dr ei self_loops parallel_edges = (false, rs).
Proof.
  intros Hlen Hei [Het _]. apply call_self_pair_rejected. lia.
Qed.

(** The run of an edge-pair strategy that rejects every proposal on its
    initial object, without persistence: every visit is a failure. *)
Lemma edge_pair_all_rejected {St Dr : Type} `{!RewireStrategyBase.RewireStrategy St Dr}
    (construct : edge_table → Graph → St) g self_loops parallel_edges
    n_iter no_sweep fuel (o : graph_rewire.oracle Dr) :
  let rs0 := mk_state g (edge_list g) (construct (edge_list g) g) in
  length (edge_list g) = 1 → perm_draws_ok o 1 →
  (∀ i, EdgeRef_ok (edge_list g) g
          (RewireStrategyBase.get_target_edge (_self rs0) (edge_list g) g
             (graph_rewire.rewire_draws o i 0 0) 0)) →
  ∃ st, graph_rewire_edge_pair construct g self_loops parallel_edges
          (n_iter, no_sweep) false fuel o = Some st ∧
        graph_rewire.rewire st = rs0 ∧ graph_rewire.pcount st = n_iter.
Proof.
  intros rs0 Hlen Hdraws Hok.
  unfold graph_rewire_edge_pair, graph_rewire.call, graph_rewire.main_loop.
  simpl. fold rs0. rewrite Hlen.
  edestruct (iterate_all_rejected
               (λ rs dr ei self_loops parallel_edges,
                  Some (RewireStrategyBase.call rs dr ei self_loops parallel_edges))
               self_loops parallel_edges false no_sweep fuel o n_iter 0
               (graph_rewire.mk_loop rs0 (seq 0 1) 0 []) rs0 1)
    as (st & Hrun & Hrw & Hpc); [done..| |].
  { intros i pos ei Hpos Hei. f_equal.
    assert (pos = 0) as -> by lia. assert (ei = 0) as -> by lia.
    apply single_slot_rejected; [done|lia|apply Hok]. }
  exists st. split_and!; [done..|].
  apply (iterate_visits_length _ _ _ _ _ _ _ _ _ _ _ 1) in Hrun; [|done..].
  simpl in Hrun, Hpc. destruct no_sweep; simpl in Hrun; lia.
Qed.

(** On a graph with exactly one edge, the Random, Correlated,
    Probabilistic and Alias strategies reject every proposal whose draws are
    indices of the lists read: the target edge they return can only be slot
    0, the slot rewired, and [operator()] returns false when
    [ei = et.first]. Without persistence the run ends with
    [pcount = n_iter], with or without [no_sweep], and the strategy object,
    graph and table included, is as constructed. *)
Theorem single_edge_rejects_every_proposal :
  (∀ g self_loops parallel_edges n_iter no_sweep fuel
     (o : graph_rewire.oracle RandomRewireStrategy.draws),
     length (edge_list g) = 1 → perm_draws_ok o 1 →
     (∀ i, RandomRewireStrategy.draws_ok (edge_list g)
             (graph_rewire.rewire_draws o i 0 0)) →
     ∃ st, graph_rewire_Random g self_loops parallel_edges (n_iter, no_sweep)
             false fuel o = Some st ∧
           graph_rewire.rewire st = mk_state g (edge_list g) () ∧
           graph_rewire.pcount st = n_iter) ∧
  (∀ g self_loops parallel_edges n_iter no_sweep fuel (o : graph_rewire.oracle nat),
     length (edge_list g) = 1 → perm_draws_ok o 1 →
     (∀ i, CorrelatedRewireStrategy.draws_ok
             (CorrelatedRewireStrategy.construct (edge_list g) g) (edge_list g) g 0
             (graph_rewire.rewire_draws o i 0 0)) →
     ∃ st, graph_rewire_Correlated g self_loops parallel_edges (n_iter, no_sweep)
             false fuel o = Some st ∧
           graph_rewire.rewire st
           = mk_state g (edge_list g) (CorrelatedRewireStrategy.construct (edge_list g) g) ∧
           graph_rewire.pcount st = n_iter) ∧
  (∀ (D : Type) (ops : DoubleOps D) (BD deg_t : Type) (eq : EqDecision deg_t)
     (cnt : Countable deg_t) (bd : BlockDeg BD deg_t)
     (corr_prob : deg_t → deg_t → D) (blockdeg : BD) (cache : bool)
     g self_loops parallel_edges n_iter no_sweep fuel
     (o : graph_rewire.oracle (ProbabilisticRewireStrategy.draws D)),
     length (edge_list g) = 1 → perm_draws_ok o 1 →
     (∀ i, ProbabilisticRewireStrategy.draws_ok (edge_list g)
             (graph_rewire.rewire_draws o i 0 0)) →
     ∃ st, graph_rewire_Probabilistic corr_prob blockdeg cache g self_loops
             parallel_edges (n_iter, no_sweep) false fuel o = Some st ∧
           graph_rewire.rewire st
           = mk_state g (edge_list g)
               (ProbabilisticRewireStrategy.construct (edge_list g) g
                  corr_prob blockdeg cache) ∧
           graph_rewire.pcount st = n_iter) ∧
  (∀ (D : Type) (ops : DoubleOps D) (BD deg_t : Type) (eq : EqDecision deg_t)
     (cnt : Countable deg_t) (inh : Inhabited deg_t) (bd : BlockDeg BD deg_t)
     (corr_prob : deg_t → deg_t → D) (blockdeg : BD)
     g self_loops parallel_edges n_iter no_sweep fuel
     (o : graph_rewire.oracle (AliasProbabilisticRewireStrategy.draws D)),
     length (edge_list g) = 1 → perm_draws_ok o 1 →
     (∀ i, AliasProbabilisticRewireStrategy.draws_ok
             (AliasProbabilisticRewireStrategy.construct (edge_list g) g
                corr_prob blockdeg) (edge_list g) g 0
             (graph_rewire.rewire_draws o i 0 0)) →
     ∃ st, graph_rewire_Alias corr_prob blockdeg g self_loops
             parallel_edges (n_iter, no_sweep) false fuel o = Some st ∧
           graph_rewire.rewire st
           = mk_state g (edge_list g)
               (AliasProbabilisticRewireStrategy.construct (edge_list g) g
                  corr_prob blockdeg) ∧
           graph_rewire.pcount st = n_iter).
Proof.
  split_and!.
  - intros g sl pe n_iter no_sweep fuel o Hlen Hperm Hdr.
    apply (edge_pair_all_rejected (λ _ _, ())); [done..|].
    intros i. apply Random_EdgeRef_ok; [lia|apply Hdr].
  - intros g sl pe n_iter no_sweep fuel o Hlen Hperm Hdr.
    apply (edge_pair_all_rejected CorrelatedRewireStrategy.construct); [done..|].
    intros i. apply Correlated_EdgeRef_ok; [apply Correlated_construct_ok|apply Hdr].
  - intros D ops BD deg_t eq cnt bd corr_prob blockdeg cache
      g sl pe n_iter no_sweep fuel o Hlen Hperm Hdr.
    apply (edge_pair_all_rejected
             (λ edges g, ProbabilisticRewireStrategy.construct edges g
                           corr_prob blockdeg cache)); [done..|].
    intros i. apply Probabilistic_EdgeRef_ok; [lia|apply Hdr].
  - intros D ops BD deg_t eq cnt inh bd corr_prob blockdeg
      g sl pe n_iter no_sweep fuel o Hlen Hperm Hdr.
    apply (edge_pair_all_rejected
             (λ edges g, AliasProbabilisticRewireStrategy.construct edges g
                           corr_prob blockdeg)); [done..|].
    intros i. apply Alias_EdgeRef_ok; [lia| |apply Hdr].
    apply buckets_agree_slots_in_range, Alias_construct_buckets_agree.
Qed.

(** Three iterations of the Random strategy over the graph 0 -> 1. *)
Lemma single_edge_rejects_every_proposal_witness :
  let g := mk_graph true 2 [mk_edge 0 1 0] 1 in
  let o := graph_rewire.mk_oracle (λ _ _, 0)
             (λ _ _ _, RandomRewireStrategy.mk_draws 0 false) in
  ∃ st, graph_rewire_Random g false false (3, true) false 0 o = Some st ∧
        graph_rewire.rewire st = mk_state g (edge_list g) () ∧
        graph_rewire.pcount st = 3.
Proof.
  intros g o.
  refine (proj1 single_edge_rejects_every_proposal g false false 3 true 0 o _ _ _).
  - reflexivity.
  - intros i pos Hpos. simpl. lia.
  - intros i. unfold RandomRewireStrategy.draws_ok. simpl. lia.
Defined.

(** ** The blocks met during a run are those met by the constructor *)

Lemma DegreeBlock_degree_determined : degree_determined Build_DegreeBlock.
Proof.
  intros g g' v Hd Hdeg. unfold get_block, DegreeBlock_get_block.
  by apply (deg_pair_preserved g g').
Qed.

Lemma PropertyBlock_degree_determined {V} (pb : PropertyBlock V) :
  degree_determined pb.
Proof. by intros g g' v _ _. Qed.

Section blocks.
Context {BD deg_t : Type} `{Countable deg_t} `{!BlockDeg BD deg_t}.

(** The constructor's first loop collects the blocks of every slot. *)
Lemma deg_set_blocks_known (bd : BD) edges g :
  blocks_known bd (ProbabilisticRewireStrategy.deg_set bd edges g) edges g.
Proof.
  unfold ProbabilisticRewireStrategy.deg_set.
  assert (∀ n i, i < n →
    get_block bd (source (edges !!! i) g) g ∈
      foldl (λ (s : gset deg_t) ei,
               {[get_block bd (target (edges !!! ei) g) g]} ∪
               ({[get_block bd (source (edges !!! ei) g) g]} ∪ s)) ∅ (seq 0 n) ∧
    get_block bd (target (edges !!! i) g) g ∈
      foldl (λ (s : gset deg_t) ei,
               {[get_block bd (target (edges !!! ei) g) g]} ∪
               ({[get_block bd (source (edges !!! ei) g) g]} ∪ s)) ∅ (seq 0 n)) as Hn.
  { induction n as [|n IH]; intros i Hi; [lia|].
    rewrite seq_S, foldl_app. simpl.
    rewrite !elem_of_union, !elem_of_singleton.
    destruct (decide (i = n)) as [->|Hne]; [by auto|].
    destruct (IH i ltac:(lia)). by auto. }
  intros i Hi. by apply Hn.
Qed.

(** An accepted move of an edge-pair strategy exchanges end points between
    two slots and keeps the degrees: it brings no new block. *)
Lemma call_accepted_blocks_known {St Dr : Type}
    `{!RewireStrategyBase.RewireStrategy St Dr}
    (bd : BD) known (rs rs' : rewire_state St) dr ei sl pe :
  degree_determined bd →
  table_ok (_edges rs) (_g rs) → ei < length (_edges rs) →
  EdgeRef_ok (_edges rs) (_g rs)
    (RewireStrategyBase.get_target_edge (_self rs) (_edges rs) (_g rs) dr ei) →
  RewireStrategyBase.call rs dr ei sl pe = (true, rs') →
  blocks_known bd known (_edges rs) (_g rs) →
  blocks_known bd known (_edges rs') (_g rs').
Proof.
  intros Hbd Hok Hei Het Hcall Hknown.
  destruct (call_accepted_table_ok _ _ _ _ _ _ Hok Hei Het Hcall) as (_ & Hlen & Hdir).
  pose proof (call_accepted_degrees _ _ _ _ _ _ Hok Hei Het Hcall) as Hdeg.
  apply call_accepted in Hcall as (Hne & Hswap & _). cbv zeta in *.
  set (et := RewireStrategyBase.get_target_edge _ _ _ _ _) in *.
  destruct Het as [Het _].
  destruct (swap_target_ends _ _ _ _ _ _ Hei Het Hne Hswap) as (Hs & Ht & Hrs & Hrt & Hoth).
  intros j Hj. rewrite Hlen in Hj. rewrite !(Hbd _ _ _ Hdir Hdeg).
  destruct (Hknown ei Hei) as [Ks Kt]. destruct (Hknown (et.1) Het) as [Ks' Kt'].
  clearbody et. destruct et as [k flipped]. simpl in *.
  destruct (decide (j = ei)) as [->|Hje].
  { rewrite Hs, Ht. split; [exact Ks|]. unfold ref_target. simpl.
    destruct flipped; [exact Ks'|exact Kt']. }
  destruct (decide (j = k)) as [->|Hjt]; [|rewrite Hoth by done; by apply Hknown].
  revert Hrs Hrt. unfold ref_source, ref_target, source, target in *. simpl.
  destruct flipped; intros -> ->; split; assumption.
Qed.

End blocks.

(** ** Every probability read is a sanitized one *)

Section probabilities_used.
Context {D : Type} `{!DoubleOps D}.
Context {BD deg_t : Type} `{Countable deg_t} `{!Inhabited deg_t} `{!BlockDeg BD deg_t}.

Lemma blocks_known_ref (bd : BD) known edges g (ep : EdgeRef) :
  blocks_known bd known edges g → ep.1 < length edges →
  get_block bd (ref_source ep edges g) g ∈ known ∧
  get_block bd (ref_target ep edges g) g ∈ known.
Proof.
  intros Hknown Hep. destruct (Hknown _ Hep). unfold ref_source, ref_target.
  by destruct (ep.2).
Qed.

Lemma spec_pi_pf_known (p q : deg_t → deg_t → D) (bd : BD) known edges g ei
    (ep : EdgeRef) :
  (∀ s t, s ∈ known → t ∈ known → p s t = q s t) →
  blocks_known bd known edges g → ei < length edges → ep.1 < length edges →
  spec_pi p (λ v, get_block bd v g) edges g ei ep
  = spec_pi q (λ v, get_block bd v g) edges g ei ep ∧
  spec_pf p (λ v, get_block bd v g) edges g ei ep
  = spec_pf q (λ v, get_block bd v g) edges g ei ep.
Proof.
  intros Hpq Hknown Hei Hep. destruct (Hknown _ Hei).
  destruct (blocks_known_ref bd known edges g ep Hknown Hep).
  unfold spec_pi, spec_pf. by rewrite !Hpq.
Qed.

(** The probabilities that [get_target_edge] of the Probabilistic strategy
    multiplies, in any state of a run whose blocks are those the constructor
    met. *)
Lemma Probabilistic_probabilities_used edges0 g0 (corr_prob : deg_t → deg_t → D)
    (bd : BD) cache edges g (dr : ProbabilisticRewireStrategy.draws D) ei :
  blocks_known bd (ProbabilisticRewireStrategy.deg_set bd edges0 g0) edges g →
  ei < length edges → ProbabilisticRewireStrategy.draws_ok edges dr →
  let self := ProbabilisticRewireStrategy.construct edges0 g0 corr_prob bd cache in
  let ep := Probabilistic_candidate g dr in
  let block := λ v, ProbabilisticRewireStrategy.get_deg self v g in
  spec_pi (ProbabilisticRewireStrategy.get_prob self) block edges g ei ep
  = spec_pi (λ s t, spec_sanitized (corr_prob s t)) block edges g ei ep ∧
  spec_pf (ProbabilisticRewireStrategy.get_prob self) block edges g ei ep
  = spec_pf (λ s t, spec_sanitized (corr_prob s t)) block edges g ei ep.
Proof.
  intros Hknown Hei Hdr self ep block.
  assert (block = λ v, get_block bd v g) as ->.
  { subst block self. unfold ProbabilisticRewireStrategy.get_deg,
      ProbabilisticRewireStrategy.construct. by destruct cache. }
  eapply spec_pi_pf_known; [|done|done|].
  - intros s t Hs Ht. by apply Probabilistic_get_prob_constructed.
  - unfold ProbabilisticRewireStrategy.draws_ok in Hdr. simpl. lia.
Qed.

(** The hooks of the Alias strategy touch the buckets only. *)
Lemma Alias_update_edge_probs (self : AliasProbabilisticRewireStrategy.t D BD deg_t)
    edges g ei insert :
  let self' := AliasProbabilisticRewireStrategy.update_edge self edges g ei insert in
  AliasProbabilisticRewireStrategy._probs self'
    = AliasProbabilisticRewireStrategy._probs self ∧
  AliasProbabilisticRewireStrategy._blockdeg self'
    = AliasProbabilisticRewireStrategy._blockdeg self ∧
  AliasProbabilisticRewireStrategy._sampler self'
    = AliasProbabilisticRewireStrategy._sampler self ∧
  AliasProbabilisticRewireStrategy._items self'
    = AliasProbabilisticRewireStrategy._items self.
Proof.
  unfold AliasProbabilisticRewireStrategy.update_edge. cbv zeta.
  by destruct insert, (is_directed g).
Qed.

(** The same, for the Alias strategy: [self] is the object constructed on
    [edges0] and [g0], after any number of moves. *)
Lemma Alias_probabilities_used edges0 g0 (corr_prob : deg_t → deg_t → D)
    (bd : BD) (self : AliasProbabilisticRewireStrategy.t D BD deg_t) edges g dr ei :
  AliasProbabilisticRewireStrategy._probs self
    = AliasProbabilisticRewireStrategy._probs
        (AliasProbabilisticRewireStrategy.construct edges0 g0 corr_prob bd) →
  AliasProbabilisticRewireStrategy._blockdeg self = bd →
  blocks_known bd (ProbabilisticRewireStrategy.deg_set bd edges0 g0) edges g →
  ei < length edges → slots_in_range self edges g →
  AliasProbabilisticRewireStrategy.draws_ok self edges g ei dr →
  let ep := Alias_candidate self edges g dr ei in
  let block := λ v, AliasProbabilisticRewireStrategy.get_deg self v g in
  spec_pi (AliasProbabilisticRewireStrategy.get_prob self) block edges g ei ep
  = spec_pi (λ s t, spec_sanitized (corr_prob s t)) block edges g ei ep ∧
  spec_pf (AliasProbabilisticRewireStrategy.get_prob self) block edges g ei ep
  = spec_pf (λ s t, spec_sanitized (corr_prob s t)) block edges g ei ep.
Proof.
  intros Hprobs Hbd Hknown Hei [Hin Hout] [_ Hdr] ep block.
  assert (block = λ v, get_block bd v g) as ->.
  { subst block. unfold AliasProbabilisticRewireStrategy.get_deg. by rewrite Hbd. }
  eapply spec_pi_pf_known; [|done|done|].
  - intros s t Hs Ht. unfold AliasProbabilisticRewireStrategy.get_prob.
    rewrite Hprobs. by apply (Alias_get_prob_constructed edges0 g0 corr_prob bd).
  - subst ep. unfold Alias_candidate. cbv zeta in *.
    destruct (is_directed g || _) eqn:Hd; simpl.
    + eapply Hin. by apply list_elem_of_lookup_total_2.
    + apply orb_false_iff in Hd as [Hdir _].
      eapply (Hout Hdir). by apply list_elem_of_lookup_total_2.
Qed.

End probabilities_used.

(** ** The Alias strategy keeps its slots in range *)

Lemma back_elem_of (l : list nat) : l ≠ [] → back l ∈ l.
Proof.
  unfold back. induction l as [|a [|b l] IH]; intros Hl; [done|by left|].
  right. by apply IH.
Qed.

Lemma elem_of_swap_pop (l : list nat) j x :
  x ∈ pop_back (<[j := back l]> l) → x ∈ l.
Proof.
  intros Hx.
  assert (x ∈ <[j := back l]> l) as Hx'.
  { unfold pop_back in Hx. apply list_elem_of_In in Hx. apply list_elem_of_In.
    revert Hx. generalize (<[j := back l]> l). intros k.
    induction k as [|a [|b k] IH]; simpl; [done|done|].
    intros [->|Hx]; [by left|right; by apply IH]. }
  apply list_elem_of_lookup in Hx' as [i Hi].
  apply list_lookup_insert_Some in Hi as [(-> & <- & Hj)|[_ Hi]].
  - apply back_elem_of. intros ->. simpl in Hj. lia.
  - by eapply list_elem_of_lookup_2.
Qed.

Section alias_range.
Context {D : Type} `{!DoubleOps D}.
Context {BD deg_t : Type} `{Countable deg_t} `{!Inhabited deg_t} `{!BlockDeg BD deg_t}.

Lemma Alias_update_edge_in_range (self : AliasProbabilisticRewireStrategy.t D BD deg_t)
    edges g edges1 g1 ei insert :
  is_directed g1 = is_directed g → ei < length edges →
  slots_in_range self edges g →
  slots_in_range (AliasProbabilisticRewireStrategy.update_edge self edges1 g1 ei insert)
                 edges g.
Proof.
  intros Hdir Hei [Hin Hout].
  unfold AliasProbabilisticRewireStrategy.update_edge. cbv zeta.
  destruct insert, (is_directed g1) eqn:Hd1; simpl; split; simpl.
  - intros d i [Hi|[_ ->]]%elem_of_bucket_push_back; [by eapply Hin|done].
  - rewrite <- Hdir. done.
  - intros d i [Hi|[_ ->]]%elem_of_bucket_push_back; [by eapply Hin|done].
  - intros Hg d i [Hi|[_ ->]]%elem_of_bucket_push_back; [by eapply Hout|done].
  - done.
  - done.
  - intros d i. rewrite !bucket_insert.
    destruct (decide _) as [<-|Hne]; [|by apply Hin].
    rewrite decide_True by done. intros Hi%elem_of_swap_pop. by eapply Hin.
  - done.
Qed.

(** An accepted move keeps the slots in range, the probabilities and the
    block abstraction. *)
Lemma Alias_call_accepted_in_range
    (rs rs' : rewire_state (AliasProbabilisticRewireStrategy.t D BD deg_t))
    dr ei sl pe :
  table_ok (_edges rs) (_g rs) → ei < length (_edges rs) →
  slots_in_range (_self rs) (_edges rs) (_g rs) →
  AliasProbabilisticRewireStrategy.draws_ok (_self rs) (_edges rs) (_g rs) ei dr →
  RewireStrategyBase.call rs dr ei sl pe = (true, rs') →
  slots_in_range (_self rs') (_edges rs') (_g rs') ∧
  AliasProbabilisticRewireStrategy._probs (_self rs')
    = AliasProbabilisticRewireStrategy._probs (_self rs) ∧
  AliasProbabilisticRewireStrategy._blockdeg (_self rs')
    = AliasProbabilisticRewireStrategy._blockdeg (_self rs).
Proof.
  intros Hok Hei Hrange Hdr Hcall.
  pose proof (Alias_EdgeRef_ok _ _ _ _ _ Hei Hrange Hdr) as Het.
  destruct (@call_accepted_table_ok _ _ AliasProbabilisticRewireStrategy.strategy
              rs rs' dr ei sl pe Hok Hei Het Hcall) as (_ & Hlen & Hdir).
  pose proof (@call_accepted_self _ _ AliasProbabilisticRewireStrategy.strategy
                rs rs' dr ei sl pe Hcall) as Hself.
  cbv zeta in Hself. destruct Het as [Het _].
  change (RewireStrategyBase.get_target_edge (_self rs) (_edges rs) (_g rs) dr ei)
    with (AliasProbabilisticRewireStrategy.get_target_edge
            (_self rs) (_edges rs) (_g rs) dr ei) in Hself.
  revert Het Hself.
  generalize (AliasProbabilisticRewireStrategy.get_target_edge
                (_self rs) (_edges rs) (_g rs) dr ei).
  intros et Het ->.
  change (@RewireStrategyBase.update_edge _ _ AliasProbabilisticRewireStrategy.strategy)
    with (@AliasProbabilisticRewireStrategy.update_edge D BD deg_t _ _ _).
  split_and!.
  - assert (∀ self : AliasProbabilisticRewireStrategy.t D BD deg_t,
              slots_in_range self (_edges rs) (_g rs) →
              slots_in_range self (_edges rs') (_g rs')) as Htr.
    { intros self [H1 H2]. split; [by rewrite Hlen|]. rewrite Hlen, Hdir. done. }
    apply Htr.
    apply Alias_update_edge_in_range; [done..|].
    apply Alias_update_edge_in_range; [done..|].
    apply Alias_update_edge_in_range; [done..|].
    by apply Alias_update_edge_in_range.
  - rewrite !(proj1 (Alias_update_edge_probs _ _ _ _ _)). reflexivity.
  - rewrite !(proj1 (proj2 (Alias_update_edge_probs _ _ _ _ _))). reflexivity.
Qed.

End alias_range.

(** ** The probabilities of the block models *)

(** C5, as the code has it. In the Probabilistic strategy (cached or on
    demand) and in the Alias strategy (the acceptance table and the sampler
    weights), the probability of a pair of blocks is [corr_prob] sanitized in
    two steps: NaN, an infinity or a negative value becomes 0, and then a
    zero becomes [numeric_limits<double>::min()], 2^-1022, so that no
    probability compares equal to 0. The weights of the Traditional
    strategy's sampler go through the first step only: a zero stays. The
    blocks met during a run are those the constructor met (an accepted move
    brings no new one), so the factors of [pi] and [pf] in [get_target_edge]
    are sanitized probabilities. *)
Theorem probabilities_are_sanitized (fexp flog : float → float) :
  let ops := binary64 fexp flog in
  (∀ p : float,
     @spec_coerce_invalid float ops p
       = (if PrimFloat.is_nan p || PrimFloat.is_infinity p || PrimFloat.ltb p 0
          then 0%float else p) ∧
     @spec_sanitized float ops p
       = (if PrimFloat.is_nan p || PrimFloat.is_infinity p || PrimFloat.ltb p 0
          then DBL_MIN
          else if PrimFloat.eqb p 0 then DBL_MIN else p) ∧
     PrimFloat.eqb (@spec_sanitized float ops p) 0 = false) ∧
  (∀ (BD deg_t : Type) (eq : EqDecision deg_t) (cnt : Countable deg_t)
     (bd : BlockDeg BD deg_t) edges g (corr_prob : deg_t → deg_t → float)
     (blockdeg : BD) (cache : bool) s t,
     s ∈ ProbabilisticRewireStrategy.deg_set blockdeg edges g →
     t ∈ ProbabilisticRewireStrategy.deg_set blockdeg edges g →
     @ProbabilisticRewireStrategy.get_prob float ops BD deg_t eq cnt
       (ProbabilisticRewireStrategy.construct edges g corr_prob blockdeg cache) s t
     = @spec_sanitized float ops (corr_prob s t)) ∧
  (∀ (BD deg_t : Type) (eq : EqDecision deg_t) (cnt : Countable deg_t)
     (self : ProbabilisticRewireStrategy.t float BD deg_t) s t,
     ProbabilisticRewireStrategy._probs self = ∅ →
     @ProbabilisticRewireStrategy.get_prob float ops BD deg_t eq cnt self s t
     = @spec_sanitized float ops (ProbabilisticRewireStrategy._corr_prob self s t)) ∧
  (∀ (BD deg_t : Type) (eq : EqDecision deg_t) (cnt : Countable deg_t)
     (inh : Inhabited deg_t) (bd : BlockDeg BD deg_t) edges g
     (corr_prob : deg_t → deg_t → float) (blockdeg : BD) s t,
     s ∈ ProbabilisticRewireStrategy.deg_set blockdeg edges g →
     t ∈ ProbabilisticRewireStrategy.deg_set blockdeg edges g →
     let self := @AliasProbabilisticRewireStrategy.construct float ops BD deg_t
                   eq cnt bd edges g corr_prob blockdeg in
     AliasProbabilisticRewireStrategy.get_prob self s t
       = @spec_sanitized float ops (corr_prob s t) ∧
     ∃ smp, AliasProbabilisticRewireStrategy._sampler self !! s = Some smp ∧
            s_probs smp = (λ t, @spec_sanitized float ops (corr_prob s t)) <$> s_items smp) ∧
  (∀ (BD deg_t : Type) (eq : EqDecision deg_t) (cnt : Countable deg_t)
     (inh : Inhabited deg_t) (bd : BlockDeg BD deg_t) edges g
     (corr_prob : deg_t → deg_t → float) (blockdeg : BD),
     let self := _self (@TradBlockRewireStrategy.construct float ops BD deg_t
                          eq cnt bd edges g corr_prob blockdeg) in
     s_items (TradBlockRewireStrategy._sampler self) = TradBlockRewireStrategy._items self ∧
     s_probs (TradBlockRewireStrategy._sampler self)
     = (λ st, @spec_coerce_invalid float ops (corr_prob st.1 st.2))
         <$> TradBlockRewireStrategy._items self) ∧
  (∀ (BD deg_t : Type) (eq : EqDecision deg_t) (cnt : Countable deg_t)
     (bd : BlockDeg BD deg_t) edges0 g0 (corr_prob : deg_t → deg_t → float)
     (blockdeg : BD) (cache : bool) edges g
     (dr : ProbabilisticRewireStrategy.draws float) ei,
     blocks_known blockdeg (ProbabilisticRewireStrategy.deg_set blockdeg edges0 g0)
       edges g →
     ei < length edges → ProbabilisticRewireStrategy.draws_ok edges dr →
     let self := ProbabilisticRewireStrategy.construct edges0 g0 corr_prob
                   blockdeg cache in
     let ep := Probabilistic_candidate g dr in
     let block := λ v, ProbabilisticRewireStrategy.get_deg self v g in
     let p := @ProbabilisticRewireStrategy.get_prob float ops BD deg_t eq cnt self in
     let q := λ s t, @spec_sanitized float ops (corr_prob s t) in
     @spec_pi float ops deg_t p block edges g ei ep
       = @spec_pi float ops deg_t q block edges g ei ep ∧
     @spec_pf float ops deg_t p block edges g ei ep
       = @spec_pf float ops deg_t q block edges g ei ep) ∧
  (∀ (BD deg_t : Type) (eq : EqDecision deg_t) (cnt : Countable deg_t)
     (inh : Inhabited deg_t) (bd : BlockDeg BD deg_t) edges0 g0
     (corr_prob : deg_t → deg_t → float) (blockdeg : BD)
     (self : AliasProbabilisticRewireStrategy.t float BD deg_t) edges g dr ei,
     AliasProbabilisticRewireStrategy._probs self
       = AliasProbabilisticRewireStrategy._probs
           (@AliasProbabilisticRewireStrategy.construct float ops BD deg_t
              eq cnt bd edges0 g0 corr_prob blockdeg) →
     AliasProbabilisticRewireStrategy._blockdeg self = blockdeg →
     blocks_known blockdeg (ProbabilisticRewireStrategy.deg_set blockdeg edges0 g0)
       edges g →
     ei < length edges → slots_in_range self edges g →
     AliasProbabilisticRewireStrategy.draws_ok self edges g ei dr →
     let ep := Alias_candidate self edges g dr ei in
     let block := λ v, AliasProbabilisticRewireStrategy.get_deg self v g in
     let p := @AliasProbabilisticRewireStrategy.get_prob float ops BD deg_t eq cnt self in
     let q := λ s t, @spec_sanitized float ops (corr_prob s t) in
     @spec_pi float ops deg_t p block edges g ei ep
       = @spec_pi float ops deg_t q block edges g ei ep ∧
     @spec_pf float ops deg_t p block edges g ei ep
       = @spec_pf float ops deg_t q block edges g ei ep).
Proof.
  intros ops. split_and!.
  - intros p. apply binary64_sanitized.
  - intros. by apply Probabilistic_get_prob_constructed.
  - intros. by apply Probabilistic_get_prob_on_demand.
  - intros BD deg_t eq cnt inh bd edges g corr_prob blockdeg s t Hs Ht self.
    split; [by apply Alias_get_prob_constructed|].
    eexists. split; [by apply Alias_sampler_constructed|]. done.
  - intros. apply TradBlock_construct_weights.
  - intros. by apply Probabilistic_probabilities_used.
  - intros. by eapply Alias_probabilities_used.
Qed.

(** C5, as stated, fails on "the smallest positive representable double":
    the value a zero probability becomes is 2^-1022, and the subnormal
    2^-1074 is a positive double below it. *)
Lemma zero_probability_is_not_least_positive :
  let ops := binary64 (λ x, x) (λ x, x) in
  let self := ProbabilisticRewireStrategy.mk
                (λ _ _ : nat * nat, 0%float) Build_DegreeBlock ∅ in
  let p := @ProbabilisticRewireStrategy.get_prob float ops DegreeBlock (nat * nat)
             _ _ self (1, 1) (1, 1) in
  PrimFloat.ltb 0 DBL_DENORM_MIN = true ∧ PrimFloat.ltb DBL_DENORM_MIN p = true.
Proof. intros ops self p. split; vm_compute; reflexivity. Qed.

(** The directed graph 0 -> 1 with degree blocks and a probability that is
    NaN everywhere. *)
Lemma probabilities_are_sanitized_witness :
  let ops := binary64 (λ x, x) (λ x, x) in
  let g := mk_graph true 2 [mk_edge 0 1 0] 1 in
  @ProbabilisticRewireStrategy.get_prob float ops DegreeBlock (nat * nat) _ _
    (ProbabilisticRewireStrategy.construct (edge_list g) g
       (λ _ _, PrimFloat.nan) Build_DegreeBlock true) (0, 1) (1, 0)
  = @spec_sanitized float ops PrimFloat.nan.
Proof.
  intros ops g.
  refine (proj1 (proj2 (probabilities_are_sanitized (λ x, x) (λ x, x)))
            DegreeBlock (nat * nat)%type _ _ _ (edge_list g) g (λ _ _, PrimFloat.nan)
            Build_DegreeBlock true (0, 1) (1, 0) _ _).
  - apply (bool_decide_unpack _). vm_compute. reflexivity.
  - apply (bool_decide_unpack _). vm_compute. reflexivity.
Defined.

(** ** The Alias strategy on one directed edge *)

(** A binary64 number that is not NaN, not below zero and not equal to zero
    is above zero; one that is not NaN and not below zero is at least
    zero. *)
Lemma binary64_positive (p : float) :
  PrimFloat.is_nan p = false → PrimFloat.ltb p 0 = false →
  PrimFloat.leb 0 p = true ∧ (PrimFloat.eqb p 0 = false → PrimFloat.ltb 0 p = true).
Proof.
  unfold PrimFloat.is_nan.
  rewrite !FloatAxioms.eqb_spec, !FloatAxioms.ltb_spec, FloatAxioms.leb_spec.
  change (Prim2SF 0) with (S754_zero false).
  destruct (Prim2SF p) as [s|s| |s m e]; simpl.
  - by destruct s.
  - by destruct s.
  - done.
  - by destruct s.
Qed.

(** A sanitized probability is greater than 0. *)
Lemma binary64_sanitized_positive (fexp flog : float → float) (p : float) :
  PrimFloat.ltb 0 (@spec_sanitized float (binary64 fexp flog) p) = true.
Proof.
  destruct (binary64_sanitized fexp flog p) as (_ & Hq & _). cbv zeta in Hq.
  destruct (PrimFloat.is_nan p) eqn:Hnan; simpl in Hq.
  { rewrite Hq. by vm_compute. }
  destruct (PrimFloat.is_infinity p) eqn:Hinf; simpl in Hq.
  { rewrite Hq. by vm_compute. }
  destruct (PrimFloat.ltb p 0) eqn:Hlt.
  { rewrite Hq. by vm_compute. }
  destruct (binary64_positive p Hnan Hlt) as [_ Hpos].
  destruct (PrimFloat.eqb p 0) eqn:Hz; rewrite Hq.
  - by vm_compute.
  - by apply Hpos.
Qed.

Section alias_unfiled_block.
Context {D : Type} `{!DoubleOps D}.
Context {BD deg_t : Type} `{Countable deg_t} `{!Inhabited deg_t} `{!BlockDeg BD deg_t}.

(** In a directed graph, let [d] be the block of the source of some edge and
    of the target of none. The constructor makes [d] an item of every
    sampler, with a sanitized weight, and files no slot in [_in_edges[d]]:
    when the sampler read for slot [ei] returns [d], the list that
    [get_target_edge] indexes is empty and no value of [sample] is an index
    of it. *)
Lemma Alias_unfiled_block edges g (corr_prob : deg_t → deg_t → D) (bd : BD) e ei :
  is_directed g = true → e < length edges → ei < length edges →
  let self := AliasProbabilisticRewireStrategy.construct edges g corr_prob bd in
  let d := get_block bd (source (edges !!! e) g) g in
  (∀ i, i < length edges → get_block bd (target (edges !!! i) g) g ≠ d) →
  let s_deg := AliasProbabilisticRewireStrategy.get_deg self (source (edges !!! ei) g) g in
  let smp := default (Build_Sampler [] [])
               (AliasProbabilisticRewireStrategy._sampler self !! s_deg) in
  (∃ k, k < length (s_items smp) ∧ sample smp k = d ∧
        s_probs smp !! k = Some (spec_sanitized (corr_prob s_deg d))) ∧
  bucket (AliasProbabilisticRewireStrategy._in_edges self) d = [] ∧
  ∀ dr, sample smp (AliasProbabilisticRewireStrategy.d_nt dr) = d →
        ¬ AliasProbabilisticRewireStrategy.draws_ok self edges g ei dr.
Proof.
  intros Hdir He Hei self d Hnone s_deg smp.
  assert (AliasProbabilisticRewireStrategy._blockdeg self = bd) as Hbd.
  { subst self. unfold AliasProbabilisticRewireStrategy.construct. cbv zeta.
    by repeat case_match. }
  assert (bucket (AliasProbabilisticRewireStrategy._in_edges self) d = []) as Hempty.
  { destruct (Alias_construct_buckets_agree edges g corr_prob bd) as [[Hmem _] _].
    fold self in Hmem. rewrite Hbd in Hmem.
    destruct (bucket _ d) as [|i l] eqn:Hb; [done|].
    assert (i ∈ bucket (AliasProbabilisticRewireStrategy._in_edges self) d) as Hi
      by (rewrite Hb; by left).
    apply Hmem in Hi as [Hi Hk]. by destruct (Hnone i Hi). }
  destruct (deg_set_blocks_known bd edges g e He) as [Hd _].
  destruct (deg_set_blocks_known bd edges g ei Hei) as [Hs _].
  assert (s_deg = get_block bd (source (edges !!! ei) g) g) as Hsdeg.
  { subst s_deg. unfold AliasProbabilisticRewireStrategy.get_deg. by rewrite Hbd. }
  assert (smp = Build_Sampler
                  (elements (ProbabilisticRewireStrategy.deg_set bd edges g))
                  ((λ t, spec_sanitized (corr_prob s_deg t)) <$>
                   elements (ProbabilisticRewireStrategy.deg_set bd edges g))) as Hsmp.
  { subst smp self. rewrite Hsdeg.
    by rewrite (Alias_sampler_constructed edges g corr_prob bd _ Hs). }
  split_and!.
  - assert (d ∈ s_items smp) as Hin by (rewrite Hsmp; by apply elem_of_elements).
    apply list_elem_of_lookup in Hin as [k Hk]. exists k. split_and!.
    + by eapply lookup_lt_Some.
    + unfold sample. by apply list_lookup_total_correct.
    + rewrite Hsmp in Hk |- *. simpl in *. by rewrite list_lookup_fmap, Hk.
  - done.
  - intros dr Hnt [_ Hdr]. cbv zeta in Hdr. fold s_deg in Hdr. fold smp in Hdr.
    rewrite Hnt, Hdir, Hempty in Hdr. simpl in Hdr. lia.
Qed.

End alias_unfiled_block.

(** C7, where the code does not do what the claim says. The graph is the
    directed edge 0 -> 1 and the blocks are the degree pairs, so the two
    vertices are in two blocks, whatever [corr_prob] is. The sampler that
    [get_target_edge] of the Alias strategy reads for slot 0 holds the block
    of vertex 0 with a weight greater than 0, so it can return it; the list
    [_in_edges] of that block is empty, and no value of [sample] is an index
    of it: the code does not return the slot itself, it builds
    [uniform_int<>(0, ies.size() - 1)] on the empty list and reads
    [ies[sample]] outside of it. *)
Theorem Alias_single_edge_reads_empty_list (fexp flog : float → float)
    (corr_prob : nat * nat → nat * nat → float) :
  let ops := binary64 fexp flog in
  let g := mk_graph true 2 [mk_edge 0 1 0] 1 in
  let self := @AliasProbabilisticRewireStrategy.construct float ops DegreeBlock
                (nat * nat) _ _ _ (edge_list g) g corr_prob Build_DegreeBlock in
  let s_deg := AliasProbabilisticRewireStrategy.get_deg self
                 (source (edge_list g !!! 0) g) g in
  let smp := default (Build_Sampler [] [])
               (AliasProbabilisticRewireStrategy._sampler self !! s_deg) in
  length (edge_list g) = 1 ∧
  (∃ k w, k < length (s_items smp) ∧ sample smp k = s_deg ∧
          s_probs smp !! k = Some w ∧ PrimFloat.ltb 0 w = true) ∧
  bucket (AliasProbabilisticRewireStrategy._in_edges self) s_deg = [] ∧
  ∀ dr, sample smp (AliasProbabilisticRewireStrategy.d_nt dr) = s_deg →
        ¬ AliasProbabilisticRewireStrategy.draws_ok self (edge_list g) g 0 dr.
Proof.
  intros ops g self s_deg smp.
  assert (AliasProbabilisticRewireStrategy._blockdeg self = Build_DegreeBlock) as Hbd.
  { subst self. unfold AliasProbabilisticRewireStrategy.construct. cbv zeta.
    by repeat case_match. }
  assert (s_deg = get_block Build_DegreeBlock (source (edge_list g !!! 0) g) g) as Hs.
  { subst s_deg. unfold AliasProbabilisticRewireStrategy.get_deg. by rewrite Hbd. }
  destruct (@Alias_unfiled_block float ops DegreeBlock (nat * nat) _ _ _ _
              (edge_list g) g corr_prob Build_DegreeBlock 0 0)
    as ((k & Hk & Hitem & Hw) & Hempty & Hout).
  - reflexivity.
  - simpl. lia.
  - simpl. lia.
  - intros i Hi. simpl in Hi. assert (i = 0) as -> by lia. by vm_compute.
  - fold self in Hk, Hitem, Hw, Hempty, Hout. fold s_deg in Hk, Hitem, Hw, Hout.
    fold smp in Hk, Hitem, Hw, Hout. rewrite <- Hs in Hitem, Hw, Hempty, Hout.
    split_and!; [done| |done|done].
    exists k, (@spec_sanitized float ops (corr_prob s_deg s_deg)).
    split_and!; [done..|]. apply binary64_sanitized_positive.
Qed.

(** * Further properties of the code *)

(** ** [swap_target]: the table, and the way back *)

(** X1. [swap_target] keeps the table and the graph in step and the number
    of edges as it is: afterwards the table still lists the stored edges,
    one per slot, and there are as many slots and as many stored edges as
    before. *)
Theorem swap_target_keeps_table e (te : EdgeRef) edges g :
  table_ok edges g → e < length edges → te.1 < length edges →
  let edges' := (swap_edge.swap_target e te edges g).1 in
  let g' := (swap_edge.swap_target e te edges g).2 in
  table_ok edges' g' ∧ length edges' = length edges ∧
  length (edge_list g') = length (edge_list g).
Proof.
  intros Hok He Hte edges' g'.
  assert (table_ok edges' g') as Hok'.
  { eapply swap_target_table_ok; [exact Hok|exact He|exact Hte|].
    subst edges' g'. by destruct (swap_edge.swap_target e te edges g). }
  assert (length edges' = length edges) as Hlen.
  { subst edges'. destruct (decide (e = te.1)) as [Heq|Hne].
    - unfold swap_edge.swap_target. by rewrite bool_decide_eq_true_2.
    - rewrite swap_target_unfold by done. simpl. by rewrite !length_insert. }
  split_and!; [done..|].
  destruct Hok as [_ Hp], Hok' as [_ Hp']. by rewrite <- Hp', <- Hp.
Qed.

Lemma swap_target_keeps_table_witness :
  let g := mk_graph false 4 [mk_edge 0 1 0; mk_edge 2 3 1] 2 in
  length (edge_list (swap_edge.swap_target 0 (1, true) (edge_list g) g).2) = 2.
Proof.
  intros g.
  refine (proj2 (proj2 (swap_target_keeps_table 0 (1, true) (edge_list g) g _ _ _))).
  - compute_done.
  - simpl. lia.
  - simpl. lia.
Defined.

(** X2. The move is its own inverse on end points: swapping the targets of
    slot [e] and of [te] twice gives every slot the source and the target it
    had (the descriptors are new ones). *)
Theorem swap_target_twice e (te : EdgeRef) edges g :
  e < length edges → te.1 < length edges →
  let once := swap_edge.swap_target e te edges g in
  let twice := swap_edge.swap_target e te once.1 once.2 in
  ∀ j, source (twice.1 !!! j) twice.2 = source (edges !!! j) g ∧
       target (twice.1 !!! j) twice.2 = target (edges !!! j) g.
Proof.
  intros He Hte once twice j.
  destruct (decide (e = te.1)) as [Heq|Hne].
  { subst twice once. unfold swap_edge.swap_target.
    rewrite !bool_decide_eq_true_2 by done. simpl.
    by rewrite ?bool_decide_eq_true_2. }
  destruct once as [edges1 g1] eqn:H1. destruct twice as [edges2 g2] eqn:H2.
  subst once twice. simpl in *.
  assert (length edges1 = length edges) as Hlen.
  { rewrite swap_target_unfold in H1 by done. injection H1 as <- _.
    by rewrite !length_insert. }
  destruct (swap_target_ends _ _ _ _ _ _ He Hte Hne H1) as (Hs & Ht & Hrs & Hrt & Hoth).
  destruct (swap_target_ends e te edges1 g1 edges2 g2) as (Hs' & Ht' & Hrs' & Hrt' & Hoth');
    [lia|lia|done|done|].
  destruct (decide (j = e)) as [->|Hje].
  { rewrite Hs', Ht', Hs, Hrt. done. }
  destruct (decide (j = te.1)) as [->|Hjt]; [|by rewrite Hoth', Hoth].
  revert Hrs Hrt Hrs' Hrt'. rewrite Ht. unfold ref_source, ref_target, source, target.
  destruct (te.2); intros E1 E2 E3 E4; split; congruence.
Qed.

Lemma swap_target_twice_witness :
  let g := mk_graph false 4 [mk_edge 0 1 0; mk_edge 2 3 1] 2 in
  let once := swap_edge.swap_target 0 (1, true) (edge_list g) g in
  let twice := swap_edge.swap_target 0 (1, true) once.1 once.2 in
  source (twice.1 !!! 1) twice.2 = 2 ∧ target (twice.1 !!! 1) twice.2 = 3.
Proof.
  intros g once twice.
  refine (swap_target_twice 0 (1, true) (edge_list g) g _ _ 1); simpl; lia.
Defined.

(** ** The constraints on self-loops and parallel edges *)

Lemma same_ends_sym d x y : same_ends d x y → same_ends d y x.
Proof. intros [[? ?]|(? & ? & ?)]; [left|right]; by split_and!. Qed.

Lemma is_adjacent_false u v g z :
  is_adjacent u v g = false → z ∈ edge_list g →
  ¬ ((e_source z = u ∧ e_target z = v) ∨
     (is_directed g = false ∧ e_source z = v ∧ e_target z = u)).
Proof.
  intros Hadj Hz Hj. apply not_true_iff_false in Hadj. apply Hadj.
  apply is_adjacent_spec. by exists z.
Qed.

Section constraints.
Context {St Dr : Type} `{!RewireStrategyBase.RewireStrategy St Dr}.

Lemma call_accepted_no_loop (rs rs' : rewire_state St) dr ei parallel_edges :
  ei < length (_edges rs) →
  (RewireStrategyBase.get_target_edge (_self rs) (_edges rs) (_g rs) dr ei).1
    < length (_edges rs) →
  RewireStrategyBase.call rs dr ei false parallel_edges = (true, rs') →
  let et := RewireStrategyBase.get_target_edge (_self rs) (_edges rs) (_g rs) dr ei in
  e_source (_edges rs' !!! ei) ≠ e_target (_edges rs' !!! ei) ∧
  e_source (_edges rs' !!! et.1) ≠ e_target (_edges rs' !!! et.1) ∧
  (loop_free (_g rs) → loop_free (_g rs')).
Proof.
  intros Hei Het Hcall et.
  apply call_accepted in Hcall as (Hne & Hswap & Hloop & _).
  cbv zeta in Hne, Hswap, Hloop. fold et in Hne, Hswap, Hloop, Het.
  destruct (Hloop eq_refl) as [Hl1 Hl2].
  destruct (swap_target_ends _ _ _ _ _ _ Hei Het Hne Hswap) as (Hs & Ht & Hrs & Hrt & _).
  unfold source, target in *.
  assert (e_source (_edges rs' !!! ei) ≠ e_target (_edges rs' !!! ei)) as N1.
  { by rewrite Hs, Ht. }
  assert (e_source (_edges rs' !!! et.1) ≠ e_target (_edges rs' !!! et.1)) as N2.
  { revert Hrs Hrt. unfold ref_source, ref_target, source, target in *.
    destruct (et.2); intros E1 E2; congruence. }
  split_and!; [done..|].
  intros Hfree. rewrite swap_target_unfold in Hswap by done. cbv zeta in Hswap.
  injection Hswap as Hedges Hg. rewrite <- Hg. unfold loop_free. simpl.
  rewrite !Forall_app. split_and!.
  - apply Forall_forall. intros z Hz.
    apply list_elem_of_filter in Hz as [_ Hz]. apply list_elem_of_filter in Hz as [_ Hz].
    by eapply Forall_forall in Hfree.
  - apply Forall_singleton. simpl. done.
  - apply Forall_singleton. unfold ref_source, ref_target, source, target in *.
    destruct (et.2); simpl; congruence.
Qed.

Lemma call_accepted_simple (rs rs' : rewire_state St) dr ei self_loops :
  table_ok (_edges rs) (_g rs) → ei < length (_edges rs) →
  EdgeRef_ok (_edges rs) (_g rs)
    (RewireStrategyBase.get_target_edge (_self rs) (_edges rs) (_g rs) dr ei) →
  RewireStrategyBase.call rs dr ei self_loops false = (true, rs') →
  simple (_g rs) →
  is_directed (_g rs) = true ∨ loop_free (_g rs) →
  simple (_g rs').
Proof.
  intros Hok Hei [Het Hflip] Hcall Hsimple Hkind.
  apply call_accepted in Hcall as (Hne & Hswap & _ & Hpar).
  cbv zeta in Hne, Hswap, Hpar.
  set (et := RewireStrategyBase.get_target_edge _ _ _ _ _) in *.
  specialize (Hpar eq_refl).
  destruct (lookup_lt_is_Some_2 _ _ Hei) as [x1 Hx1].
  destruct (lookup_lt_is_Some_2 _ _ Het) as [x2 Hx2].
  destruct (table_ok_lookup _ _ _ _ Hok Hx1) as [Hin1 _].
  destruct (table_ok_lookup _ _ _ _ Hok Hx2) as [Hin2 _].
  pose proof (table_ok_ids_ne _ _ _ _ _ _ Hok Hne Hx1 Hx2) as Hids.
  assert (x1 ≠ x2) as Hx12 by (by intros ->).
  unfold swap_edge.parallel_check_target in Hpar. cbv zeta in Hpar.
  destruct (is_adjacent (source _ _) _ _) eqn:Ha1; [done|].
  destruct (is_adjacent (ref_source _ _ _) _ _) eqn:Ha2; [done|]. clear Hpar.
  rewrite swap_target_unfold in Hswap by done. cbv zeta in Hswap.
  unfold ref_source, ref_target, source, target in *.
  rewrite (list_lookup_total_correct _ _ _ Hx1) in *.
  rewrite (list_lookup_total_correct _ _ _ Hx2) in *.
  injection Hswap as _ Hg. rewrite <- Hg. clear Hg.
  set (d := is_directed (_g rs)) in *.
  set (ne := mk_edge (e_source x1) _ (next_id (_g rs))).
  set (nte := if et.2 then _ else _).
  set (rest := filter _ (filter _ (edge_list (_g rs)))).
  assert (∀ z, z ∈ rest → z ∈ edge_list (_g rs)) as Hrest.
  { intros z Hz. apply list_elem_of_filter in Hz as [_ Hz].
    by apply list_elem_of_filter in Hz as [_ Hz]. }
  assert (∀ z, z ∈ edge_list (_g rs) → ¬ same_ends d z ne) as F1.
  { intros z Hz Hs. eapply (is_adjacent_false _ _ _ z Ha1 Hz). exact Hs. }
  assert (∀ z, z ∈ edge_list (_g rs) → ¬ same_ends d z nte) as F2.
  { intros z Hz Hs. eapply (is_adjacent_false _ _ _ z Ha2 Hz).
    subst nte. destruct (et.2) eqn:Hf.
    - assert (d = false) as Hd.
      { destruct d eqn:Hd; [|done]. by specialize (Hflip eq_refl). }
      fold d. rewrite Hd in *. simpl in Hs.
      destruct Hs as [[? ?]|(_ & ? & ?)]; [right|left]; by split_and!.
    - exact Hs. }
  assert (e_source x1 = e_target x1 → d = false → False) as Hnoloop.
  { intros Hl Hd. destruct Hkind as [Hdir|Hfree]; [congruence|].
    eapply Forall_forall in Hfree; [|exact Hin1]. done. }
  assert (¬ same_ends d ne nte) as F3.
  { intros Hs. subst ne nte. destruct (et.2) eqn:Hf.
    - assert (d = false) as Hd.
      { destruct d eqn:Hd; [|done]. by specialize (Hflip eq_refl). }
      destruct Hs as [[E1 E2]|(_ & E1 & E2)]; simpl in *.
      + by apply Hnoloop.
      + apply Hx12, Hsimple; [done..|]. right. by split_and!.
    - destruct Hs as [[E1 E2]|(Hd & E1 & E2)]; simpl in *.
      + apply Hx12, Hsimple; [done..|]. left. by split_and!.
      + by apply Hnoloop. }
  intros x y Hx Hy Hs. simpl in Hx, Hy, Hs. fold rest in Hx, Hy. fold d in Hs.
  apply elem_of_app in Hx as [Hx|Hx]; [apply elem_of_app in Hx as [Hx|Hx]|];
    rewrite ?list_elem_of_singleton in Hx;
  (apply elem_of_app in Hy as [Hy|Hy]; [apply elem_of_app in Hy as [Hy|Hy]|];
    rewrite ?list_elem_of_singleton in Hy).
  - apply Hsimple; auto.
  - subst y. destruct (F1 x); auto.
  - subst y. destruct (F2 x); auto.
  - subst x. destruct (F1 y); auto using same_ends_sym.
  - by subst.
  - subst. done.
  - subst x. destruct (F2 y); auto using same_ends_sym.
  - subst. destruct F3. by apply same_ends_sym.
  - by subst.
Qed.

(** X3. With [self_loops = false] an accepted move stores no self-loop: the
    two edges it writes join distinct vertices, so a graph without
    self-loops has none afterwards. *)
Theorem accepted_move_creates_no_loop (rs rs' : rewire_state St) dr ei parallel_edges :
  ei < length (_edges rs) →
  (RewireStrategyBase.get_target_edge (_self rs) (_edges rs) (_g rs) dr ei).1
    < length (_edges rs) →
  RewireStrategyBase.call rs dr ei false parallel_edges = (true, rs') →
  let et := RewireStrategyBase.get_target_edge (_self rs) (_edges rs) (_g rs) dr ei in
  e_source (_edges rs' !!! ei) ≠ e_target (_edges rs' !!! ei) ∧
  e_source (_edges rs' !!! et.1) ≠ e_target (_edges rs' !!! et.1) ∧
  (loop_free (_g rs) → loop_free (_g rs')).
Proof. apply call_accepted_no_loop. Qed.

(** X4. With [parallel_edges = false] an accepted move keeps a graph without
    parallel edges so, in a directed graph, and in an undirected graph that
    has no self-loop. *)
Theorem accepted_move_keeps_simple (rs rs' : rewire_state St) dr ei self_loops :
  table_ok (_edges rs) (_g rs) → ei < length (_edges rs) →
  EdgeRef_ok (_edges rs) (_g rs)
    (RewireStrategyBase.get_target_edge (_self rs) (_edges rs) (_g rs) dr ei) →
  RewireStrategyBase.call rs dr ei self_loops false = (true, rs') →
  simple (_g rs) →
  is_directed (_g rs) = true ∨ loop_free (_g rs) →
  simple (_g rs').
Proof. apply call_accepted_simple. Qed.

End constraints.

(** The Random strategy on the directed graph 0 -> 1, 2 -> 3: the proposal
    for slot 0 draws slot 1, and is accepted. *)
Lemma accepted_move_creates_no_loop_witness :
  let g := mk_graph true 4 [mk_edge 0 1 0; mk_edge 2 3 1] 2 in
  let rs := mk_state g (edge_list g) () in
  let rs' := (RewireStrategyBase.call rs (RandomRewireStrategy.mk_draws 1 false)
                0 false true).2 in
  loop_free (_g rs').
Proof.
  intros g rs rs'.
  refine (proj2 (proj2 (accepted_move_creates_no_loop rs rs'
            (RandomRewireStrategy.mk_draws 1 false) 0 true _ _ _)) _).
  - simpl. lia.
  - simpl. lia.
  - reflexivity.
  - unfold loop_free. simpl. repeat constructor; simpl; lia.
Defined.

Lemma accepted_move_keeps_simple_witness :
  let g := mk_graph true 4 [mk_edge 0 1 0; mk_edge 2 3 1] 2 in
  let rs := mk_state g (edge_list g) () in
  let rs' := (RewireStrategyBase.call rs (RandomRewireStrategy.mk_draws 1 false)
                0 true false).2 in
  simple (_g rs').
Proof.
  intros g rs rs'.
  refine (accepted_move_keeps_simple rs rs'
            (RandomRewireStrategy.mk_draws 1 false) 0 true _ _ _ _ _ _).
  - compute_done.
  - simpl. lia.
  - split; [simpl; lia|done].
  - reflexivity.
  - intros x y Hx Hy Hs. simpl in Hx, Hy, Hs.
    apply elem_of_cons in Hx as [->|Hx]; [|apply list_elem_of_singleton in Hx as ->];
    (apply elem_of_cons in Hy as [->|Hy]; [|apply list_elem_of_singleton in Hy as ->]);
    try done; destruct Hs as [[? ?]|(? & _)]; simpl in *; congruence.
  - by left.
Defined.

(** ** What a whole run keeps *)

Section main_loop_invariant.
Context {RW Dr : Type}.
Context (rewire_call : RW → Dr → nat → bool → bool → option (bool * RW)).
Context (self_loops parallel_edges persist no_sweep : bool).
Context (Inv : RW → Prop) (m : nat) (o : graph_rewire.oracle Dr).
Context (Hstep : ∀ rw i pos k ei success rw', Inv rw → ei < m →
  rewire_call rw (graph_rewire.rewire_draws o i pos k) ei self_loops parallel_edges
  = Some (success, rw') → Inv rw').

(** The [do ... while] loop keeps what every call keeps, and under
    persistence it leaves with a success only. *)
Lemma do_while_invariant fuel i pos k rw ei success rw' :
  Inv rw → ei < m →
  graph_rewire.do_while rewire_call self_loops parallel_edges persist
    fuel (graph_rewire.rewire_draws o i pos) k rw ei = Some (success, rw') →
  Inv rw' ∧ (persist = true → success = true).
Proof.
  revert k rw. induction fuel as [|fuel IH]; intros k rw HI Hei Hdo; simpl in Hdo;
    destruct (rewire_call _ _ _ _ _) as [[b rw1]|] eqn:Hcall; try done;
    pose proof (Hstep _ _ _ _ _ _ _ HI Hei Hcall) as HI1;
    destruct persist, b; simpl in Hdo; try done;
    try (injection Hdo as <- <-; by split).
  by eapply IH.
Qed.

Lemma sweep_invariant fuel i n pos st st' :
  graph_rewire.sweep rewire_call self_loops parallel_edges persist no_sweep
    fuel o i n pos st = Some st' →
  Inv (graph_rewire.rewire st) → graph_rewire.edge_pos st ≡ₚ seq 0 m →
  perm_draws_ok o m → pos + n = m →
  Inv (graph_rewire.rewire st') ∧ graph_rewire.edge_pos st' ≡ₚ seq 0 m ∧
  (persist = true → graph_rewire.pcount st' = graph_rewire.pcount st).
Proof.
  revert pos st. induction n as [|n IH]; intros pos st Hsweep HI Hperm Hdraws Hlen.
  { simpl in Hsweep. by injection Hsweep as <-. }
  simpl in Hsweep.
  assert (length (graph_rewire.edge_pos st) = m) as Hm by (by rewrite Hperm, length_seq).
  assert (pos < m) as Hpos by lia.
  pose proof (Hdraws i pos Hpos) as Hj.
  set (ep1 := graph_rewire.iter_swap (graph_rewire.edge_pos st) pos
                (pos + graph_rewire.perm_draw o i pos)) in *.
  assert (ep1 ≡ₚ seq 0 m) as Hperm1.
  { subst ep1. rewrite iter_swap_perm; [done|lia..]. }
  assert (ep1 !!! pos < m) as Hei.
  { assert (∀ v, v ∈ ep1 → v < m) as Hall.
    { intros v Hv. rewrite Hperm1 in Hv. apply elem_of_seq in Hv. lia. }
    apply Hall, list_elem_of_lookup_total_2. subst ep1.
    rewrite length_iter_swap. lia. }
  destruct (graph_rewire.do_while _ _ _ _ _ _ _ _ _) as [[success rw]|] eqn:Hdo; [|done].
  apply do_while_invariant in Hdo as [HI1 Hsucc]; [|done..].
  assert (persist = true →
          (if negb success then S (graph_rewire.pcount st) else graph_rewire.pcount st)
          = graph_rewire.pcount st) as Hpc.
  { intros Hp. by rewrite (Hsucc Hp). }
  destruct no_sweep.
  - injection Hsweep as <-. simpl. by split_and!.
  - apply IH in Hsweep as (HI' & Hperm' & Hpc'); simpl in *; [|done|done|done|lia].
    split_and!; [done..|]. intros Hp. rewrite (Hpc' Hp). by apply Hpc.
Qed.

Lemma iterate_invariant fuel n i st st' :
  graph_rewire.iterate rewire_call self_loops parallel_edges persist no_sweep
    fuel o n i st = Some st' →
  Inv (graph_rewire.rewire st) → graph_rewire.edge_pos st ≡ₚ seq 0 m →
  perm_draws_ok o m →
  Inv (graph_rewire.rewire st') ∧ graph_rewire.edge_pos st' ≡ₚ seq 0 m ∧
  (persist = true → graph_rewire.pcount st' = graph_rewire.pcount st).
Proof.
  revert i st. induction n as [|n IH]; intros i st Hit HI Hperm Hdraws.
  { simpl in Hit. by injection Hit as <-. }
  simpl in Hit.
  destruct (graph_rewire.sweep _ _ _ _ _ _ _ _ _ _ _) as [st1|] eqn:Hsweep; [|done].
  assert (length (graph_rewire.edge_pos st) = m) as Hm by (by rewrite Hperm, length_seq).
  apply sweep_invariant in Hsweep as (HI1 & Hperm1 & Hpc1); [|done|done|done|lia].
  apply IH in Hit as (HI' & Hperm' & Hpc'); [|done..].
  split_and!; [done..|]. intros Hp. by rewrite (Hpc' Hp), (Hpc1 Hp).
Qed.

End main_loop_invariant.

(** X5. The failure counter of a run that returns: it is at most the number
    of slots the run visits ([n_iter] times the number of edges, or [n_iter]
    with [no_sweep]); under persistence it is 0, since the inner loop is
    left with a success only; and [edge_pos] is still a permutation of the
    slots. *)
Theorem run_counts_failures {RW Dr : Type}
    (construct : edge_table → Graph → RW)
    (rewire_call : RW → Dr → nat → bool → bool → option (bool * RW))
    (g : Graph) (self_loops parallel_edges : bool) (iter_sweep : nat * bool)
    (persist : bool) (fuel : nat) (o : graph_rewire.oracle Dr) st' :
  perm_draws_ok o (length (edge_list g)) →
  graph_rewire.call construct rewire_call g self_loops parallel_edges
    iter_sweep persist fuel o = Some st' →
  graph_rewire.pcount st'
    ≤ iter_sweep.1 * (if iter_sweep.2 then length (edge_list g) `min` 1
                      else length (edge_list g)) ∧
  (persist = true → graph_rewire.pcount st' = 0) ∧
  graph_rewire.edge_pos st' ≡ₚ seq 0 (length (edge_list g)).
Proof.
  intros Hdraws Hrun. unfold graph_rewire.call, graph_rewire.main_loop in Hrun.
  cbv zeta in Hrun. split_and!.
  - pose proof Hrun as Hrun'.
    apply (iterate_visits _ _ _ _ _ _ _ _ _ _ _ (length (edge_list g))) in Hrun
      as (_ & sweeps & Hvis & _ & _ & _ & Hpc); [|done..].
    apply (iterate_visits_length _ _ _ _ _ _ _ _ _ _ _ (length (edge_list g))) in Hrun';
      [|done..].
    simpl in *. rewrite Hvis in Hrun'. simpl in Hrun'. lia.
  - apply (iterate_invariant _ _ _ _ _ (λ _, True) (length (edge_list g))) in Hrun
      as (_ & _ & Hpc); done.
  - apply (iterate_invariant _ _ _ _ _ (λ _, True) (length (edge_list g))) in Hrun
      as (_ & Hperm & _); done.
Qed.

(** The Random strategy, persistently, on the undirected graph 0 - 1, 2 - 3:
    one sweep, each proposal drawing slot 1 flipped. *)
Lemma run_counts_failures_witness :
  let g := mk_graph false 4 [mk_edge 0 1 0; mk_edge 2 3 1] 2 in
  let o := graph_rewire.mk_oracle (λ _ _, 0)
             (λ _ pos _, RandomRewireStrategy.mk_draws (1 - pos) true) in
  ∃ st', graph_rewire_Random g false false (1, false) true 0 o = Some st' ∧
         graph_rewire.pcount st' = 0.
Proof.
  intros g o.
  destruct (graph_rewire_Random g false false (1, false) true 0 o) as [st'|] eqn:Hrun;
    [|vm_compute in Hrun; discriminate].
  exists st'. split; [done|].
  refine (proj1 (proj2 (run_counts_failures _ _ g false false (1, false) true 0 o st'
                          _ Hrun)) eq_refl).
  intros i pos Hpos. simpl in *. lia.
Defined.

Lemma iterate_nothing_to_visit {RW Dr : Type}
    (rewire_call : RW → Dr → nat → bool → bool → option (bool * RW))
    sl pe persist no_sweep fuel o n i (st : graph_rewire.loop_state RW) :
  graph_rewire.edge_pos st = [] →
  graph_rewire.iterate rewire_call sl pe persist no_sweep fuel o n i st = Some st.
Proof.
  intros Hnil. revert i. induction n as [|n IH]; intros i; [done|].
  simpl. rewrite Hnil. simpl. apply IH.
Qed.

(** X6. A run on a graph without edges, or of no iteration, returns at once,
    whatever the strategy, the persistence and the random source: the
    strategy object is the one constructed, no proposal was made and the
    failure counter is 0. *)
Theorem run_without_work {RW Dr : Type}
    (construct : edge_table → Graph → RW)
    (rewire_call : RW → Dr → nat → bool → bool → option (bool * RW))
    (g : Graph) (self_loops parallel_edges : bool) (iter_sweep : nat * bool)
    (persist : bool) (fuel : nat) (o : graph_rewire.oracle Dr) :
  edge_list g = [] ∨ iter_sweep.1 = 0 →
  graph_rewire.call construct rewire_call g self_loops parallel_edges
    iter_sweep persist fuel o
  = Some (graph_rewire.mk_loop (construct (edge_list g) g)
            (seq 0 (length (edge_list g))) 0 []).
Proof.
  destruct iter_sweep as [n_iter no_sweep].
  unfold graph_rewire.call, graph_rewire.main_loop; simpl. intros [Hnil| ->].
  - apply iterate_nothing_to_visit. simpl. by rewrite Hnil.
  - done.
Qed.

(** The Erdos-Renyi strategy with an empty random source, persistently, on
    the graph of one vertex and no edge. *)
Lemma run_without_work_witness :
  let g := mk_graph true 1 [] 0 in
  graph_rewire_Erdos g false false (3, false) true 0
    (graph_rewire.mk_oracle (λ _ _, 0) (λ _ _ _, []))
  = Some (graph_rewire.mk_loop (ErdosRewireStrategy.construct [] g) [] 0 []).
Proof.
  intros g.
  refine (run_without_work ErdosRewireStrategy.construct ErdosRewireStrategy.call
            g false false (3, false) true 0 _ _).
  by left.
Defined.

Section edge_pair_run.
Context {St Dr : Type} `{!RewireStrategyBase.RewireStrategy St Dr}.

Lemma call_accepted_num_vertices (rs rs' : rewire_state St) dr ei sl pe :
  RewireStrategyBase.call rs dr ei sl pe = (true, rs') →
  num_vertices (_g rs') = num_vertices (_g rs).
Proof.
  intros Hcall. apply call_accepted in Hcall as (Hne & Hswap & _).
  cbv zeta in Hne, Hswap. rewrite swap_target_unfold in Hswap by done.
  cbv zeta in Hswap. by injection Hswap as _ <-.
Qed.

(** One call, accepted or not, keeps what a run keeps. *)
Lemma call_keeps_run g0 (rs rs' : rewire_state St) dr ei sl pe success :
  run_keeps g0 sl pe rs → ei < length (_edges rs) →
  EdgeRef_ok (_edges rs) (_g rs)
    (RewireStrategyBase.get_target_edge (_self rs) (_edges rs) (_g rs) dr ei) →
  RewireStrategyBase.call rs dr ei sl pe = (success, rs') →
  run_keeps g0 sl pe rs'.
Proof.
  intros (Hok & Hlen & Hdir & Hnv & Hdeg & Hloop & Hsimple) Hei Het Hcall.
  destruct success; [|by apply call_rejected in Hcall as ->].
  destruct (call_accepted_table_ok _ _ _ _ _ _ Hok Hei Het Hcall) as (Hok' & Hlen' & Hdir').
  pose proof (call_accepted_degrees _ _ _ _ _ _ Hok Hei Het Hcall) as Hdeg'.
  pose proof (call_accepted_num_vertices _ _ _ _ _ _ Hcall) as Hnv'.
  split_and!.
  - done.
  - congruence.
  - congruence.
  - congruence.
  - intros v. destruct (Hdeg' v), (Hdeg v). split; congruence.
  - intros -> Hfree.
    eapply call_accepted_no_loop; [exact Hei|apply Het|exact Hcall|by apply Hloop].
  - intros -> Hs Hkind.
    eapply call_accepted_simple; [exact Hok|exact Hei|exact Het|exact Hcall|by apply Hsimple|].
    destruct Hkind as [Hd|[-> Hfree]]; [left; congruence|right; by apply Hloop].
Qed.

(** A run keeps [run_keeps] and any property [SInv] of the strategy object
    under which the references proposed are well formed and that accepted
    moves keep. *)
Lemma edge_pair_run_keeps (construct : edge_table → Graph → St)
    (SInv : rewire_state St → Prop)
    g sl pe iter_sweep persist fuel (o : graph_rewire.oracle Dr) st' :
  graph_ok g → perm_draws_ok o (length (edge_list g)) →
  SInv (mk_state g (edge_list g) (construct (edge_list g) g)) →
  (∀ rs i pos k ei, run_keeps g sl pe rs → SInv rs → ei < length (edge_list g) →
     EdgeRef_ok (_edges rs) (_g rs)
       (RewireStrategyBase.get_target_edge (_self rs) (_edges rs) (_g rs)
          (graph_rewire.rewire_draws o i pos k) ei)) →
  (∀ rs rs' i pos k ei, run_keeps g sl pe rs → SInv rs → ei < length (edge_list g) →
     RewireStrategyBase.call rs (graph_rewire.rewire_draws o i pos k) ei sl pe
     = (true, rs') → SInv rs') →
  graph_rewire_edge_pair construct g sl pe iter_sweep persist fuel o = Some st' →
  run_keeps g sl pe (graph_rewire.rewire st') ∧ SInv (graph_rewire.rewire st').
Proof.
  intros Hg Hdraws HS0 Href Hkeep Hrun.
  unfold graph_rewire_edge_pair, graph_rewire.call, graph_rewire.main_loop in Hrun.
  cbv zeta in Hrun.
  apply (iterate_invariant _ _ _ _ _ (λ rs, run_keeps g sl pe rs ∧ SInv rs)
           (length (edge_list g))) in Hrun as (HI & _ & _); try done.
  intros rw i pos k ei success rw' [HK HS] Hei Hcall.
  injection Hcall as Hcall.
  assert (ei < length (_edges rw)) as Hei'.
  { destruct HK as (_ & -> & _). done. }
  split.
  - eapply call_keeps_run; [exact HK|exact Hei'|by apply Href|exact Hcall].
  - destruct success; [by eapply Hkeep|by apply call_rejected in Hcall as ->].
Qed.

(** Without persistence the run returns. *)
Lemma edge_pair_run_total (construct : edge_table → Graph → St)
    g sl pe iter_sweep fuel (o : graph_rewire.oracle Dr) :
  is_Some (graph_rewire_edge_pair construct g sl pe iter_sweep false fuel o).
Proof.
  unfold graph_rewire_edge_pair, graph_rewire.call, graph_rewire.main_loop.
  cbv zeta. apply iterate_total; [done|]. intros rw dr ei. by eexists.
Qed.

End edge_pair_run.

(** X7. A whole run of the Random strategy, whatever the random source
    returns within its ranges: without persistence it returns; when it
    returns, the table still lists the stored edges, there are as many edges
    and vertices, every vertex has the in- and out-degree it had, a graph
    without self-loops has none when [self_loops] is false, and a graph
    without parallel edges has none when [parallel_edges] is false (in an
    undirected graph: provided it had no self-loop and none is allowed). *)
Theorem Random_run_keeps_degrees g self_loops parallel_edges iter_sweep persist fuel
    (o : graph_rewire.oracle RandomRewireStrategy.draws) :
  graph_ok g →
  perm_draws_ok o (length (edge_list g)) →
  (∀ i pos k, RandomRewireStrategy.draws_ok (edge_list g)
                (graph_rewire.rewire_draws o i pos k)) →
  (persist = false →
   is_Some (graph_rewire_Random g self_loops parallel_edges iter_sweep persist fuel o)) ∧
  ∀ st', graph_rewire_Random g self_loops parallel_edges iter_sweep persist fuel o
         = Some st' →
    run_keeps g self_loops parallel_edges (graph_rewire.rewire st') ∧
    length (edge_list (_g (graph_rewire.rewire st'))) = length (edge_list g).
Proof.
  intros Hg Hperm Hdraws. split.
  { intros ->. apply edge_pair_run_total. }
  intros st' Hrun.
  apply (edge_pair_run_keeps _ (λ _, True)) in Hrun as [HK _]; try done.
  - split; [done|]. destruct HK as ([_ Hp] & Hlen & _). by rewrite <- Hp.
  - intros rs i pos k ei (_ & Hlen & _) _ Hei.
    apply Random_EdgeRef_ok; [by rewrite Hlen|].
    unfold RandomRewireStrategy.draws_ok in *. rewrite Hlen. apply Hdraws.
Qed.

(** Two persistent sweeps over the undirected graph 0 - 1, 2 - 3, each
    proposal drawing the other slot, flipped. *)
Lemma Random_run_keeps_degrees_witness :
  let g := mk_graph false 4 [mk_edge 0 1 0; mk_edge 2 3 1] 2 in
  let o := graph_rewire.mk_oracle (λ _ _, 0)
             (λ _ pos _, RandomRewireStrategy.mk_draws (1 - pos) true) in
  ∃ st', graph_rewire_Random g false false (2, false) true 0 o = Some st' ∧
         run_keeps g false false (graph_rewire.rewire st').
Proof.
  intros g o.
  destruct (graph_rewire_Random g false false (2, false) true 0 o) as [st'|] eqn:Hrun;
    [|vm_compute in Hrun; discriminate].
  exists st'. split; [done|].
  refine (proj1 (proj2 (Random_run_keeps_degrees g false false (2, false) true 0 o _ _ _)
                   st' Hrun)).
  - compute_done.
  - intros i pos Hpos. simpl in *. lia.
  - intros i pos k. unfold RandomRewireStrategy.draws_ok. simpl. lia.
Defined.

(** X8. A whole run of the Probabilistic strategy keeps the same, whatever
    the probabilities it is given (NaN and infinities included), cached or
    not, and whatever the block abstraction. *)
Theorem Probabilistic_run_keeps_degrees {D : Type} `{!DoubleOps D}
    {BD deg_t : Type} `{Countable deg_t} `{!BlockDeg BD deg_t}
    (corr_prob : deg_t → deg_t → D) (bd : BD) (cache : bool)
    g self_loops parallel_edges iter_sweep persist fuel
    (o : graph_rewire.oracle (ProbabilisticRewireStrategy.draws D)) :
  graph_ok g →
  perm_draws_ok o (length (edge_list g)) →
  (∀ i pos k, ProbabilisticRewireStrategy.draws_ok (edge_list g)
                (graph_rewire.rewire_draws o i pos k)) →
  (persist = false →
   is_Some (graph_rewire_Probabilistic corr_prob bd cache g self_loops parallel_edges
              iter_sweep persist fuel o)) ∧
  ∀ st', graph_rewire_Probabilistic corr_prob bd cache g self_loops parallel_edges
           iter_sweep persist fuel o = Some st' →
    run_keeps g self_loops parallel_edges (graph_rewire.rewire st') ∧
    length (edge_list (_g (graph_rewire.rewire st'))) = length (edge_list g).
Proof.
  intros Hg Hperm Hdraws. split.
  { intros ->. apply edge_pair_run_total. }
  intros st' Hrun.
  apply (edge_pair_run_keeps _ (λ _, True)) in Hrun as [HK _]; try done.
  - split; [done|]. destruct HK as ([_ Hp] & Hlen & _). by rewrite <- Hp.
  - intros rs i pos k ei (_ & Hlen & _) _ Hei.
    apply Probabilistic_EdgeRef_ok; [by rewrite Hlen|].
    unfold ProbabilisticRewireStrategy.draws_ok in *. rewrite Hlen. apply Hdraws.
Qed.

(** One sweep over the directed graph 0 -> 1, 2 -> 3 under the property blocks
    {0, 1} and {2, 3} with a probability that is not a number. *)
Lemma Probabilistic_run_keeps_degrees_witness :
  let ops := binary64 (λ x, x) (λ x, x) in
  let pb := Build_PropertyBlock (λ v, bool_decide (2 ≤ v)) in
  let g := mk_graph true 4 [mk_edge 0 1 0; mk_edge 2 3 1] 2 in
  let o := graph_rewire.mk_oracle (λ _ _, 0)
             (λ _ pos _, ProbabilisticRewireStrategy.mk_draws (1 - pos) false 0%float) in
  ∃ st', @graph_rewire_Probabilistic float ops (PropertyBlock bool) bool _ _ _
           (λ _ _, nan) pb true g false false (1, false) false 0 o = Some st' ∧
         run_keeps g false false (graph_rewire.rewire st').
Proof.
  intros ops pb g o.
  destruct (@graph_rewire_Probabilistic float ops (PropertyBlock bool) bool _ _ _
              (λ _ _, nan) pb true g false false (1, false) false 0 o)
    as [st'|] eqn:Hrun; [|vm_compute in Hrun; discriminate].
  exists st'. split; [done|].
  refine (proj1 (proj2 (@Probabilistic_run_keeps_degrees float ops (PropertyBlock bool) bool
                     _ _ _ (λ _ _, nan) pb true g false false (1, false) false 0 o _ _ _)
                   st' Hrun)).
  - compute_done.
  - intros i pos Hpos. simpl in *. lia.
  - intros i pos k. unfold ProbabilisticRewireStrategy.draws_ok. simpl. lia.
Defined.

(** ** A whole run of the Correlated strategy *)

(** Degree pairs kept slot by slot are kept as a multiset over the edges. *)
Lemma slotwise_block_pairs edges g edges' g' :
  table_ok edges g → table_ok edges' g' → length edges' = length edges →
  (∀ j, deg_pair g' (source (edges' !!! j) g') = deg_pair g (source (edges !!! j) g) ∧
        deg_pair g' (target (edges' !!! j) g') = deg_pair g (target (edges !!! j) g)) →
  block_pairs Build_DegreeBlock g' ≡ₚ block_pairs Build_DegreeBlock g.
Proof.
  intros [_ Hp] [_ Hp'] Hlen Hslots. unfold block_pairs. rewrite <- Hp, <- Hp'.
  assert ((λ e, (get_block Build_DegreeBlock (source e g') g',
                 get_block Build_DegreeBlock (target e g') g')) <$> edges'
          = (λ e, (get_block Build_DegreeBlock (source e g) g,
                   get_block Build_DegreeBlock (target e g) g)) <$> edges) as ->; [|done].
  apply list_eq. intros j. rewrite !list_lookup_fmap.
  destruct (edges !! j) as [x|] eqn:Hx.
  - assert (is_Some (edges' !! j)) as [x' Hx'].
    { apply lookup_lt_is_Some. rewrite Hlen. by eapply lookup_lt_Some. }
    rewrite Hx'. simpl. f_equal. destruct (Hslots j) as [H1 H2].
    rewrite (list_lookup_total_correct _ _ _ Hx) in H1, H2.
    rewrite (list_lookup_total_correct _ _ _ Hx') in H1, H2.
    unfold get_block, DegreeBlock_get_block. unfold deg_pair in H1, H2.
    by rewrite H1, H2.
  - assert (edges' !! j = None) as ->; [|done].
    apply lookup_ge_None. rewrite Hlen. by apply lookup_ge_None.
Qed.

(** An accepted move of the Correlated strategy leaves its buckets as they
    are, still valid, and the degree pairs of the two ends of every slot. *)
Lemma Correlated_call_accepted_keeps
    (rs rs' : rewire_state (gmap (nat * nat) (list EdgeRef))) sample ei sl pe :
  table_ok (_edges rs) (_g rs) → ei < length (_edges rs) →
  by_target_ok (_self rs) (_edges rs) (_g rs) →
  CorrelatedRewireStrategy.draws_ok (_self rs) (_edges rs) (_g rs) ei sample →
  RewireStrategyBase.call rs sample ei sl pe = (true, rs') →
  _self rs' = _self rs ∧
  by_target_ok (_self rs') (_edges rs') (_g rs') ∧
  ∀ j, deg_pair (_g rs') (source (_edges rs' !!! j) (_g rs'))
       = deg_pair (_g rs) (source (_edges rs !!! j) (_g rs)) ∧
       deg_pair (_g rs') (target (_edges rs' !!! j) (_g rs'))
       = deg_pair (_g rs) (target (_edges rs !!! j) (_g rs)).
Proof.
  intros Hok Hei Hinv Hdr Hcall.
  destruct (Correlated_EdgeRef_ok _ _ _ _ _ Hinv Hdr) as [Het Hdeg].
  set (et := CorrelatedRewireStrategy.get_target_edge _ _ _ _ _) in *.
  fold (deg_pair (_g rs)) in Hdeg.
  destruct (@call_accepted_table_ok _ _ CorrelatedRewireStrategy.strategy
              rs rs' sample ei _ _ Hok Hei Het Hcall) as (Hok' & Hlen & Hdir).
  pose proof (@call_accepted_self _ _ CorrelatedRewireStrategy.strategy
                rs rs' sample ei _ _ Hcall) as Hself. simpl in Hself.
  apply call_accepted in Hcall as (Hne & Hswap & _). cbv zeta in Hne, Hswap.
  change (RewireStrategyBase.get_target_edge (_self rs) (_edges rs) (_g rs) sample ei)
    with et in Hne, Hswap.
  pose proof (swap_target_deg_pairs _ _ _ _ _ _ Hok Hei Het Hdeg Hswap) as Hslots.
  split_and!; [done| |done].
  rewrite Hself. intros tdeg et' Hin.
  destruct (Hinv tdeg et' Hin) as [[Hr Hf] Ht]. split.
  - split; [by rewrite Hlen|by rewrite Hdir].
  - fold (deg_pair (_g rs)) in Ht. fold (deg_pair (_g rs')).
    rewrite <- Ht. revert Hslots. unfold ref_target.
    intros Hslots. destruct (Hslots (et'.1)) as [H1 H2].
    by destruct (et'.2).
Qed.

(** A call with draws in range is the call of the source. *)
Lemma in_range_call_Some {St Dr : Type} `{!RewireStrategyBase.RewireStrategy St Dr}
    (in_range : rewire_state St → nat → Dr → Prop)
    `{!∀ rs ei dr, Decision (in_range rs ei dr)} rs dr ei sl pe x :
  in_range_call in_range rs dr ei sl pe = Some x ↔
  in_range rs ei dr ∧ RewireStrategyBase.call rs dr ei sl pe = x.
Proof.
  unfold in_range_call. destruct (decide (in_range rs ei dr)) as [Hin|Hout].
  - split; [intros [= <-]; by split|intros [_ <-]; done].
  - split; [done|intros [Hin _]; done].
Qed.

(** A run of the loops with a strategy call that returns less often returns
    what the run with the other call returns. *)
Section main_loop_refines.
Context {RW Dr : Type}.
Context (call1 call2 : RW → Dr → nat → bool → bool → option (bool * RW)).
Context (self_loops parallel_edges persist no_sweep : bool).
Context (Href : ∀ rw dr ei x, call1 rw dr ei self_loops parallel_edges = Some x →
                              call2 rw dr ei self_loops parallel_edges = Some x).

Lemma do_while_refines fuel draws k rw ei x :
  graph_rewire.do_while call1 self_loops parallel_edges persist fuel draws k rw ei = Some x →
  graph_rewire.do_while call2 self_loops parallel_edges persist fuel draws k rw ei = Some x.
Proof.
  revert k rw. induction fuel as [|fuel IH]; intros k rw Hdo; simpl in *;
    destruct (call1 rw (draws k) ei self_loops parallel_edges) as [[b rw1]|] eqn:Hcall;
    try done; rewrite (Href _ _ _ _ Hcall); destruct (persist && negb b); try done.
  by apply IH.
Qed.

Lemma sweep_refines fuel o i n pos st st' :
  graph_rewire.sweep call1 self_loops parallel_edges persist no_sweep fuel o i n pos st
  = Some st' →
  graph_rewire.sweep call2 self_loops parallel_edges persist no_sweep fuel o i n pos st
  = Some st'.
Proof.
  revert pos st. induction n as [|n IH]; intros pos st Hsweep; [done|].
  simpl in *.
  destruct (graph_rewire.do_while call1 _ _ _ _ _ _ _ _) as [[success rw]|] eqn:Hdo; [|done].
  rewrite (do_while_refines _ _ _ _ _ _ Hdo).
  destruct no_sweep; [done|by apply IH].
Qed.

Lemma iterate_refines fuel o n i st st' :
  graph_rewire.iterate call1 self_loops parallel_edges persist no_sweep fuel o n i st
  = Some st' →
  graph_rewire.iterate call2 self_loops parallel_edges persist no_sweep fuel o n i st
  = Some st'.
Proof.
  revert i st. induction n as [|n IH]; intros i st Hit; [done|].
  simpl in *.
  destruct (graph_rewire.sweep call1 _ _ _ _ _ _ _ _ _ _) as [st1|] eqn:Hsweep; [|done].
  rewrite (sweep_refines _ _ _ _ _ _ _ Hsweep). by apply IH.
Qed.

End main_loop_refines.

(** Without persistence, a run returns when every call made in a state that
    the run can reach returns. *)
Section main_loop_total_under.
Context {RW Dr : Type}.
Context (rewire_call : RW → Dr → nat → bool → bool → option (bool * RW)).
Context (self_loops parallel_edges no_sweep : bool).
Context (Inv : RW → Prop) (m : nat) (o : graph_rewire.oracle Dr).
Context (Hstep : ∀ rw i pos ei success rw', Inv rw → ei < m →
  rewire_call rw (graph_rewire.rewire_draws o i pos 0) ei self_loops parallel_edges
  = Some (success, rw') → Inv rw').
Context (Htot : ∀ rw i pos ei, Inv rw → ei < m →
  is_Some (rewire_call rw (graph_rewire.rewire_draws o i pos 0) ei
             self_loops parallel_edges)).

Lemma sweep_total_under fuel i n pos st :
  Inv (graph_rewire.rewire st) → graph_rewire.edge_pos st ≡ₚ seq 0 m →
  perm_draws_ok o m → pos + n = m →
  ∃ st', graph_rewire.sweep rewire_call self_loops parallel_edges false no_sweep
           fuel o i n pos st = Some st' ∧
         Inv (graph_rewire.rewire st') ∧ graph_rewire.edge_pos st' ≡ₚ seq 0 m.
Proof.
  revert pos st. induction n as [|n IH]; intros pos st HI Hperm Hdraws Hlen.
  { by exists st. }
  simpl. rewrite do_while_once by done.
  assert (length (graph_rewire.edge_pos st) = m) as Hm by (by rewrite Hperm, length_seq).
  assert (pos < m) as Hpos by lia.
  pose proof (Hdraws i pos Hpos) as Hj.
  set (ep1 := graph_rewire.iter_swap (graph_rewire.edge_pos st) pos
                (pos + graph_rewire.perm_draw o i pos)) in *.
  assert (ep1 ≡ₚ seq 0 m) as Hperm1.
  { subst ep1. rewrite iter_swap_perm; [done|lia..]. }
  assert (ep1 !!! pos < m) as Hei.
  { assert (∀ v, v ∈ ep1 → v < m) as Hall.
    { intros v Hv. rewrite Hperm1 in Hv. apply elem_of_seq in Hv. lia. }
    apply Hall, list_elem_of_lookup_total_2. subst ep1.
    rewrite length_iter_swap. lia. }
  destruct (Htot (graph_rewire.rewire st) i pos (ep1 !!! pos) HI Hei)
    as [[success rw] Hcall].
  rewrite Hcall. pose proof (Hstep _ _ _ _ _ _ HI Hei Hcall) as HI1.
  destruct no_sweep.
  - eexists. by split_and!.
  - apply IH; simpl; [done|done|done|lia].
Qed.

Lemma iterate_total_under fuel n i st :
  Inv (graph_rewire.rewire st) → graph_rewire.edge_pos st ≡ₚ seq 0 m →
  perm_draws_ok o m →
  is_Some (graph_rewire.iterate rewire_call self_loops parallel_edges false no_sweep
             fuel o n i st).
Proof.
  revert i st. induction n as [|n IH]; intros i st HI Hperm Hdraws; [done|].
  simpl.
  assert (length (graph_rewire.edge_pos st) = m) as Hm by (by rewrite Hperm, length_seq).
  destruct (sweep_total_under fuel i (length (graph_rewire.edge_pos st)) 0 st)
    as (st1 & -> & HI1 & Hperm1); [done|done|done|lia|].
  by apply IH.
Qed.

End main_loop_total_under.

Lemma Correlated_kept_construct g sl pe :
  graph_ok g →
  Correlated_kept g sl pe
    (mk_state g (edge_list g) (CorrelatedRewireStrategy.construct (edge_list g) g)).
Proof.
  intros Hg. split; [|split_and!; [done|apply Correlated_construct_ok|done]].
  unfold run_keeps. simpl. by split_and!.
Qed.

Lemma Correlated_kept_call g sl pe rs sample ei success rs' :
  Correlated_kept g sl pe rs → ei < length (edge_list g) →
  CorrelatedRewireStrategy.draws_ok (_self rs) (_edges rs) (_g rs) ei sample →
  RewireStrategyBase.call rs sample ei sl pe = (success, rs') →
  Correlated_kept g sl pe rs'.
Proof.
  intros (HK & Hself & Hinv & Hslots) Hei Hd Hcall.
  assert (ei < length (_edges rs)) as Hei'.
  { destruct HK as (_ & -> & _). done. }
  destruct success; [|by apply call_rejected in Hcall as ->].
  split.
  { eapply call_keeps_run; [exact HK|exact Hei'| |exact Hcall].
    by eapply Correlated_EdgeRef_ok. }
  destruct HK as (Hok & _).
  destruct (Correlated_call_accepted_keeps rs rs' _ ei _ _ Hok Hei' Hinv Hd Hcall)
    as (Hself1 & Hinv1 & Hslots1).
  split_and!; [congruence|done|].
  intros j. destruct (Hslots1 j) as [-> ->]. apply Hslots.
Qed.

(** X9. A whole run of the Correlated strategy all of whose draws are in
    range, that is, at every call [sample] is an index of the bucket that the
    call reads for the slot it visits. Such a run returns what the code
    returns, and then, beside what every run of a target-swapping strategy
    keeps, every slot of the table joins vertices of the degree pairs it
    joined at the start, so the multiset of the degree pairs of the ends of
    the edges is that of the input graph, and the buckets are those the
    constructor built. Without persistence the run returns when the first
    draw of every position is an index of the bucket of every slot. *)
Theorem Correlated_run_keeps_degree_pairs g self_loops parallel_edges iter_sweep
    persist fuel (o : graph_rewire.oracle nat) :
  graph_ok g →
  perm_draws_ok o (length (edge_list g)) →
  ((∀ i pos ei, ei < length (edge_list g) →
      CorrelatedRewireStrategy.draws_ok
        (CorrelatedRewireStrategy.construct (edge_list g) g) (edge_list g) g ei
        (graph_rewire.rewire_draws o i pos 0)) →
   persist = false →
   is_Some (graph_rewire_Correlated_in_range g self_loops parallel_edges iter_sweep
              persist fuel o)) ∧
  ∀ st', graph_rewire_Correlated_in_range g self_loops parallel_edges iter_sweep
           persist fuel o = Some st' →
    let rs' := graph_rewire.rewire st' in
    graph_rewire_Correlated g self_loops parallel_edges iter_sweep persist fuel o
    = Some st' ∧
    run_keeps g self_loops parallel_edges rs' ∧
    _self rs' = CorrelatedRewireStrategy.construct (edge_list g) g ∧
    (∀ j, deg_pair (_g rs') (source (_edges rs' !!! j) (_g rs'))
          = deg_pair g (source (edge_list g !!! j) g) ∧
          deg_pair (_g rs') (target (_edges rs' !!! j) (_g rs'))
          = deg_pair g (target (edge_list g !!! j) g)) ∧
    block_pairs Build_DegreeBlock (_g rs') ≡ₚ block_pairs Build_DegreeBlock g.
Proof.
  intros Hg Hperm.
  pose proof (Correlated_kept_construct g self_loops parallel_edges Hg) as H0.
  split.
  - intros Hdraws ->.
    unfold graph_rewire_Correlated_in_range, graph_rewire.call, graph_rewire.main_loop.
    cbv zeta.
    apply (iterate_total_under _ _ _ _ (Correlated_kept g self_loops parallel_edges)
             (length (edge_list g))); try done.
    + intros rw i pos ei success rw' HI Hei Hcall.
      apply in_range_call_Some in Hcall as [Hd Hcall].
      by eapply Correlated_kept_call.
    + intros rw i pos ei (_ & Hself & _ & Hslots) Hei.
      exists (RewireStrategyBase.call rw (graph_rewire.rewire_draws o i pos 0) ei
                self_loops parallel_edges).
      apply in_range_call_Some. split; [|done].
      specialize (Hdraws i pos ei Hei). revert Hdraws.
      unfold CorrelatedRewireStrategy.draws_ok. cbv zeta.
      destruct (Hslots ei) as [_ Ht]. unfold deg_pair in Ht.
      by rewrite Hself, Ht.
  - intros st' Hrun rs'. split.
    { revert Hrun.
      unfold graph_rewire_Correlated_in_range, graph_rewire_Correlated,
        graph_rewire_edge_pair, graph_rewire.call, graph_rewire.main_loop.
      cbv zeta. apply iterate_refines.
      intros rw dr ei x Hcall. apply in_range_call_Some in Hcall as [_ <-]. done. }
    unfold graph_rewire_Correlated_in_range, graph_rewire.call, graph_rewire.main_loop
      in Hrun.
    cbv zeta in Hrun.
    apply (iterate_invariant _ _ _ _ _ (Correlated_kept g self_loops parallel_edges)
             (length (edge_list g))) in Hrun as ((HK & Hself & _ & Hslots) & _ & _);
      try done.
    + fold rs' in HK, Hself, Hslots. split_and!; [done..|].
      destruct HK as (Hok' & Hlen & _).
      apply (slotwise_block_pairs (edge_list g) g (_edges rs') (_g rs')); try done.
    + intros rw i pos k ei success rw' HI Hei Hcall.
      apply in_range_call_Some in Hcall as [Hd Hcall].
      by eapply Correlated_kept_call.
Qed.

(** One sweep over the directed graph 0 -> 1, 2 -> 3, 4 -> 5, 6 -> 5, 7 -> 5:
    the bucket of the first two slots has two entries and that of the others
    three. The draw made for slot 2 is the index 2, which is no index of the
    bucket of slot 0. *)
Lemma Correlated_run_keeps_degree_pairs_witness :
  let g := mk_graph true 8 [mk_edge 0 1 0; mk_edge 2 3 1; mk_edge 4 5 2;
                            mk_edge 6 5 3; mk_edge 7 5 4] 5 in
  let o := graph_rewire.mk_oracle (λ _ _, 0)
             (λ _ pos _, match pos with 0 => 1 | 2 => 2 | _ => 0 end) in
  ¬ CorrelatedRewireStrategy.draws_ok
      (CorrelatedRewireStrategy.construct (edge_list g) g) (edge_list g) g 0
      (graph_rewire.rewire_draws o 0 2 0) ∧
  ∃ st', graph_rewire_Correlated_in_range g false true (1, false) false 0 o = Some st' ∧
         graph_rewire_Correlated g false true (1, false) false 0 o = Some st' ∧
         edge_list (_g (graph_rewire.rewire st')) ≠ edge_list g ∧
         block_pairs Build_DegreeBlock (_g (graph_rewire.rewire st'))
         ≡ₚ block_pairs Build_DegreeBlock g.
Proof.
  intros g o. split.
  { unfold CorrelatedRewireStrategy.draws_ok. vm_compute. lia. }
  destruct (graph_rewire_Correlated_in_range g false true (1, false) false 0 o)
    as [st'|] eqn:Hrun; [|vm_compute in Hrun; discriminate].
  exists st'. split; [done|].
  assert (graph_ok g) as Hg by compute_done.
  assert (perm_draws_ok o (length (edge_list g))) as Hperm.
  { intros i pos Hpos. simpl in *. lia. }
  pose proof (proj2 (Correlated_run_keeps_degree_pairs g false true (1, false) false 0 o
                       Hg Hperm) st' Hrun) as (Hplain & _ & _ & _ & Hpairs).
  split_and!; [done| |done].
  vm_compute in Hrun. injection Hrun as <-. vm_compute. discriminate.
Defined.

(** ** The strategies that replace one edge *)

(** What [operator()] of the Erdos-Renyi and of the traditional block model
    strategies does once the checks are passed: the edge of slot [ei] is
    removed, an edge from [s] to [t] is added and filed in the slot. *)
Lemma replace_edge_keeps edges g ei s t :
  table_ok edges g → ei < length edges →
  let r := add_edge s t (remove_edge (edges !!! ei) g) in
  let edges' := <[ei := r.1]> edges in
  table_ok edges' r.2 ∧ length edges' = length edges ∧
  length (edge_list r.2) = length (edge_list g) ∧
  is_directed r.2 = is_directed g ∧ num_vertices r.2 = num_vertices g ∧
  source (edges' !!! ei) r.2 = s ∧ target (edges' !!! ei) r.2 = t ∧
  (∀ j, j ≠ ei → edges' !!! j = edges !!! j) ∧
  (s ≠ t → loop_free g → loop_free r.2) ∧
  (is_adjacent s t g = false → simple g → simple r.2) ∧
  (s < num_vertices g → t < num_vertices g → ends_in_range g → ends_in_range r.2).
Proof.
  intros Hok Hei. cbv zeta. unfold add_edge, remove_edge. simpl.
  destruct (lookup_lt_is_Some_2 _ _ Hei) as [x Hx].
  rewrite (list_lookup_total_correct _ _ _ Hx).
  set (ne := mk_edge s t (next_id g)).
  destruct (table_ok_lookup _ _ _ _ Hok Hx) as [Hin Hlt].
  pose proof (table_ok_NoDup _ _ Hok) as Hnd.
  pose proof Hok as [[Hndg Hltg] Hp].
  assert (<[ei:=ne]> edges ≡ₚ filter (λ z, e_id z ≠ e_id x) edges ++ [ne]) as H1.
  { apply insert_fresh_perm; [done..|]. simpl. lia. }
  assert (∀ z, z ∈ filter (λ z, e_id z ≠ e_id x) (edge_list g) → z ∈ edge_list g) as Hsub.
  { intros z Hz. by apply list_elem_of_filter in Hz as [_ Hz]. }
  split_and!.
  - split; [split|]; simpl.
    + rewrite fmap_app. simpl. apply NoDup_app. split_and!.
      * eapply sublist_NoDup; [exact Hndg|]. apply fmap_sublist, sublist_filter.
      * intros a Ha Ha'. apply list_elem_of_singleton in Ha' as ->.
        apply list_elem_of_fmap in Ha as (z & Hz & Hzin). apply Hsub in Hzin.
        eapply Forall_forall in Hltg; [|done]. lia.
      * apply NoDup_singleton.
    + rewrite Forall_app. split.
      * apply Forall_forall. intros z Hz. apply Hsub in Hz.
        eapply Forall_forall in Hltg; [|done]. lia.
      * apply Forall_singleton. simpl. lia.
    + by rewrite H1, Hp.
  - by rewrite length_insert.
  - rewrite <- Hp at 2. rewrite <- (length_insert edges ei ne).
    by rewrite H1, Hp.
  - done.
  - done.
  - by rewrite list_lookup_total_insert_eq.
  - by rewrite list_lookup_total_insert_eq.
  - intros j Hj. by rewrite list_lookup_total_insert_ne.
  - intros Hst Hfree. unfold loop_free. simpl. rewrite Forall_app. split.
    + apply Forall_forall. intros z Hz. apply Hsub in Hz.
      by eapply Forall_forall in Hfree.
    + by apply Forall_singleton.
  - intros Hadj Hsimple y z Hy Hz Hs. simpl in Hy, Hz, Hs.
    assert (∀ w, w ∈ edge_list g → ¬ same_ends (is_directed g) w ne) as Hnew.
    { intros w Hw Hsw. eapply (is_adjacent_false _ _ _ w Hadj Hw). exact Hsw. }
    apply elem_of_app in Hy as [Hy|Hy]; apply elem_of_app in Hz as [Hz|Hz];
      rewrite ?list_elem_of_singleton in Hy; rewrite ?list_elem_of_singleton in Hz.
    + apply Hsimple; auto.
    + subst z. destruct (Hnew y); auto.
    + subst y. destruct (Hnew z); auto using same_ends_sym.
    + by subst.
  - intros Hs Ht Hrange. unfold ends_in_range. simpl. rewrite Forall_app. split.
    + apply Forall_forall. intros z Hz. apply Hsub in Hz.
      by eapply Forall_forall in Hrange.
    + by apply Forall_singleton.
Qed.

Lemma Erdos_pick_Some self_loops draws s t :
  ErdosRewireStrategy.pick self_loops draws = Some (s, t) →
  (s, t) ∈ draws ∧ (self_loops = false → s ≠ t).
Proof.
  induction draws as [|[s' t'] draws IH]; [done|]. simpl.
  destruct (bool_decide (s' = t') && negb self_loops) eqn:Hc.
  - intros Hp. destruct (IH Hp) as [Hin Hne]. split; [by right|done].
  - intros [= -> ->]. split; [by left|]. intros ->. simpl in Hc.
    rewrite andb_true_r in Hc. by apply bool_decide_eq_false in Hc.
Qed.

(** The pair picked is the first one drawn that is not a forbidden
    self-loop: every pair before it is one. *)
Lemma Erdos_pick_first self_loops draws s t :
  ErdosRewireStrategy.pick self_loops draws = Some (s, t) →
  ∃ skipped rest, draws = skipped ++ (s, t) :: rest ∧
    Forall (λ p, p.1 = p.2 ∧ self_loops = false) skipped ∧
    (self_loops = false → s ≠ t).
Proof.
  induction draws as [|[s' t'] draws IH]; [done|]. simpl.
  destruct (bool_decide (s' = t') && negb self_loops) eqn:Hc.
  - intros Hp. destruct (IH Hp) as (skipped & rest & -> & Hall & Hne).
    exists ((s', t') :: skipped), rest. split_and!; [done| |done].
    apply Forall_cons. split; [|done]. simpl.
    apply andb_true_iff in Hc as [Hst Hsl]. apply bool_decide_eq_true in Hst.
    by destruct self_loops.
  - intros [= -> ->]. exists [], draws. split_and!; [done|by constructor|].
    intros ->. simpl in Hc. rewrite andb_true_r in Hc.
    by apply bool_decide_eq_false in Hc.
Qed.

Lemma Erdos_pick_None self_loops draws :
  ErdosRewireStrategy.pick self_loops draws = None ↔
  self_loops = false ∧ Forall (λ st, st.1 = st.2) draws ∨ draws = [].
Proof.
  induction draws as [|[s t] draws IH]; simpl.
  - split; [by right|done].
  - destruct self_loops; simpl in *.
    + rewrite andb_false_r. split; [done|]. by intros [[? _]|?].
    + rewrite andb_true_r. case_bool_decide as Hst.
      * rewrite IH. split.
        -- intros [[_ Hall]| ->]; left; split; try done; by constructor.
        -- intros [[_ Hall]|?]; [|done]. apply Forall_cons in Hall as [_ Hall].
           left. done.
      * split; [done|]. intros [[_ Hall]|?]; [|done].
        apply Forall_cons in Hall as [Heq _]. done.
Qed.

Lemma Erdos_call_accepted rs rs' draws ei self_loops parallel_edges :
  ErdosRewireStrategy.call rs draws ei self_loops parallel_edges = Some (true, rs') →
  ∃ s t, ErdosRewireStrategy.pick self_loops draws = Some (s, t) ∧
    (parallel_edges = false → is_adjacent s t (_g rs) = false) ∧
    let r := add_edge s t (remove_edge (_edges rs !!! ei) (_g rs)) in
    rs' = mk_state r.2 (<[ei := r.1]> (_edges rs)) (_self rs).
Proof.
  unfold ErdosRewireStrategy.call.
  destruct (ErdosRewireStrategy.pick _ _) as [[s t]|]; [|done].
  destruct (negb parallel_edges && _) eqn:Hpe; [done|].
  intros [= <-]. exists s, t. split_and!; [done| |done].
  intros ->. by simpl in Hpe.
Qed.

(** One call of the Erdos-Renyi strategy that returns keeps what a run
    keeps. *)
Lemma Erdos_call_keeps g0 rs rs' draws ei sl pe success :
  replace_keeps g0 sl pe rs → ei < length (_edges rs) →
  ErdosRewireStrategy.call rs draws ei sl pe = Some (success, rs') →
  replace_keeps g0 sl pe rs' ∧ _self rs' = _self rs.
Proof.
  intros HK Hei Hcall.
  destruct success; [|by apply Erdos_call_rejected in Hcall as ->].
  apply Erdos_call_accepted in Hcall as (s & t & Hpick & Hpar & ->).
  apply Erdos_pick_Some in Hpick as [_ Hloop].
  destruct HK as (Hok & Hlen & HlenE & Hdir & Hnv & Hfree & Hsimple).
  destruct (replace_edge_keeps _ _ ei s t Hok Hei)
    as (Hok' & Hlen' & HlenE' & Hdir' & Hnv' & _ & _ & _ & Hfree' & Hsimple' & _).
  cbv zeta in *. split; [|done]. unfold replace_keeps. cbn [_g _edges _self].
  split_and!; try congruence.
  - intros Hsl Hf. apply Hfree'; auto.
  - intros Hp Hs. apply Hsimple'; auto.
Qed.

(** Without persistence the loops return as soon as the calls made with the
    draws of the random source do. *)
Lemma sweep_total_on {RW Dr : Type}
    (rewire_call : RW → Dr → nat → bool → bool → option (bool * RW))
    sl pe no_sweep fuel (o : graph_rewire.oracle Dr) i n pos st :
  (∀ rw i pos ei, is_Some (rewire_call rw (graph_rewire.rewire_draws o i pos 0) ei sl pe)) →
  is_Some (graph_rewire.sweep rewire_call sl pe false no_sweep fuel o i n pos st).
Proof.
  intros Htot. revert pos st. induction n as [|n IH]; intros pos st; [done|].
  simpl. rewrite do_while_once by done.
  destruct (Htot (graph_rewire.rewire st) i pos
              (graph_rewire.iter_swap (graph_rewire.edge_pos st) pos
                 (pos + graph_rewire.perm_draw o i pos) !!! pos)) as [[success rw] ->].
  destruct no_sweep; [done|apply IH].
Qed.

Lemma iterate_total_on {RW Dr : Type}
    (rewire_call : RW → Dr → nat → bool → bool → option (bool * RW))
    sl pe no_sweep fuel (o : graph_rewire.oracle Dr) n i st :
  (∀ rw i pos ei, is_Some (rewire_call rw (graph_rewire.rewire_draws o i pos 0) ei sl pe)) →
  is_Some (graph_rewire.iterate rewire_call sl pe false no_sweep fuel o n i st).
Proof.
  intros Htot. revert i st. induction n as [|n IH]; intros i st; [done|].
  simpl.
  destruct (sweep_total_on rewire_call sl pe no_sweep fuel o i
              (length (graph_rewire.edge_pos st)) 0 st Htot) as [st1 ->].
  apply IH.
Qed.

(** X10. An accepted move of the Erdos-Renyi strategy: slot [ei] now holds an
    edge between the first pair of vertices drawn that is not a forbidden
    self-loop (every pair drawn before it is one), a pair that no edge
    joined when [parallel_edges] is false; the other slots are as they were,
    the table still lists the stored edges, and there are as many of
    them. *)
Theorem Erdos_accepted_move rs rs' draws ei self_loops parallel_edges :
  table_ok (_edges rs) (_g rs) → ei < length (_edges rs) →
  ErdosRewireStrategy.call rs draws ei self_loops parallel_edges = Some (true, rs') →
  ∃ s t,
    (∃ skipped rest, draws = skipped ++ (s, t) :: rest ∧
       Forall (λ p, p.1 = p.2 ∧ self_loops = false) skipped) ∧
    (self_loops = false → s ≠ t) ∧
    (parallel_edges = false → is_adjacent s t (_g rs) = false) ∧
    source (_edges rs' !!! ei) (_g rs') = s ∧
    target (_edges rs' !!! ei) (_g rs') = t ∧
    (∀ j, j ≠ ei → _edges rs' !!! j = _edges rs !!! j) ∧
    table_ok (_edges rs') (_g rs') ∧
    length (edge_list (_g rs')) = length (edge_list (_g rs)) ∧
    _self rs' = _self rs.
Proof.
  intros Hok Hei Hcall.
  apply Erdos_call_accepted in Hcall as (s & t & Hpick & Hpar & ->).
  apply Erdos_pick_first in Hpick as (skipped & rest & Hdraws & Hskipped & Hloop).
  destruct (replace_edge_keeps _ _ ei s t Hok Hei)
    as (Hok' & _ & HlenE' & _ & _ & Hs & Ht & Hoth & _).
  exists s, t. cbv zeta in *. cbn [_g _edges _self].
  split; [by exists skipped, rest|]. by split_and!.
Qed.

(** On the graph 0 -> 1 with a third vertex: the first pair drawn, (2, 2), is
    a self-loop and is passed over; the second, (1, 2), replaces the edge of
    slot 0. *)
Lemma Erdos_accepted_move_witness :
  let g := mk_graph true 3 [mk_edge 0 1 0] 1 in
  let rs := ErdosRewireStrategy.construct (edge_list g) g in
  ∃ rs', ErdosRewireStrategy.call rs [(2, 2); (1, 2)] 0 false false = Some (true, rs') ∧
         source (_edges rs' !!! 0) (_g rs') = 1 ∧
         target (_edges rs' !!! 0) (_g rs') = 2 ∧
         length (edge_list (_g rs')) = 1.
Proof.
  intros g rs. eexists. split; [reflexivity|].
  destruct (Erdos_accepted_move rs _ [(2, 2); (1, 2)] 0 false false
              ltac:(compute_done) ltac:(simpl; lia) eq_refl)
    as (s & t & (skipped & rest & Hdraws & _) & Hne & _ & Hs & Ht & _ & _ & Hlen & _).
  assert (s = 1 ∧ t = 2) as [-> ->].
  { destruct skipped as [|p1 [|p2 skipped]]; simpl in Hdraws.
    - injection Hdraws as <- <- _. by destruct (Hne eq_refl).
    - by injection Hdraws as _ <- <- _.
    - injection Hdraws as _ _ Hnil. by destruct skipped. }
  split_and!; [exact Hs|exact Ht|exact Hlen].
Defined.

(** X11. The [while (true)] loop of the Erdos-Renyi strategy is left exactly
    when a pair is drawn that is not a forbidden self-loop: the call returns
    if and only if the rounds contain such a pair. On a graph with one
    vertex and with [self_loops] false, no sequence of draws makes it
    return. *)
Theorem Erdos_call_returns rs draws ei self_loops parallel_edges :
  (is_Some (ErdosRewireStrategy.call rs draws ei self_loops parallel_edges) ↔
   ∃ s t, (s, t) ∈ draws ∧ (self_loops = true ∨ s ≠ t)) ∧
  (length (_self rs) = 1 → self_loops = false →
   ErdosRewireStrategy.draws_ok rs draws →
   ErdosRewireStrategy.call rs draws ei self_loops parallel_edges = None).
Proof.
  assert (is_Some (ErdosRewireStrategy.call rs draws ei self_loops parallel_edges) ↔
          is_Some (ErdosRewireStrategy.pick self_loops draws)) as Hcall.
  { unfold ErdosRewireStrategy.call.
    destruct (ErdosRewireStrategy.pick _ _) as [[s t]|]; [|done].
    split; [by eexists|]. intros _.
    destruct (negb parallel_edges && _); by eexists. }
  split.
  - rewrite Hcall. split.
    + intros [[s t] Hp]. pose proof (Erdos_pick_Some _ _ _ _ Hp) as [Hin Hne].
      exists s, t. split; [done|]. destruct self_loops; [by left|right; by apply Hne].
    + intros (s & t & Hin & Hallowed).
      destruct (ErdosRewireStrategy.pick self_loops draws) as [p|] eqn:Hp; [by eexists|].
      apply Erdos_pick_None in Hp as [[-> Hall]| ->]; [|by apply elem_of_nil in Hin].
      eapply Forall_forall in Hall; [|exact Hin]. simpl in Hall.
      by destruct Hallowed.
  - intros Hone -> Hdr.
    destruct (ErdosRewireStrategy.call rs draws ei false parallel_edges) eqn:Hc; [|done].
    assert (is_Some (ErdosRewireStrategy.pick false draws)) as [[s t] Hp].
    { apply Hcall. by eexists. }
    apply Erdos_pick_Some in Hp as [Hin Hne].
    unfold ErdosRewireStrategy.draws_ok in Hdr. rewrite Hone in Hdr.
    eapply Forall_forall in Hdr; [|exact Hin]. simpl in Hdr.
    destruct (Hne eq_refl). lia.
Qed.

(** X12. A whole run of the Erdos-Renyi strategy. Without persistence it
    returns when every proposal is given a pair of vertices that is not a
    forbidden self-loop. When it returns, the table lists the stored edges,
    there are as many edges and vertices as at the start, a graph without
    self-loops has none when [self_loops] is false, a graph without parallel
    edges has none when [parallel_edges] is false, and the end points of the
    edges are vertices of the graph when they were and the draws are within
    the range of [sample]. The degrees are not kept. *)
Theorem Erdos_run_keeps g self_loops parallel_edges iter_sweep persist fuel
    (o : graph_rewire.oracle (list (nat * nat))) :
  graph_ok g → perm_draws_ok o (length (edge_list g)) →
  (persist = false →
   (∀ i pos, is_Some (ErdosRewireStrategy.pick self_loops
                        (graph_rewire.rewire_draws o i pos 0))) →
   is_Some (graph_rewire_Erdos g self_loops parallel_edges iter_sweep persist fuel o)) ∧
  ∀ st', graph_rewire_Erdos g self_loops parallel_edges iter_sweep persist fuel o
         = Some st' →
    let rs' := graph_rewire.rewire st' in
    replace_keeps g self_loops parallel_edges rs' ∧
    _self rs' = seq 0 (num_vertices g) ∧
    (1 ≤ num_vertices g → ends_in_range g →
     (∀ i pos k, ErdosRewireStrategy.draws_ok
                   (ErdosRewireStrategy.construct (edge_list g) g)
                   (graph_rewire.rewire_draws o i pos k)) →
     ends_in_range (_g rs')).
Proof.
  intros Hg Hperm. split.
  { intros -> Hpick. unfold graph_rewire_Erdos, graph_rewire.call, graph_rewire.main_loop.
    cbv zeta. apply iterate_total_on. intros rw i pos ei.
    unfold ErdosRewireStrategy.call. destruct (Hpick i pos) as [[s t] ->].
    destruct (negb parallel_edges && _); by eexists. }
  intros st' Hrun rs'.
  unfold graph_rewire_Erdos, graph_rewire.call, graph_rewire.main_loop in Hrun.
  cbv zeta in Hrun.
  set (P := 1 ≤ num_vertices g ∧ ends_in_range g ∧
            ∀ i pos k, ErdosRewireStrategy.draws_ok
                         (ErdosRewireStrategy.construct (edge_list g) g)
                         (graph_rewire.rewire_draws o i pos k)).
  apply (iterate_invariant _ _ _ _ _
           (λ rs, replace_keeps g self_loops parallel_edges rs ∧
                  _self rs = seq 0 (num_vertices g) ∧
                  (P → ends_in_range (_g rs)))
           (length (edge_list g))) in Hrun as ((HK & Hself & Hrange) & _ & _);
    try done.
  - fold rs' in HK, Hself, Hrange. split; [done|]. split; [done|].
    intros Hn Hr Hdr. by apply Hrange.
  - intros rw i pos k ei success rw' (HK & Hself & Hrange) Hei Hcall.
    assert (ei < length (_edges rw)) as Hei'.
    { destruct HK as (_ & -> & _). done. }
    destruct (Erdos_call_keeps _ _ _ _ _ _ _ _ HK Hei' Hcall) as [HK' Hself'].
    split; [done|]. split; [etrans; [exact Hself'|exact Hself]|]. intros HP.
    destruct success; [|apply Erdos_call_rejected in Hcall as ->; by apply Hrange].
    apply Erdos_call_accepted in Hcall as (s & t & Hpick & _ & ->).
    apply Erdos_pick_Some in Hpick as [Hin _].
    pose proof HP as (Hn & Hr & Hdr). specialize (Hdr i pos k).
    unfold ErdosRewireStrategy.draws_ok in Hdr. simpl in Hdr. rewrite length_seq in Hdr.
    eapply Forall_forall in Hdr; [|exact Hin]. simpl in Hdr.
    destruct HK as (Hok & _ & _ & _ & Hnv & _).
    destruct (replace_edge_keeps _ _ ei s t Hok Hei') as (_ & _ & _ & _ & _ & _ & _ & _ & _ & _ & Hin').
    cbv zeta in *. cbn [_g]. apply Hin'; [lia|lia|]. by apply Hrange.
  - simpl. split; [|split; [done|by intros (_ & ? & _)]].
    unfold replace_keeps. simpl. by split_and!.
Qed.

(** One sweep over the graph 0 -> 1, 1 -> 2 on three vertices: the first
    proposal draws the forbidden pair (2, 2), then (2, 0); the second
    draws (0, 2). *)
Lemma Erdos_run_keeps_witness :
  let g := mk_graph true 3 [mk_edge 0 1 0; mk_edge 1 2 1] 2 in
  let o := graph_rewire.mk_oracle (λ _ _, 0)
             (λ _ pos _, if pos is 0 then [(2, 2); (2, 0)] else [(0, 2)]) in
  ∃ st', graph_rewire_Erdos g false false (1, false) false 0 o = Some st' ∧
         replace_keeps g false false (graph_rewire.rewire st') ∧
         ends_in_range (_g (graph_rewire.rewire st')).
Proof.
  intros g o.
  pose proof (Erdos_run_keeps g false false (1, false) false 0 o
                ltac:(compute_done) ltac:(intros i pos Hpos; simpl in *; lia)) as [Htot Hkeeps].
  destruct (graph_rewire_Erdos g false false (1, false) false 0 o) as [st'|] eqn:Hrun;
    [|vm_compute in Hrun; discriminate].
  exists st'. split; [done|].
  destruct (Hkeeps st' eq_refl) as (HK & _ & Hrange). split; [done|].
  apply Hrange.
  - simpl. lia.
  - unfold ends_in_range. simpl. repeat constructor; simpl; lia.
  - intros i [|pos] k; unfold ErdosRewireStrategy.draws_ok; simpl;
      repeat constructor; simpl; lia.
Defined.

(** ** The traditional block model strategy *)

Section trad_block.
Context {D : Type} `{!DoubleOps D}.
Context {BD deg_t : Type} `{Countable deg_t} `{!Inhabited deg_t} `{!BlockDeg BD deg_t}.

(** The constructor's first loop files every vertex under its block, and
    creates no empty list. *)
Lemma TradBlock_vertices_filed (bd : BD) g n :
  let m := foldl (λ (m : gmap deg_t (list vertex_t)) v,
                    push_back (get_block bd v g) v m) ∅ (seq 0 n) in
  (∀ d v, v ∈ bucket m d ↔ v < n ∧ get_block bd v g = d) ∧
  (∀ d, is_Some (m !! d) → bucket m d ≠ []).
Proof.
  induction n as [|n IH]; cbv zeta.
  { simpl. split.
    - intros d v. rewrite bucket_empty. split; [by intros ?%elem_of_nil|lia].
    - intros d [l Hl]. by rewrite lookup_empty in Hl. }
  rewrite seq_S, foldl_app. simpl. cbv zeta in IH. revert IH.
  generalize (foldl (λ (m : gmap deg_t (list vertex_t)) v,
                       push_back (get_block bd v g) v m) ∅ (seq 0 n)).
  intros m [IH1 IH2]. split.
  - intros d v. rewrite elem_of_bucket_push_back, IH1. split.
    + intros [[? ?]|[? ->]]; split; [lia|done|lia|done].
    + intros [Hv Hd]. destruct (decide (v = n)) as [->|Hne]; [by right|left].
      split; [lia|done].
  - intros d Hd. rewrite bucket_push_back.
    destruct (decide (get_block bd n g = d)) as [Heq|Hne].
    + by intros ?%app_eq_nil%proj2.
    + apply IH2. unfold push_back in Hd. by rewrite lookup_insert_ne in Hd.
Qed.

(** The constructor's second loop lists every ordered pair of keys. *)
Lemma TradBlock_weights_items (corr_prob : deg_t → deg_t → D) keys :
  (TradBlockRewireStrategy.weights corr_prob keys).1
  = keys ≫= (λ s, (λ t, (s, t)) <$> keys).
Proof.
  unfold TradBlockRewireStrategy.weights.
  assert (∀ s l (acc : list (deg_t * deg_t) * list D),
            (foldl (λ '(_items, probs) t_iter,
                      let p := corr_prob s t_iter in
                      let p := if d_isnan p || d_isinf p || d_lt p d_zero
                               then d_zero else p in
                      (_items ++ [(s, t_iter)], probs ++ [p])) acc l).1
            = acc.1 ++ ((λ t, (s, t)) <$> l)) as Hinner.
  { intros s l. induction l as [|t l IH]; intros [items probs]; simpl.
    - by rewrite app_nil_r.
    - rewrite IH. simpl. by rewrite <- app_assoc. }
  assert (∀ l (acc : list (deg_t * deg_t) * list D),
            (foldl (λ acc s_iter,
                      foldl (λ '(_items, probs) t_iter,
                               let p := corr_prob s_iter t_iter in
                               let p := if d_isnan p || d_isinf p || d_lt p d_zero
                                        then d_zero else p in
                               (_items ++ [(s_iter, t_iter)], probs ++ [p]))
                            acc keys) acc l).1
            = acc.1 ++ (l ≫= (λ s, (λ t, (s, t)) <$> keys))) as Houter.
  { induction l as [|s l IH]; intros acc; simpl.
    - by rewrite app_nil_r.
    - rewrite IH, Hinner. by rewrite <- app_assoc. }
  by rewrite Houter.
Qed.

Lemma TradBlock_construct_filed edges g (corr_prob : deg_t → deg_t → D) (bd : BD) :
  let self := _self (TradBlockRewireStrategy.construct edges g corr_prob bd) in
  (∀ d v, v ∈ bucket (TradBlockRewireStrategy._vertices self) d ↔
          v < num_vertices g ∧ get_block bd v g = d) ∧
  s_items (TradBlockRewireStrategy._sampler self) = TradBlockRewireStrategy._items self ∧
  (∀ s t, (s, t) ∈ TradBlockRewireStrategy._items self ↔
          (∃ u, u < num_vertices g ∧ get_block bd u g = s) ∧
          (∃ v, v < num_vertices g ∧ get_block bd v g = t)) ∧
  (∀ deg, deg ∈ TradBlockRewireStrategy._items self →
          bucket (TradBlockRewireStrategy._vertices self) deg.1 ≠ [] ∧
          bucket (TradBlockRewireStrategy._vertices self) deg.2 ≠ []).
Proof.
  unfold TradBlockRewireStrategy.construct. cbv zeta.
  destruct (TradBlock_vertices_filed bd g (num_vertices g)) as [Hfiled Hne].
  cbv zeta in Hfiled, Hne. revert Hfiled Hne.
  generalize (foldl (λ (m : gmap deg_t (list vertex_t)) v,
                       push_back (get_block bd v g) v m) ∅ (seq 0 (num_vertices g))).
  intros m Hfiled Hne.
  pose proof (TradBlock_weights_items corr_prob (map_to_list m).*1) as Hitems.
  destruct (TradBlockRewireStrategy.weights corr_prob (map_to_list m).*1)
    as [items probs]. simpl in *. subst items.
  assert (∀ d, d ∈ (map_to_list m).*1 ↔ ∃ u, u < num_vertices g ∧ get_block bd u g = d)
    as Hkeys.
  { intros d. rewrite list_elem_of_fmap. split.
    - intros ([d' l] & -> & Hin). apply elem_of_map_to_list in Hin. simpl.
      assert (bucket m d' ≠ []) as Hl by (apply Hne; by eexists).
      destruct (bucket m d') as [|u l'] eqn:Hb; [done|].
      exists u. apply Hfiled. rewrite Hb. by left.
    - intros (u & Hu & Hd). assert (u ∈ bucket m d) as Hin by (by apply Hfiled).
      unfold bucket in Hin. destruct (m !! d) as [l|] eqn:Hl.
      + exists (d, l). split; [done|]. by apply elem_of_map_to_list.
      + by apply elem_of_nil in Hin. }
  assert (∀ s t, (s, t) ∈ (map_to_list m).*1 ≫= (λ s, (λ t, (s, t)) <$> (map_to_list m).*1)
                 ↔ s ∈ (map_to_list m).*1 ∧ t ∈ (map_to_list m).*1) as Hpairs.
  { intros s t. rewrite list_elem_of_bind. split.
    - intros (s' & Hst & Hs). apply list_elem_of_fmap in Hst as (t' & [= -> ->] & Ht).
      done.
    - intros [Hs Ht]. exists s. split; [|done]. apply list_elem_of_fmap. by exists t. }
  split_and!; [done|done| |].
  - intros s t. by rewrite Hpairs, !Hkeys.
  - intros [s t] Hin. apply Hpairs in Hin as [Hs Ht]. simpl.
    apply Hkeys in Hs as (u & Hu & Hus). apply Hkeys in Ht as (v & Hv & Hvt).
    split; intros Hnil.
    + assert (u ∈ bucket m s) as Hin by (by apply Hfiled). rewrite Hnil in Hin.
      by apply elem_of_nil in Hin.
    + assert (v ∈ bucket m t) as Hin by (by apply Hfiled). rewrite Hnil in Hin.
      by apply elem_of_nil in Hin.
Qed.

(** X13. The constructor of the traditional block model strategy: the list
    [_vertices[d]] holds exactly the vertices of block [d]; [_items], which
    the sampler draws from, lists the ordered pairs of the blocks that occur
    among the vertices; so both lists that a sampled pair selects are
    non-empty. *)
Theorem TradBlock_construct_vertices edges g (corr_prob : deg_t → deg_t → D) (bd : BD) :
  let self := _self (TradBlockRewireStrategy.construct edges g corr_prob bd) in
  (∀ d v, v ∈ bucket (TradBlockRewireStrategy._vertices self) d ↔
          v < num_vertices g ∧ get_block bd v g = d) ∧
  s_items (TradBlockRewireStrategy._sampler self) = TradBlockRewireStrategy._items self ∧
  (∀ s t, (s, t) ∈ TradBlockRewireStrategy._items self ↔
          (∃ u, u < num_vertices g ∧ get_block bd u g = s) ∧
          (∃ v, v < num_vertices g ∧ get_block bd v g = t)) ∧
  (∀ deg, deg ∈ TradBlockRewireStrategy._items self →
          bucket (TradBlockRewireStrategy._vertices self) deg.1 ≠ [] ∧
          bucket (TradBlockRewireStrategy._vertices self) deg.2 ≠ []).
Proof. apply TradBlock_construct_filed. Qed.

Lemma TradBlock_call_accepted (rs rs' : rewire_state (TradBlockRewireStrategy.t D BD deg_t))
    dr ei self_loops parallel_edges :
  TradBlockRewireStrategy.call rs dr ei self_loops parallel_edges = (true, rs') →
  let deg := sample (TradBlockRewireStrategy._sampler (_self rs))
                    (TradBlockRewireStrategy.d_deg dr) in
  ∃ s t,
    s = bucket (TradBlockRewireStrategy._vertices (_self rs)) deg.1
          !!! TradBlockRewireStrategy.d_s_sample dr ∧
    t = bucket (TradBlockRewireStrategy._vertices (_self rs)) deg.2
          !!! TradBlockRewireStrategy.d_t_sample dr ∧
    (self_loops = false → s ≠ t) ∧
    (parallel_edges = false → is_adjacent s t (_g rs) = false) ∧
    let r := add_edge s t (remove_edge (_edges rs !!! ei) (_g rs)) in
    rs' = mk_state r.2 (<[ei := r.1]> (_edges rs)) (_self rs).
Proof.
  unfold TradBlockRewireStrategy.call. cbv zeta.
  destruct (negb self_loops && _) eqn:Hsl; [done|].
  destruct (negb parallel_edges && _) eqn:Hpe; [done|].
  intros [= <-]. eexists _, _. split; [done|]. split; [done|]. split; [|split; [|done]].
  - intros ->. simpl in Hsl. by apply bool_decide_eq_false in Hsl.
  - intros ->. by simpl in Hpe.
Qed.

(** One call of the traditional block model strategy keeps what a run
    keeps. *)
Lemma TradBlock_call_keeps g0 (rs rs' : rewire_state (TradBlockRewireStrategy.t D BD deg_t))
    dr ei sl pe success :
  replace_keeps g0 sl pe rs → ei < length (_edges rs) →
  TradBlockRewireStrategy.call rs dr ei sl pe = (success, rs') →
  replace_keeps g0 sl pe rs' ∧ _self rs' = _self rs.
Proof.
  intros HK Hei Hcall.
  destruct success; [|by apply TradBlock_call_rejected in Hcall as ->].
  apply TradBlock_call_accepted in Hcall as (s & t & _ & _ & Hloop & Hpar & ->).
  destruct HK as (Hok & Hlen & HlenE & Hdir & Hnv & Hfree & Hsimple).
  destruct (replace_edge_keeps _ _ ei s t Hok Hei)
    as (Hok' & Hlen' & HlenE' & Hdir' & Hnv' & _ & _ & _ & Hfree' & Hsimple' & _).
  cbv zeta in *. split; [|done]. unfold replace_keeps. cbn [_g _edges _self].
  split_and!; try congruence.
  - intros Hsl Hf. apply Hfree'; auto.
  - intros Hp Hs. apply Hsimple'; auto.
Qed.

(** The vertices that valid draws select on the object constructed on [g0]. *)
Lemma TradBlock_drawn_vertices edges0 g0 (corr_prob : deg_t → deg_t → D) (bd : BD)
    (self : TradBlockRewireStrategy.t D BD deg_t) dr :
  self = _self (TradBlockRewireStrategy.construct edges0 g0 corr_prob bd) →
  TradBlock_draws_ok self dr →
  let deg := sample (TradBlockRewireStrategy._sampler self)
                    (TradBlockRewireStrategy.d_deg dr) in
  let s : vertex_t := bucket (TradBlockRewireStrategy._vertices self) deg.1
             !!! TradBlockRewireStrategy.d_s_sample dr in
  let t : vertex_t := bucket (TradBlockRewireStrategy._vertices self) deg.2
             !!! TradBlockRewireStrategy.d_t_sample dr in
  deg ∈ TradBlockRewireStrategy._items self ∧
  (s < num_vertices g0 ∧ get_block bd s g0 = deg.1) ∧
  (t < num_vertices g0 ∧ get_block bd t g0 = deg.2).
Proof.
  intros Hself (Hdeg & Hs & Ht) deg s t.
  destruct (TradBlock_construct_filed edges0 g0 corr_prob bd)
    as (Hfiled & Hitems & _). cbv zeta in Hfiled, Hitems.
  rewrite <- Hself in Hfiled, Hitems.
  split; [|split].
  - rewrite <- Hitems. by apply list_elem_of_lookup_total_2.
  - apply Hfiled. by apply list_elem_of_lookup_total_2.
  - apply Hfiled. by apply list_elem_of_lookup_total_2.
Qed.

End trad_block.

Section trad_block_moves.
Context {D : Type} `{!DoubleOps D}.
Context {BD deg_t : Type} `{Countable deg_t} `{!Inhabited deg_t} `{!BlockDeg BD deg_t}.

(** X14. An accepted move of the traditional block model strategy, on the
    object constructed on [g0] and with draws within their ranges: slot [ei]
    now holds an edge from a vertex of the first block of the pair sampled
    to a vertex of its second block (blocks as the constructor read them
    on [g0]), both vertices of the graph and distinct when [self_loops] is
    false; the other slots are as they were, the table still lists the
    stored edges, and there are as many of them. *)
Theorem TradBlock_accepted_move edges0 g0 (corr_prob : deg_t → deg_t → D) (bd : BD)
    (rs rs' : rewire_state (TradBlockRewireStrategy.t D BD deg_t))
    dr ei self_loops parallel_edges :
  _self rs = _self (TradBlockRewireStrategy.construct edges0 g0 corr_prob bd) →
  table_ok (_edges rs) (_g rs) → ei < length (_edges rs) →
  TradBlock_draws_ok (_self rs) dr →
  TradBlockRewireStrategy.call rs dr ei self_loops parallel_edges = (true, rs') →
  let deg := sample (TradBlockRewireStrategy._sampler (_self rs))
                    (TradBlockRewireStrategy.d_deg dr) in
  let s := source (_edges rs' !!! ei) (_g rs') in
  let t := target (_edges rs' !!! ei) (_g rs') in
  deg ∈ TradBlockRewireStrategy._items (_self rs) ∧
  (s < num_vertices g0 ∧ get_block bd s g0 = deg.1) ∧
  (t < num_vertices g0 ∧ get_block bd t g0 = deg.2) ∧
  (self_loops = false → s ≠ t) ∧
  (parallel_edges = false → is_adjacent s t (_g rs) = false) ∧
  (∀ j, j ≠ ei → _edges rs' !!! j = _edges rs !!! j) ∧
  table_ok (_edges rs') (_g rs') ∧
  length (edge_list (_g rs')) = length (edge_list (_g rs)) ∧
  _self rs' = _self rs.
Proof.
  intros Hself Hok Hei Hdr Hcall.
  apply TradBlock_call_accepted in Hcall as (s & t & Hs & Ht & Hloop & Hpar & ->).
  destruct (TradBlock_drawn_vertices edges0 g0 corr_prob bd _ dr Hself Hdr)
    as (Hin & Hsv & Htv).
  cbv zeta in *. rewrite <- Hs in Hsv. rewrite <- Ht in Htv.
  destruct Hsv as [Hsv1 Hsv2]. destruct Htv as [Htv1 Htv2].
  destruct (replace_edge_keeps _ _ ei s t Hok Hei)
    as (Hok' & _ & HlenE' & _ & _ & Hs' & Ht' & Hoth & _).
  cbv zeta in *. cbn [_g _edges _self]. rewrite Hs', Ht'.
  by split_and!.
Qed.

(** X15. A whole run of the traditional block model strategy. Without
    persistence it returns. When it returns, the table lists the stored
    edges, there are as many edges and vertices as at the start, a graph
    without self-loops has none when [self_loops] is false, a graph without
    parallel edges has none when [parallel_edges] is false, the strategy
    object is the one constructed, and the end points of the edges are
    vertices of the graph when they were and the draws are within their
    ranges. *)
Theorem TradBlock_run_keeps (corr_prob : deg_t → deg_t → D) (bd : BD)
    g self_loops parallel_edges iter_sweep persist fuel
    (o : graph_rewire.oracle TradBlockRewireStrategy.draws) :
  graph_ok g → perm_draws_ok o (length (edge_list g)) →
  (persist = false →
   is_Some (graph_rewire_TradBlock corr_prob bd g self_loops parallel_edges
              iter_sweep persist fuel o)) ∧
  ∀ st', graph_rewire_TradBlock corr_prob bd g self_loops parallel_edges
           iter_sweep persist fuel o = Some st' →
    let rs0 := TradBlockRewireStrategy.construct (edge_list g) g corr_prob bd in
    let rs' := graph_rewire.rewire st' in
    replace_keeps g self_loops parallel_edges rs' ∧
    _self rs' = _self rs0 ∧
    (ends_in_range g →
     (∀ i pos k, TradBlock_draws_ok (_self rs0) (graph_rewire.rewire_draws o i pos k)) →
     ends_in_range (_g rs')).
Proof.
  intros Hg Hperm. split.
  { intros ->. unfold graph_rewire_TradBlock, graph_rewire.call, graph_rewire.main_loop.
    cbv zeta. apply iterate_total; [done|]. intros rw dr ei. by eexists. }
  intros st' Hrun rs0 rs'.
  unfold graph_rewire_TradBlock, graph_rewire.call, graph_rewire.main_loop in Hrun.
  cbv zeta in Hrun. fold rs0 in Hrun.
  set (P := ends_in_range g ∧
            ∀ i pos k, TradBlock_draws_ok (_self rs0) (graph_rewire.rewire_draws o i pos k)).
  assert (_g rs0 = g ∧ _edges rs0 = edge_list g) as [Hg0 He0].
  { subst rs0. unfold TradBlockRewireStrategy.construct. cbv zeta.
    by destruct (TradBlockRewireStrategy.weights _ _). }
  apply (iterate_invariant _ _ _ _ _
           (λ rs, replace_keeps g self_loops parallel_edges rs ∧
                  _self rs = _self rs0 ∧
                  (P → ends_in_range (_g rs)))
           (length (edge_list g))) in Hrun as ((HK & Hself & Hrange) & _ & _);
    try done.
  - fold rs' in HK, Hself, Hrange. split; [done|]. split; [done|].
    intros Hr Hdr. by apply Hrange.
  - intros rw i pos k ei success rw' (HK & Hself & Hrange) Hei [= Hcall].
    assert (ei < length (_edges rw)) as Hei'.
    { destruct HK as (_ & -> & _). done. }
    destruct (TradBlock_call_keeps _ _ _ _ _ _ _ _ HK Hei' Hcall) as [HK' Hself'].
    split; [done|]. split; [etrans; [exact Hself'|exact Hself]|]. intros HP.
    destruct success; [|apply TradBlock_call_rejected in Hcall as ->; by apply Hrange].
    apply TradBlock_call_accepted in Hcall as (s & t & Hs & Ht & _ & _ & ->).
    pose proof HP as (Hr & Hdr). specialize (Hdr i pos k).
    rewrite <- Hself in Hdr.
    destruct (TradBlock_drawn_vertices (edge_list g) g corr_prob bd _ _ Hself Hdr)
      as (_ & [Hsv _] & [Htv _]).
    cbv zeta in *. rewrite <- Hs in Hsv. rewrite <- Ht in Htv.
    destruct HK as (Hok & _ & _ & _ & Hnv & _).
    destruct (replace_edge_keeps _ _ ei s t Hok Hei')
      as (_ & _ & _ & _ & _ & _ & _ & _ & _ & _ & Hin').
    cbv zeta in *. cbn [_g]. apply Hin'; [lia|lia|]. by apply Hrange.
  - simpl. split; [|split; [done|by intros (? & _); rewrite Hg0]].
    unfold replace_keeps. rewrite Hg0, He0. by split_and!.
Qed.

End trad_block_moves.

(** The object constructed on the graph 0 -> 1 on three vertices under the
    property blocks {0}, {1, 2}; the pair of blocks sampled is the first
    item, and the first vertex of each block is drawn. *)
Lemma TradBlock_accepted_move_witness :
  let ops := binary64 (λ x, x) (λ x, x) in
  let pb := Build_PropertyBlock (λ v, bool_decide (1 ≤ v)) in
  let g := mk_graph true 3 [mk_edge 0 1 0] 1 in
  let rs := @TradBlockRewireStrategy.construct float ops (PropertyBlock bool) bool
              _ _ _ (edge_list g) g (λ _ _, 1%float) pb in
  let dr := TradBlockRewireStrategy.mk_draws 0 0 0 in
  let rs' := (TradBlockRewireStrategy.call rs dr 0 true true).2 in
  table_ok (_edges rs') (_g rs').
Proof.
  intros ops pb g rs dr rs'.
  refine (proj1 (proj2 (proj2 (proj2 (proj2 (proj2 (proj2
            (@TradBlock_accepted_move float ops (PropertyBlock bool) bool _ _ _ _
               (edge_list g) g (λ _ _, 1%float) pb rs rs' dr 0 true true
               eq_refl _ _ _ _)))))))).
  - compute_done.
  - vm_compute. repeat constructor.
  - vm_compute. repeat split; repeat constructor.
  - by vm_compute.
Defined.

(** One sweep over the graph 0 -> 1, 1 -> 2 on three vertices under the
    property blocks {0}, {1, 2}: each proposal samples the first pair of
    blocks and the first vertex of each. *)
Lemma TradBlock_run_keeps_witness :
  let ops := binary64 (λ x, x) (λ x, x) in
  let pb := Build_PropertyBlock (λ v, bool_decide (1 ≤ v)) in
  let g := mk_graph true 3 [mk_edge 0 1 0; mk_edge 1 2 1] 2 in
  let o := graph_rewire.mk_oracle (λ _ _, 0)
             (λ _ _ _, TradBlockRewireStrategy.mk_draws 0 0 0) in
  ∃ st', @graph_rewire_TradBlock float ops (PropertyBlock bool) bool _ _ _ _
           (λ _ _, 1%float) pb g true true (1, false) false 0 o = Some st' ∧
         replace_keeps g true true (graph_rewire.rewire st').
Proof.
  intros ops pb g o.
  pose proof (@TradBlock_run_keeps float ops (PropertyBlock bool) bool _ _ _ _
                (λ _ _, 1%float) pb g true true (1, false) false 0 o
                ltac:(compute_done) ltac:(intros i pos Hpos; simpl in *; lia))
    as [_ Hkeeps].
  destruct (@graph_rewire_TradBlock float ops (PropertyBlock bool) bool _ _ _ _
              (λ _ _, 1%float) pb g true true (1, false) false 0 o) as [st'|] eqn:Hrun;
    [|vm_compute in Hrun; discriminate].
  exists st'. split; [done|].
  exact (proj1 (Hkeeps st' eq_refl)).
Defined.

(** ** The sign of the probabilities in binary64 *)

(** X16. In binary64, a probability as the Probabilistic and Alias strategies
    store and use it (sanitized in two steps) is a positive finite number:
    not NaN, not infinite, and above zero. A weight of the traditional block
    model's sampler (first step only) is not NaN, not infinite and at least
    zero. *)
Theorem binary64_probabilities_positive (fexp flog : float → float) (p : float) :
  let ops := binary64 fexp flog in
  let q := @spec_sanitized float ops p in
  let w := @spec_coerce_invalid float ops p in
  (PrimFloat.is_nan q = false ∧ PrimFloat.is_infinity q = false ∧
   PrimFloat.ltb 0 q = true) ∧
  (PrimFloat.is_nan w = false ∧ PrimFloat.is_infinity w = false ∧
   PrimFloat.leb 0 w = true).
Proof.
  intros ops q w.
  destruct (binary64_sanitized fexp flog p) as (Hw & Hq & _).
  fold ops in Hw, Hq. fold q in Hq. fold w in Hw.
  destruct (PrimFloat.is_nan p) eqn:Hnan; simpl in Hw, Hq.
  { rewrite Hw, Hq. by vm_compute. }
  destruct (PrimFloat.is_infinity p) eqn:Hinf; simpl in Hw, Hq.
  { rewrite Hw, Hq. by vm_compute. }
  destruct (PrimFloat.ltb p 0) eqn:Hlt.
  { rewrite Hw, Hq. by vm_compute. }
  destruct (binary64_positive p Hnan Hlt) as [Hle Hpos].
  rewrite Hw. split; [|done].
  destruct (PrimFloat.eqb p 0) eqn:Hz; rewrite Hq.
  - by vm_compute.
  - split_and!; [done..|]. by apply Hpos.
Qed.

(** ** The bookkeeping of the Alias strategy in an undirected graph *)

Lemma filed_at_ext {K} `{Countable K} (key key' : nat → K) n absent m pos :
  (∀ i, i < n → i ∉ absent → key' i = key i) →
  filed_at key n absent m pos → filed_at key' n absent m pos.
Proof.
  intros Hext [Hlen Hf]. split; [done|]. intros b p i. rewrite Hf.
  split; intros (Hi & Ha & Hk & Hp); split_and!; try done.
  - by rewrite Hext.
  - by rewrite <- Hext.
Qed.

Lemma filed_at_filed {K} `{Countable K} (key : nat → K) n m pos :
  filed_at key n [] m pos → filed key n m pos.
Proof.
  intros [Hlen Hf]. split.
  - intros b i. rewrite list_elem_of_lookup. split.
    + intros [p Hp]. apply Hf in Hp as (? & _ & ? & _). done.
    + intros [Hi Hk]. exists (pos !!! i). apply Hf. split_and!; try done.
      apply not_elem_of_nil.
  - intros i Hi. apply Hf. split_and!; try done. apply not_elem_of_nil.
Qed.

Lemma lookup_bucket_push_back {K} `{Countable K} (m : gmap K (list nat)) d e b p i :
  bucket (push_back d e m) b !! p = Some i ↔
  bucket m b !! p = Some i ∨ (b = d ∧ p = length (bucket m d) ∧ i = e).
Proof.
  rewrite bucket_push_back. destruct (decide (d = b)) as [->|Hne].
  - rewrite lookup_app_Some, list_lookup_singleton_Some. split.
    + intros [?|(Hle & Hp & ->)]; [by left|right]. split_and!; [done|lia|done].
    + intros [?|(_ & -> & ->)]; [by left|right]. split_and!; [lia|lia|done].
  - split; [by left|]. intros [?|(-> & _)]; done.
Qed.

(** The insert hook files an absent slot. *)
Lemma filed_at_insert {K} `{Countable K} (key : nat → K) n absent absent' m pos e :
  filed_at key n absent m pos → e < n → e ∉ absent' →
  (∀ i, i ∈ absent ↔ i = e ∨ i ∈ absent') →
  filed_at key n absent' (push_back (key e) e m)
           (<[e := length (bucket (push_back (key e) e m) (key e)) - 1]> pos).
Proof.
  intros [Hlen Hf] He He' Habs. split; [by rewrite length_insert|].
  intros b p i. rewrite lookup_bucket_push_back, Hf.
  rewrite bucket_push_back, decide_True by done. rewrite length_app. simpl.
  replace (length (bucket m (key e)) + 1 - 1) with (length (bucket m (key e))) by lia.
  split.
  - intros [(Hi & Ha & Hk & Hp)|(-> & -> & ->)].
    + assert (i ≠ e) as Hne. { intros ->. apply Ha, Habs. by left. }
      split_and!; [done| |done|by rewrite list_lookup_total_insert_ne].
      intros Hi'. apply Ha, Habs. by right.
    + split_and!; [done..|]. rewrite list_lookup_total_insert_eq; [done|lia].
  - intros (Hi & Ha & Hk & Hp). destruct (decide (i = e)) as [->|Hne].
    + right. rewrite list_lookup_total_insert_eq in Hp by lia. done.
    + left. rewrite list_lookup_total_insert_ne in Hp by done.
      split_and!; [done| |done..]. intros Hin. apply Habs in Hin as [?|?]; done.
Qed.

(** The remove hook, as it is for an undirected graph: the last slot of the
    bucket takes the place of the slot removed. *)
Lemma filed_at_remove {K} `{Countable K} (key : nat → K) n absent m pos e :
  filed_at key n absent m pos → e < n → e ∉ absent →
  let d := key e in
  let j := pos !!! e in
  let l := bucket m d in
  let m1 := <[d := <[j := back l]> l]> m in
  filed_at key n (e :: absent) (<[d := pop_back (bucket m1 d)]> m1)
           (<[back l := j]> pos).
Proof.
  intros [Hlen Hf] He Ha d j l m1.
  assert (l !! j = Some e) as Hje by (apply Hf; by split_and!).
  assert (l ≠ []) as Hnil by (intros Hl; by rewrite Hl in Hje).
  destruct (exists_last Hnil) as (l0 & b & Hl).
  assert (back l = b) as Hback by (unfold back; rewrite Hl; apply last_last).
  assert (l !! length l0 = Some b) as Hb.
  { rewrite Hl. by rewrite list_lookup_middle. }
  pose proof Hb as (Hbn & Hba & Hbk & Hbp)%Hf. fold d in Hbk.
  assert (j ≤ length l0) as Hj.
  { apply lookup_lt_Some in Hje. rewrite Hl, length_app in Hje. simpl in Hje. lia. }
  assert (bucket m1 d = <[j := b]> l) as Hm1.
  { subst m1. rewrite bucket_insert, decide_True by done. by rewrite Hback. }
  assert (pop_back (<[j := b]> l) = <[j := b]> l0) as Hpop.
  { unfold pop_back. rewrite Hl. destruct (decide (j = length l0)) as [->|Hne].
    - rewrite insert_app_r_alt by lia. rewrite Nat.sub_diag. simpl.
      rewrite removelast_last. by rewrite list_insert_ge.
    - rewrite insert_app_l by lia. by rewrite removelast_last. }
  assert (∀ p i, l0 !! p = Some i ↔ l !! p = Some i ∧ p < length l0) as Hl0.
  { intros p i. rewrite Hl. split.
    - intros Hp. split; [by apply lookup_app_l_Some|by eapply lookup_lt_Some].
    - intros [Hp Hlt]. by rewrite lookup_app_l in Hp. }
  rewrite Hm1, Hpop, Hback.
  split; [by rewrite length_insert|].
  intros b' p i. rewrite bucket_insert.
  destruct (decide (d = b')) as [<-|Hne].
  - rewrite list_lookup_insert_Some, !Hl0. fold l. rewrite elem_of_cons. split.
    + intros [(Hjp & <- & Hjl)|(Hjp & Hp & Hpl)].
      * subst p. split_and!; [done| |done|].
        -- intros [->|?]; [|done]. fold j in Hbp. lia.
        -- rewrite list_lookup_total_insert_eq; [done|lia].
      * apply Hf in Hp as (Hi & Hia & Hik & Hip).
        assert (i ≠ e) as Hie. { intros ->. by fold j in Hip. }
        assert (i ≠ b) as Hib. { intros ->. lia. }
        split_and!; [done| |done|by rewrite list_lookup_total_insert_ne].
        intros [?|?]; done.
    + intros (Hi & Hia & Hik & Hip).
      assert (i ≠ e ∧ i ∉ absent) as [Hie Hia'].
      { split; intros ?; apply Hia; [by left|by right]. }
      destruct (decide (i = b)) as [->|Hib].
      * rewrite list_lookup_total_insert_eq in Hip by lia. subst p.
        assert (j ≠ length l0) as Hjl.
        { intros Hjl. rewrite Hjl, Hb in Hje. by injection Hje. }
        left. split_and!; [done..|lia].
      * rewrite list_lookup_total_insert_ne in Hip by done.
        assert (l !! p = Some i) as Hp by (apply Hf; by split_and!).
        assert (p ≠ length l0) as Hpl.
        { intros ->. rewrite Hb in Hp. by injection Hp. }
        assert (j ≠ p) as Hjp.
        { intros <-. rewrite Hje in Hp. by injection Hp. }
        right. split_and!; [done..|].
        apply lookup_lt_Some in Hp. rewrite Hl, length_app in Hp. simpl in Hp. lia.
  - subst m1. rewrite bucket_insert, decide_False by done.
    rewrite Hf, elem_of_cons. split.
    + intros (Hi & Hia & Hik & Hip).
      assert (i ≠ e) as Hie. { intros ->. by apply Hne. }
      assert (i ≠ b) as Hib. { intros ->. apply Hne. by rewrite <- Hbk. }
      split_and!; [done| |done|by rewrite list_lookup_total_insert_ne].
      intros [?|?]; done.
    + intros (Hi & Hia & Hik & Hip).
      assert (i ≠ b) as Hib. { intros ->. apply Hne. by rewrite <- Hbk. }
      rewrite list_lookup_total_insert_ne in Hip by done.
      split_and!; [done| |done..]. intros ?. apply Hia. by right.
Qed.

Section alias_in_edges.
Context {D : Type} `{!DoubleOps D}.
Context {BD deg_t : Type} `{Countable deg_t} `{!Inhabited deg_t} `{!BlockDeg BD deg_t}.

(** The constructor files every slot once in [_in_edges]. *)
Lemma Alias_construct_filed_at edges g (corr_prob : deg_t → deg_t → D) (blockdeg : BD) :
  in_edges_filed (AliasProbabilisticRewireStrategy.construct edges g corr_prob blockdeg)
                 edges g.
Proof.
  unfold in_edges_filed, AliasProbabilisticRewireStrategy.construct. cbv zeta.
  destruct (foldl (λ '(sampler, _probs) s_deg, _) _ _) as [sampler probs].
  set (kin := λ i, get_block blockdeg (target (edges !!! i) g) g).
  assert (∀ n, n ≤ length edges →
    let '(ie, oe, ip, op) :=
      foldl (AliasProbabilisticRewireStrategy.index_edge blockdeg edges g)
        (∅, ∅, replicate (length edges) 0,
         if negb (is_directed g) then replicate (length edges) 0 else [])
        (seq 0 n) in
    filed_at kin (length edges) (seq n (length edges - n)) ie ip) as Hn.
  { induction n as [|n IH]; intros Hle.
    - simpl. split; [by rewrite length_replicate|].
      intros b p i. rewrite bucket_empty, lookup_nil. split; [done|].
      intros (Hi & Ha & _). destruct Ha. apply elem_of_seq. lia.
    - rewrite seq_S, foldl_app. simpl. specialize (IH ltac:(lia)).
      destruct (foldl _ _ (seq 0 n)) as [[[ie oe] ip] op].
      unfold AliasProbabilisticRewireStrategy.index_edge. cbv zeta.
      fold (kin n).
      assert (filed_at kin (length edges) (seq (S n) (length edges - S n))
                (push_back (kin n) n ie)
                (<[n := length (bucket (push_back (kin n) n ie) (kin n)) - 1]> ip)) as Hstep.
      { eapply filed_at_insert; [exact IH|lia| |].
        - rewrite elem_of_seq. lia.
        - intros i. rewrite !elem_of_seq. lia. }
      by destruct (is_directed g). }
  specialize (Hn (length edges) ltac:(lia)).
  destruct (foldl _ _ (seq 0 (length edges))) as [[[ie oe] ip] op].
  rewrite Nat.sub_diag in Hn. simpl in *. done.
Qed.

Lemma Alias_insert_filed (self : AliasProbabilisticRewireStrategy.t D BD deg_t)
    edges g (key : nat → deg_t) n absent absent' e :
  filed_at key n absent (AliasProbabilisticRewireStrategy._in_edges self)
           (AliasProbabilisticRewireStrategy._in_pos self) →
  key e = get_block (AliasProbabilisticRewireStrategy._blockdeg self)
            (target (edges !!! e) g) g →
  e < n → e ∉ absent' → (∀ i, i ∈ absent ↔ i = e ∨ i ∈ absent') →
  let self' := AliasProbabilisticRewireStrategy.update_edge self edges g e true in
  filed_at key n absent' (AliasProbabilisticRewireStrategy._in_edges self')
           (AliasProbabilisticRewireStrategy._in_pos self').
Proof.
  intros Hf Hkey He He' Habs. cbv zeta.
  unfold AliasProbabilisticRewireStrategy.update_edge,
    AliasProbabilisticRewireStrategy.get_deg. cbv zeta. rewrite <- Hkey.
  destruct (negb (is_directed g)); simpl; by eapply filed_at_insert.
Qed.

Lemma Alias_remove_filed (self : AliasProbabilisticRewireStrategy.t D BD deg_t)
    edges g (key : nat → deg_t) n absent e :
  is_directed g = false →
  filed_at key n absent (AliasProbabilisticRewireStrategy._in_edges self)
           (AliasProbabilisticRewireStrategy._in_pos self) →
  key e = get_block (AliasProbabilisticRewireStrategy._blockdeg self)
            (target (edges !!! e) g) g →
  e < n → e ∉ absent →
  let self' := AliasProbabilisticRewireStrategy.update_edge self edges g e false in
  filed_at key n (e :: absent) (AliasProbabilisticRewireStrategy._in_edges self')
           (AliasProbabilisticRewireStrategy._in_pos self').
Proof.
  intros Hdir Hf Hkey He Ha. cbv zeta.
  unfold AliasProbabilisticRewireStrategy.update_edge,
    AliasProbabilisticRewireStrategy.get_deg. cbv zeta. rewrite <- Hkey, Hdir.
  simpl. by apply filed_at_remove.
Qed.

(** An accepted move in an undirected graph keeps [_in_edges] and [_in_pos]
    filed. *)
Lemma Alias_call_accepted_filed
    (rs rs' : rewire_state (AliasProbabilisticRewireStrategy.t D BD deg_t))
    dr ei sl pe :
  is_directed (_g rs) = false →
  table_ok (_edges rs) (_g rs) → ei < length (_edges rs) →
  degree_determined (AliasProbabilisticRewireStrategy._blockdeg (_self rs)) →
  slots_in_range (_self rs) (_edges rs) (_g rs) →
  AliasProbabilisticRewireStrategy.draws_ok (_self rs) (_edges rs) (_g rs) ei dr →
  in_edges_filed (_self rs) (_edges rs) (_g rs) →
  RewireStrategyBase.call rs dr ei sl pe = (true, rs') →
  in_edges_filed (_self rs') (_edges rs') (_g rs').
Proof.
  intros Hund Hok Hei Hbd Hrange Hdr Hfiled Hcall.
  pose proof (Alias_EdgeRef_ok _ _ _ _ _ Hei Hrange Hdr) as Het.
  destruct (@call_accepted_table_ok _ _ AliasProbabilisticRewireStrategy.strategy
              rs rs' dr ei sl pe Hok Hei Het Hcall) as (_ & Hlen & Hdir).
  pose proof (@call_accepted_degrees _ _ AliasProbabilisticRewireStrategy.strategy
                rs rs' dr ei sl pe Hok Hei Het Hcall) as Hdegs.
  pose proof (@call_accepted_self _ _ AliasProbabilisticRewireStrategy.strategy
                rs rs' dr ei sl pe Hcall) as Hself.
  apply call_accepted in Hcall as (Hne & Hswap & _).
  cbv zeta in Hself, Hne, Hswap. destruct Het as [Het _].
  change (RewireStrategyBase.get_target_edge (_self rs) (_edges rs) (_g rs) dr ei)
    with (AliasProbabilisticRewireStrategy.get_target_edge
            (_self rs) (_edges rs) (_g rs) dr ei) in Hself, Hne, Hswap.
  revert Het Hself Hne Hswap.
  generalize (AliasProbabilisticRewireStrategy.get_target_edge
                (_self rs) (_edges rs) (_g rs) dr ei).
  intros et Het Hself Hne Hswap.
  change (@RewireStrategyBase.update_edge _ _ AliasProbabilisticRewireStrategy.strategy)
    with (@AliasProbabilisticRewireStrategy.update_edge D BD deg_t _ _ _) in Hself.
  destruct (swap_target_ends _ _ _ _ _ _ Hei Het Hne Hswap) as (_ & _ & _ & _ & Hoth).
  set (bd := AliasProbabilisticRewireStrategy._blockdeg (_self rs)) in *.
  set (key := λ i, get_block bd (target (_edges rs !!! i) (_g rs)) (_g rs)).
  set (key' := λ i, get_block bd (target (_edges rs' !!! i) (_g rs')) (_g rs')).
  set (s1 := AliasProbabilisticRewireStrategy.update_edge (_self rs) (_edges rs) (_g rs)
               ei false) in *.
  set (s2 := AliasProbabilisticRewireStrategy.update_edge s1 (_edges rs) (_g rs)
               et.1 false) in *.
  set (s3 := AliasProbabilisticRewireStrategy.update_edge s2 (_edges rs') (_g rs')
               ei true) in *.
  assert (AliasProbabilisticRewireStrategy._blockdeg s1 = bd) as Hb1.
  { apply Alias_update_edge_probs. }
  assert (AliasProbabilisticRewireStrategy._blockdeg s2 = bd) as Hb2.
  { subst s2. by rewrite (proj1 (proj2 (Alias_update_edge_probs _ _ _ _ _))). }
  assert (AliasProbabilisticRewireStrategy._blockdeg s3 = bd) as Hb3.
  { subst s3. by rewrite (proj1 (proj2 (Alias_update_edge_probs _ _ _ _ _))). }
  assert (AliasProbabilisticRewireStrategy._blockdeg (_self rs') = bd) as Hb4.
  { rewrite Hself. by rewrite (proj1 (proj2 (Alias_update_edge_probs _ _ _ _ _))). }
  unfold in_edges_filed in *. rewrite Hb4. fold bd in Hfiled. fold key in Hfiled.
  fold key'. rewrite Hlen. rewrite Hself.
  assert (filed_at key (length (_edges rs)) [ei]
            (AliasProbabilisticRewireStrategy._in_edges s1)
            (AliasProbabilisticRewireStrategy._in_pos s1)) as H1.
  { apply Alias_remove_filed; [done..|apply not_elem_of_nil]. }
  assert (filed_at key (length (_edges rs)) [et.1; ei]
            (AliasProbabilisticRewireStrategy._in_edges s2)
            (AliasProbabilisticRewireStrategy._in_pos s2)) as H2.
  { apply Alias_remove_filed; [done|done|by rewrite Hb1|done|].
    rewrite list_elem_of_singleton. done. }
  assert (filed_at key' (length (_edges rs)) [et.1; ei]
            (AliasProbabilisticRewireStrategy._in_edges s2)
            (AliasProbabilisticRewireStrategy._in_pos s2)) as H2'.
  { eapply filed_at_ext; [|exact H2]. intros i Hi Hia. subst key key'. simpl.
    rewrite Hoth.
    - unfold target. by apply Hbd.
    - intros ->. apply Hia. right. by left.
    - intros ->. apply Hia. by left. }
  assert (filed_at key' (length (_edges rs)) [et.1]
            (AliasProbabilisticRewireStrategy._in_edges s3)
            (AliasProbabilisticRewireStrategy._in_pos s3)) as H3.
  { eapply Alias_insert_filed; [exact H2'|by rewrite Hb2|done| |].
    - rewrite list_elem_of_singleton. done.
    - intros i. rewrite !elem_of_cons, elem_of_nil. tauto. }
  eapply Alias_insert_filed; [exact H3|by rewrite Hb3|done|apply not_elem_of_nil|].
  intros i. rewrite !elem_of_cons, elem_of_nil. tauto.
Qed.

End alias_in_edges.

(** X17. The constructor of the Alias strategy files every slot exactly
    once in [_in_edges]: position [p] of the list of block [b] holds slot
    [i] if and only if the target of slot [i] has block [b] and [_in_pos[i]]
    is [p]. *)
Theorem Alias_construct_in_edges {D : Type} `{!DoubleOps D}
    {BD deg_t : Type} `{Countable deg_t} `{!Inhabited deg_t} `{!BlockDeg BD deg_t}
    edges g (corr_prob : deg_t → deg_t → D) (blockdeg : BD) :
  let self := AliasProbabilisticRewireStrategy.construct edges g corr_prob blockdeg in
  length (AliasProbabilisticRewireStrategy._in_pos self) = length edges ∧
  ∀ b p i,
    bucket (AliasProbabilisticRewireStrategy._in_edges self) b !! p = Some i ↔
    i < length edges ∧ get_block blockdeg (target (edges !!! i) g) g = b ∧
    AliasProbabilisticRewireStrategy._in_pos self !!! i = p.
Proof.
  intros self.
  destruct (Alias_construct_filed_at edges g corr_prob blockdeg) as [Hlen Hf].
  fold self in Hlen, Hf. split; [done|]. intros b p i. rewrite Hf.
  assert (AliasProbabilisticRewireStrategy._blockdeg self = blockdeg) as ->.
  { subst self. unfold AliasProbabilisticRewireStrategy.construct. cbv zeta.
    by repeat case_match. }
  pose proof (not_elem_of_nil i). tauto.
Qed.

(** X18. In an undirected graph, an accepted move of the Alias strategy
    keeps [_in_edges] and [_in_pos] in step with the edges: after the two
    removals (the last slot of a list takes the place of the one removed),
    the swap and the two insertions, every slot is again filed exactly once,
    under the block of its new target, at the position [_in_pos] records. *)
Theorem Alias_in_edges_maintained {D : Type} `{!DoubleOps D}
    {BD deg_t : Type} `{Countable deg_t} `{!Inhabited deg_t} `{!BlockDeg BD deg_t}
    (rs rs' : rewire_state (AliasProbabilisticRewireStrategy.t D BD deg_t))
    dr ei self_loops parallel_edges :
  is_directed (_g rs) = false →
  table_ok (_edges rs) (_g rs) → ei < length (_edges rs) →
  degree_determined (AliasProbabilisticRewireStrategy._blockdeg (_self rs)) →
  slots_in_range (_self rs) (_edges rs) (_g rs) →
  AliasProbabilisticRewireStrategy.draws_ok (_self rs) (_edges rs) (_g rs) ei dr →
  in_edges_filed (_self rs) (_edges rs) (_g rs) →
  RewireStrategyBase.call rs dr ei self_loops parallel_edges = (true, rs') →
  in_edges_filed (_self rs') (_edges rs') (_g rs') ∧
  filed (λ i, get_block (AliasProbabilisticRewireStrategy._blockdeg (_self rs'))
                (target (_edges rs' !!! i) (_g rs')) (_g rs'))
        (length (_edges rs'))
        (AliasProbabilisticRewireStrategy._in_edges (_self rs'))
        (AliasProbabilisticRewireStrategy._in_pos (_self rs')).
Proof.
  intros Hund Hok Hei Hbd Hrange Hdr Hfiled Hcall.
  pose proof (Alias_call_accepted_filed rs rs' dr ei _ _ Hund Hok Hei Hbd Hrange Hdr
                Hfiled Hcall) as Hf.
  split; [done|]. by apply filed_at_filed.
Qed.

(** The undirected graph 0 - 1, 2 - 3 under the property blocks {0, 1} and
    {2, 3}: the proposal for slot 0 draws slot 1 from the list of the second
    block, and is accepted. *)
Lemma Alias_in_edges_maintained_witness :
  let ops := binary64 (λ x, x) (λ x, x) in
  let pb := Build_PropertyBlock (λ v, bool_decide (2 ≤ v)) in
  let g := mk_graph false 4 [mk_edge 0 1 0; mk_edge 2 3 1] 2 in
  let rs := mk_state g (edge_list g)
              (@AliasProbabilisticRewireStrategy.construct float ops (PropertyBlock bool)
                 bool _ _ _ (edge_list g) g (λ _ _, 1%float) pb) in
  let dr := AliasProbabilisticRewireStrategy.mk_draws 1 true 0 0%float in
  let rs' := (@RewireStrategyBase.call _ _
                (@AliasProbabilisticRewireStrategy.strategy float ops _ _ _ _ _ _)
                rs dr 0 false false).2 in
  in_edges_filed (_self rs') (_edges rs') (_g rs').
Proof.
  intros ops pb g rs dr rs'.
  refine (proj1 (@Alias_in_edges_maintained float ops (PropertyBlock bool) bool _ _ _ _
                   rs rs' dr 0 false false _ _ _ _ _ _ _ _)).
  - reflexivity.
  - compute_done.
  - simpl. lia.
  - apply PropertyBlock_degree_determined.
  - apply buckets_agree_slots_in_range, Alias_construct_buckets_agree.
  - vm_compute. split; repeat constructor.
  - apply Alias_construct_filed_at.
  - by vm_compute.
Defined.

(** ** The verbose display *)

Lemma string_length_app (s1 s2 : string) :
  String.length (s1 +:+ s2) = String.length s1 + String.length s2.
Proof. induction s1 as [|c s1 IH]; [done|]. simpl. by rewrite IH. Qed.

Lemma length_repeat_char c n : String.length (repeat_char c n) = n.
Proof. induction n as [|n IH]; [done|]. simpl. by rewrite IH. Qed.

Lemma string_app_assoc (s1 s2 s3 : string) :
  (s1 +:+ s2) +:+ s3 = s1 +:+ (s2 +:+ s3).
Proof.
  induction s1 as [|c s1 IH]; [done|].
  change (String c ((s1 +:+ s2) +:+ s3) = String c (s1 +:+ (s2 +:+ s3))).
  by rewrite IH.
Qed.

Lemma string_app_empty_r (s : string) : s +:+ EmptyString = s.
Proof.
  induction s as [|c s IH]; [done|].
  change (String c (s +:+ EmptyString) = String c s). by rewrite IH.
Qed.

(** A number below [2^n] is printed on at most [n] characters. *)
Lemma pretty_N_go_length (n : nat) (x : N) (s : string) :
  (x < 2 ^ N.of_nat n)%N →
  String.length (pretty_N_go x s) ≤ String.length s + n.
Proof.
  revert x s. induction n as [|n IH]; intros x s Hx.
  - assert (x = 0%N) as -> by (simpl in Hx; lia). rewrite pretty_N_go_0. lia.
  - destruct (decide (x = 0%N)) as [->|Hne]; [rewrite pretty_N_go_0; lia|].
    rewrite pretty_N_go_step by lia.
    etrans; [apply IH|simpl; lia].
    apply N.Div0.div_lt_upper_bound.
    rewrite Nat2N.inj_succ, N.pow_succ_r' in Hx. lia.
Qed.

Lemma pretty_N_length (x : N) :
  (x < 2 ^ 64)%N → String.length (pretty x) ≤ 64.
Proof.
  intros Hx. unfold pretty, pretty_N. case_decide; [simpl; lia|].
  apply (pretty_N_go_length 64 x EmptyString). exact Hx.
Qed.

Lemma progress_text_length i n_iter current total :
  (n_iter < 2 ^ 64)%N → (0 < total < 2 ^ 64)%N →
  String.length (progress_text i n_iter current total) ≤ 334.
Proof.
  intros Hn Ht. unfold progress_text. cbv zeta.
  rewrite !string_length_app.
  pose proof (pretty_N_length ((i + 1) `mod` 2 ^ 64)%N
                ltac:(apply N.mod_lt; lia)).
  pose proof (pretty_N_length n_iter Hn).
  pose proof (pretty_N_length ((current + 1) `mod` 2 ^ 64)%N
                ltac:(apply N.mod_lt; lia)).
  pose proof (pretty_N_length total ltac:(lia)).
  assert ((((((current + 1) `mod` 2 ^ 64) * 100) `mod` 2 ^ 64) `div` total < 2 ^ 64)%N)
    as H5.
  { eapply N.le_lt_trans; [apply N.Div0.div_le_upper_bound with (q := (2 ^ 64 - 1)%N)|lia].
    assert ((((current + 1) `mod` 2 ^ 64 * 100) `mod` 2 ^ 64 < 2 ^ 64)%N)
      by (apply N.mod_lt; lia).
    nia. }
  apply pretty_N_length in H5. simpl. lia.
Qed.

(** One round of the padding loop lowers its bound by one. *)
Lemma pad_bound_step size str :
  (0 < pad_bound size str)%Z →
  pad_bound size (str +:+ " ") = (pad_bound size str - 1)%Z.
Proof.
  unfold pad_bound, size_t_wrap, int_of_size_t. cbv zeta.
  rewrite string_length_app. simpl.
  set (d := (Z.of_nat size - Z.of_nat (String.length str))%Z).
  replace (Z.of_nat size - Z.of_nat (String.length str + 1))%Z with (d - 1)%Z by lia.
  assert (∀ z, ((z `mod` 2 ^ 64) `mod` 2 ^ 32 = z `mod` 2 ^ 32)%Z) as Hmod.
  { intros z. apply Z.mod_mod_divide. exists (2 ^ 32)%Z. lia. }
  rewrite !Hmod.
  pose proof (Z.mod_pos_bound d (2 ^ 32) ltac:(lia)) as Hy.
  destruct (Z.ltb_spec (d `mod` 2 ^ 32) (2 ^ 31)) as [Hlt|Hge]; [|lia].
  intros Hpos.
  assert (((d - 1) `mod` 2 ^ 32 = d `mod` 2 ^ 32 - 1)%Z) as ->.
  { rewrite Zminus_mod, (Z.mod_small 1) by lia. apply Z.mod_small. lia. }
  destruct (Z.ltb_spec (d `mod` 2 ^ 32 - 1) (2 ^ 31)); lia.
Qed.

Lemma half_nonpos (z : Z) : (z ≤ 0)%Z → Z.to_nat ((z + 1) `div` 2) = 0.
Proof.
  intros Hz. assert (((z + 1) `div` 2 < 1)%Z); [|lia].
  apply Z.div_lt_upper_bound; lia.
Qed.

(** The padding loop returns; it appends half of what its first bound
    exceeds [j] by, rounded up. *)
Lemma pad_loop_spec size fuel j str :
  (0 ≤ j)%Z → (pad_bound size str - j ≤ 2 * Z.of_nat fuel)%Z →
  pad_loop fuel size j str
  = Some (str +:+ repeat_char " "%char (Z.to_nat ((pad_bound size str - j + 1) `div` 2))).
Proof.
  revert j str. induction fuel as [|fuel IH]; intros j str Hj Hfuel.
  - simpl. destruct (Z.ltb_spec j (pad_bound size str)) as [Hlt|Hge]; [lia|].
    rewrite half_nonpos by lia. simpl. by rewrite string_app_empty_r.
  - simpl. destruct (Z.ltb_spec j (pad_bound size str)) as [Hlt|Hge].
    + rewrite IH by (rewrite ?pad_bound_step by lia; lia).
      rewrite pad_bound_step by lia. rewrite string_app_assoc. do 2 f_equal.
      replace ((pad_bound size str - j + 1) `div` 2)%Z
        with (((pad_bound size str - 1 - (j + 1) + 1) `div` 2) + 1)%Z.
      * rewrite Z2Nat.inj_add by (try apply Z.div_pos; lia).
        rewrite Nat.add_comm. done.
      * replace (pad_bound size str - j + 1)%Z
          with ((pad_bound size str - 1 - (j + 1) + 1) + 1 * 2)%Z by lia.
        rewrite Z.div_add by lia. done.
    + rewrite half_nonpos by lia. simpl. by rewrite string_app_empty_r.
Qed.

(** X19. [print_progress] as the main loop calls it (position [current] of
    [total] positions, numbers below 2^64, less than 2^31 characters
    shown): it returns, without dividing by zero; it either leaves the
    display as it is or writes one backspace per character shown and then
    the new text. The new text is the message, padded with half of the
    characters by which the text it replaces was longer (rounded up): the
    bound of the padding loop is read again at every round, so that the new
    text is shorter than the old one whenever the message is shorter by two
    characters or more. At the last position the display is always written,
    and the percentage is 100 when [100 * total] fits a [size_t]. *)
Theorem print_progress_refresh (i n_iter current total : N) (str : string) :
  (n_iter < 2 ^ 64)%N → (current < total)%N → (total < 2 ^ 64)%N →
  (Z.of_nat (String.length str) < 2 ^ 31)%Z →
  let size := String.length str in
  let atom := if (200 <? total)%N then (total `div` 100)%N else 1%N in
  let refresh := (((current + 1) `mod` atom =? 0) || (current + 1 =? total))%N in
  let text := progress_text i n_iter current total in
  let str' := text +:+ repeat_char " "%char ((size - String.length text + 1) / 2) in
  print_progress i n_iter current total str
  = Some (if refresh then (repeat_char backspace size +:+ str', str')
          else (EmptyString, str)) ∧
  (String.length text + 2 ≤ size → String.length str' < size) ∧
  ((current + 1 = total)%N →
   refresh = true ∧
   ((total * 100 < 2 ^ 64)%N →
    text = "(" +:+ pretty ((i + 1) `mod` 2 ^ 64)%N +:+ " / " +:+ pretty n_iter +:+ ") "
           +:+ pretty total +:+ " of " +:+ pretty total +:+ " (100%)")).
Proof.
  intros Hn Hcur Htotal Hstr size atom refresh text str'.
  assert (((current + 1) `mod` 2 ^ 64)%N = (current + 1)%N) as Hc1
    by (apply N.mod_small; lia).
  pose proof (progress_text_length i n_iter current total Hn ltac:(lia)) as Hlen.
  fold text in Hlen.
  split_and!.
  - unfold print_progress. cbv zeta. rewrite Hc1. fold atom. fold refresh.
    destruct refresh; [|done].
    assert ((total =? 0)%N = false) as -> by (apply N.eqb_neq; lia).
    fold text. fold size.
    assert (pad_bound size text = (Z.of_nat size - Z.of_nat (String.length text))%Z)
      as Hbound.
    { unfold pad_bound, size_t_wrap, int_of_size_t. cbv zeta.
      assert (∀ z, ((z `mod` 2 ^ 64) `mod` 2 ^ 32 = z `mod` 2 ^ 32)%Z) as Hmod.
      { intros z. apply Z.mod_mod_divide. exists (2 ^ 32)%Z. lia. }
      rewrite Hmod.
      set (d := (Z.of_nat size - Z.of_nat (String.length text))%Z).
      assert (- 2 ^ 31 ≤ d < 2 ^ 31)%Z as Hd by (subst d size; lia).
      destruct (decide (0 ≤ d)%Z) as [Hpos|Hneg].
      - rewrite Z.mod_small by lia. destruct (Z.ltb_spec d (2 ^ 31)); lia.
      - assert ((d `mod` 2 ^ 32 = d + 2 ^ 32)%Z) as ->.
        { symmetry. apply (Z.mod_unique_pos d (2 ^ 32) (-1)); lia. }
        destruct (Z.ltb_spec (d + 2 ^ 32) (2 ^ 31)); lia. }
    rewrite pad_loop_spec by lia. rewrite Hbound.
    replace (Z.to_nat ((Z.of_nat size - Z.of_nat (String.length text) - 0 + 1) `div` 2))
      with ((size - String.length text + 1) / 2); [done|].
    destruct (decide (String.length text ≤ size)) as [Hle|Hgt].
    + rewrite Z.sub_0_r.
      replace (Z.of_nat size - Z.of_nat (String.length text) + 1)%Z
        with (Z.of_nat (size - String.length text + 1)) by lia.
      change 2%Z with (Z.of_nat 2). rewrite <- Nat2Z.inj_div. by rewrite Nat2Z.id.
    + replace (size - String.length text + 1) with 1 by lia.
      rewrite half_nonpos by lia. done.
  - intros Hshort. subst str'. rewrite string_length_app, length_repeat_char.
    assert ((size - String.length text + 1) / 2 < size - String.length text); [|lia].
    apply Nat.Div0.div_lt_upper_bound. lia.
  - intros Hlast. split.
    + subst refresh. by rewrite Hlast, N.eqb_refl, orb_true_r.
    + intros H100. subst text. unfold progress_text. cbv zeta. rewrite Hc1, Hlast.
      assert ((((total * 100) `mod` 2 ^ 64) `div` total)%N = 100%N) as ->.
      { rewrite N.mod_small by done. rewrite N.mul_comm. apply N.div_mul. lia. }
      reflexivity.
Qed.

(** The last of three positions, over a display of 27 characters: the
    message has 21, and three spaces are appended. *)
Lemma print_progress_refresh_witness :
  print_progress 0 5 2 3 "(1 / 5) 2 of 3 (66%)       "
  = Some (repeat_char backspace 27 +:+ "(1 / 5) 3 of 3 (100%)   ",
          "(1 / 5) 3 of 3 (100%)   ").
Proof.
  pose proof (print_progress_refresh 0 5 2 3 "(1 / 5) 2 of 3 (66%)       "
                ltac:(reflexivity) ltac:(reflexivity) ltac:(reflexivity)
                ltac:(reflexivity)) as [Hp _].
  exact Hp.
Defined.

(** ** Persistence without a possible success *)

(** Under persistence, a call that is always rejected is retried for ever:
    no number of repetitions leaves the [do ... while] loop. *)
Lemma do_while_never {RW Dr : Type}
    (rewire_call : RW → Dr → nat → bool → bool → option (bool * RW))
    sl pe (draws : nat → Dr) rw ei :
  (∀ k, rewire_call rw (draws k) ei sl pe = Some (false, rw)) →
  ∀ fuel k, graph_rewire.do_while rewire_call sl pe true fuel draws k rw ei = None.
Proof.
  intros Hrej fuel. induction fuel as [|fuel IH]; intros k; simpl; rewrite Hrej; simpl.
  - done.
  - apply IH.
Qed.

(** X20. With [persist], a run of the Random strategy of at least one
    iteration on a graph with exactly one edge never returns: the only
    candidate is the edge itself, every proposal is rejected, and the
    [do ... while (persist && !success)] loop is not left, however many
    times it repeats. *)
Theorem persist_hangs_on_a_single_edge g self_loops parallel_edges n_iter no_sweep
    (o : graph_rewire.oracle RandomRewireStrategy.draws) :
  length (edge_list g) = 1 → 1 ≤ n_iter → perm_draws_ok o 1 →
  (∀ i k, RandomRewireStrategy.draws_ok (edge_list g)
            (graph_rewire.rewire_draws o i 0 k)) →
  ∀ fuel, graph_rewire_Random g self_loops parallel_edges (n_iter, no_sweep)
            true fuel o = None.
Proof.
  intros Hlen Hn Hperm Hdraws fuel.
  unfold graph_rewire_Random, graph_rewire_edge_pair, graph_rewire.call,
    graph_rewire.main_loop. cbv zeta. rewrite Hlen.
  destruct n_iter as [|n]; [lia|]. simpl.
  pose proof (Hperm 0 0 ltac:(lia)) as Hj.
  assert (graph_rewire.perm_draw o 0 0 = 0) as -> by lia. simpl.
  rewrite do_while_never; [done|].
  intros k. f_equal. apply single_slot_rejected; [done|simpl; lia|].
  apply Random_EdgeRef_ok; [simpl; lia|apply Hdraws].
Qed.

Lemma persist_hangs_on_a_single_edge_witness :
  let g := mk_graph true 2 [mk_edge 0 1 0] 1 in
  let o := graph_rewire.mk_oracle (λ _ _, 0) (λ _ _ _, RandomRewireStrategy.mk_draws 0 false) in
  graph_rewire_Random g false false (1, false) true 7 o = None.
Proof.
  intros g o.
  refine (persist_hangs_on_a_single_edge g false false 1 false o _ _ _ _ 7).
  - reflexivity.
  - lia.
  - intros i pos Hpos. simpl. lia.
  - intros i k. unfold RandomRewireStrategy.draws_ok. simpl. lia.
Defined.

(** ** The bookkeeping of the Alias strategy in a directed graph *)

Section alias_directed.
Context {D : Type} `{!DoubleOps D}.
Context {BD deg_t : Type} `{Countable deg_t} `{!Inhabited deg_t} `{!BlockDeg BD deg_t}.

Lemma Alias_update_edge_directed (self : AliasProbabilisticRewireStrategy.t D BD deg_t)
    edges g e :
  is_directed g = true →
  AliasProbabilisticRewireStrategy.update_edge self edges g e false = self ∧
  let self' := AliasProbabilisticRewireStrategy.update_edge self edges g e true in
  AliasProbabilisticRewireStrategy._in_edges self'
  = push_back (get_block (AliasProbabilisticRewireStrategy._blockdeg self)
                 (target (edges !!! e) g) g) e
              (AliasProbabilisticRewireStrategy._in_edges self) ∧
  AliasProbabilisticRewireStrategy._out_edges self'
  = AliasProbabilisticRewireStrategy._out_edges self ∧
  AliasProbabilisticRewireStrategy._blockdeg self'
  = AliasProbabilisticRewireStrategy._blockdeg self.
Proof.
  intros Hdir. unfold AliasProbabilisticRewireStrategy.update_edge. cbv zeta.
  rewrite Hdir. simpl. done.
Qed.

(** X21. In a directed graph, an accepted move of the Alias strategy removes
    nothing from [_in_edges]: the two removal hooks do nothing, and the two
    insertion hooks append slot [ei] and the slot of the candidate to the
    lists of the blocks of their new targets. Every slot filed before the
    move is still filed where it was, so the two slots are now filed
    twice. *)
Theorem Alias_directed_in_edges_grow
    (rs rs' : rewire_state (AliasProbabilisticRewireStrategy.t D BD deg_t))
    dr ei self_loops parallel_edges :
  is_directed (_g rs) = true →
  RewireStrategyBase.call rs dr ei self_loops parallel_edges = (true, rs') →
  let et := AliasProbabilisticRewireStrategy.get_target_edge
              (_self rs) (_edges rs) (_g rs) dr ei in
  let block := λ i, get_block (AliasProbabilisticRewireStrategy._blockdeg (_self rs))
                      (target (_edges rs' !!! i) (_g rs')) (_g rs') in
  AliasProbabilisticRewireStrategy._in_edges (_self rs')
  = push_back (block et.1) et.1
      (push_back (block ei) ei (AliasProbabilisticRewireStrategy._in_edges (_self rs))) ∧
  AliasProbabilisticRewireStrategy._out_edges (_self rs')
  = AliasProbabilisticRewireStrategy._out_edges (_self rs) ∧
  (∀ d i, i ∈ bucket (AliasProbabilisticRewireStrategy._in_edges (_self rs)) d →
          i ∈ bucket (AliasProbabilisticRewireStrategy._in_edges (_self rs')) d) ∧
  ei ∈ bucket (AliasProbabilisticRewireStrategy._in_edges (_self rs')) (block ei) ∧
  et.1 ∈ bucket (AliasProbabilisticRewireStrategy._in_edges (_self rs')) (block et.1).
Proof.
  intros Hdir Hcall et block.
  pose proof (@call_accepted_self _ _ AliasProbabilisticRewireStrategy.strategy
                rs rs' dr ei _ _ Hcall) as Hself.
  apply call_accepted in Hcall as (_ & Hswap & _).
  cbv zeta in Hself, Hswap.
  change (RewireStrategyBase.get_target_edge (_self rs) (_edges rs) (_g rs) dr ei)
    with et in Hself, Hswap.
  change (@RewireStrategyBase.update_edge _ _ AliasProbabilisticRewireStrategy.strategy)
    with (@AliasProbabilisticRewireStrategy.update_edge D BD deg_t _ _ _) in Hself.
  assert (is_directed (_g rs') = true) as Hdir'.
  { pose proof (swap_target_is_directed ei et (_edges rs) (_g rs)) as Hd.
    rewrite Hswap in Hd. simpl in Hd. by rewrite Hd. }
  rewrite !(proj1 (Alias_update_edge_directed _ _ _ _ Hdir)) in Hself.
  assert (AliasProbabilisticRewireStrategy._in_edges (_self rs')
          = push_back (block et.1) et.1
              (push_back (block ei) ei
                 (AliasProbabilisticRewireStrategy._in_edges (_self rs)))) as Hin.
  { rewrite Hself.
    destruct (Alias_update_edge_directed
                (AliasProbabilisticRewireStrategy.update_edge (_self rs)
                   (_edges rs') (_g rs') ei true) (_edges rs') (_g rs') et.1 Hdir')
      as (_ & -> & _ & _).
    destruct (Alias_update_edge_directed (_self rs) (_edges rs') (_g rs') ei Hdir')
      as (_ & -> & _ & ->).
    done. }
  split_and!.
  - done.
  - rewrite Hself.
    destruct (Alias_update_edge_directed
                (AliasProbabilisticRewireStrategy.update_edge (_self rs)
                   (_edges rs') (_g rs') ei true) (_edges rs') (_g rs') et.1 Hdir')
      as (_ & _ & -> & _).
    by destruct (Alias_update_edge_directed (_self rs) (_edges rs') (_g rs') ei Hdir')
      as (_ & _ & -> & _).
  - intros d i Hi. rewrite Hin, !elem_of_bucket_push_back. by left; left.
  - rewrite Hin, !elem_of_bucket_push_back. left. by right.
  - rewrite Hin, !elem_of_bucket_push_back. by right.
Qed.

End alias_directed.

(** The directed graph 0 -> 1, 2 -> 3 under the property blocks {0, 1} and
    {2, 3}: the proposal for slot 0 draws slot 1, and is accepted; slot 0
    stays in the list of the first block, where it was filed, and is
    filed as well in the list of the second. *)
Lemma Alias_directed_in_edges_grow_witness :
  let ops := binary64 (λ x, x) (λ x, x) in
  let pb := Build_PropertyBlock (λ v, bool_decide (2 ≤ v)) in
  let g := mk_graph true 4 [mk_edge 0 1 0; mk_edge 2 3 1] 2 in
  let rs := mk_state g (edge_list g)
              (@AliasProbabilisticRewireStrategy.construct float ops (PropertyBlock bool)
                 bool _ _ _ (edge_list g) g (λ _ _, 1%float) pb) in
  let dr := AliasProbabilisticRewireStrategy.mk_draws 1 false 0 0%float in
  let rs' := (@RewireStrategyBase.call _ _
                (@AliasProbabilisticRewireStrategy.strategy float ops _ _ _ _ _ _)
                rs dr 0 false false).2 in
  0 ∈ bucket (AliasProbabilisticRewireStrategy._in_edges (_self rs')) false ∧
  0 ∈ bucket (AliasProbabilisticRewireStrategy._in_edges (_self rs')) true.
Proof.
  intros ops pb g rs dr rs'.
  assert (is_directed (_g rs) = true) as Hdir by reflexivity.
  assert (@RewireStrategyBase.call _ _
            (@AliasProbabilisticRewireStrategy.strategy float ops _ _ _ _ _ _)
            rs dr 0 false false = (true, rs')) as Hcall by (by vm_compute).
  pose proof (@Alias_directed_in_edges_grow float ops (PropertyBlock bool) bool _ _ _ _
                rs rs' dr 0 false false Hdir Hcall) as (_ & _ & Hkept & Hnew & _).
  split.
  - apply Hkept. vm_compute. apply list_elem_of_here.
  - assert (get_block (AliasProbabilisticRewireStrategy._blockdeg (_self rs))
              (target (_edges rs' !!! 0) (_g rs')) (_g rs') = true) as Hb
      by (by vm_compute).
    rewrite Hb in Hnew. exact Hnew.
Defined.

Section alias_empty_list.
Context {D : Type} `{!DoubleOps D}.
Context {BD deg_t : Type} `{Countable deg_t} `{!Inhabited deg_t} `{!BlockDeg BD deg_t}.

(** X22. In a directed graph, the Alias strategy can be led to an empty
    list. Let [d] be the block of the source of some edge and of the target
    of none. The sampler of every block draws among all the blocks of the
    end points, [d] included (its weight is sanitized, hence not zero), and
    [_in_edges[d]] is empty: when the sampler returns [d], no value of
    [sample] is an index of the list that [get_target_edge] reads. *)
Theorem Alias_directed_reads_empty_list edges g (corr_prob : deg_t → deg_t → D) (bd : BD)
    e ei :
  is_directed g = true → e < length edges → ei < length edges →
  let self := AliasProbabilisticRewireStrategy.construct edges g corr_prob bd in
  let d := get_block bd (source (edges !!! e) g) g in
  (∀ i, i < length edges → get_block bd (target (edges !!! i) g) g ≠ d) →
  let smp := default (Build_Sampler [] [])
               (AliasProbabilisticRewireStrategy._sampler self
                  !! AliasProbabilisticRewireStrategy.get_deg self
                       (source (edges !!! ei) g) g) in
  (∃ k, k < length (s_items smp) ∧ sample smp k = d) ∧
  bucket (AliasProbabilisticRewireStrategy._in_edges self) d = [] ∧
  ∀ dr, sample smp (AliasProbabilisticRewireStrategy.d_nt dr) = d →
        ¬ AliasProbabilisticRewireStrategy.draws_ok self edges g ei dr.
Proof.
  intros Hdir He Hei self d Hnone smp.
  assert (AliasProbabilisticRewireStrategy._blockdeg self = bd) as Hbd.
  { subst self. unfold AliasProbabilisticRewireStrategy.construct. cbv zeta.
    by repeat case_match. }
  assert (bucket (AliasProbabilisticRewireStrategy._in_edges self) d = []) as Hempty.
  { destruct (Alias_construct_buckets_agree edges g corr_prob bd) as [[Hmem _] _].
    fold self in Hmem. rewrite Hbd in Hmem.
    destruct (bucket _ d) as [|i l] eqn:Hb; [done|].
    assert (i ∈ bucket (AliasProbabilisticRewireStrategy._in_edges self) d) as Hi
      by (rewrite Hb; by left).
    apply Hmem in Hi as [Hi Hk]. by destruct (Hnone i Hi). }
  destruct (deg_set_blocks_known bd edges g e He) as [Hd _].
  destruct (deg_set_blocks_known bd edges g ei Hei) as [Hs _].
  assert (s_items smp = elements (ProbabilisticRewireStrategy.deg_set bd edges g)) as Hitems.
  { subst smp. unfold AliasProbabilisticRewireStrategy.get_deg. rewrite Hbd.
    subst self. by rewrite (Alias_sampler_constructed edges g corr_prob bd _ Hs). }
  split_and!.
  - assert (d ∈ s_items smp) as Hin by (rewrite Hitems; by apply elem_of_elements).
    apply list_elem_of_lookup in Hin as [k Hk]. exists k. split.
    + by eapply lookup_lt_Some.
    + unfold sample. by apply list_lookup_total_correct.
  - done.
  - intros dr Hnt [_ Hdr]. cbv zeta in Hdr. fold smp in Hdr.
    rewrite Hnt, Hdir, Hempty in Hdr. simpl in Hdr. lia.
Qed.

End alias_empty_list.

(** The directed graph 0 -> 1 under the property blocks {0} and {1}: the
    block of vertex 0 is the block of no target. *)
Lemma Alias_directed_reads_empty_list_witness :
  let ops := binary64 (λ x, x) (λ x, x) in
  let pb := Build_PropertyBlock (λ v, bool_decide (1 ≤ v)) in
  let g := mk_graph true 2 [mk_edge 0 1 0] 1 in
  let self := @AliasProbabilisticRewireStrategy.construct float ops (PropertyBlock bool)
                bool _ _ _ (edge_list g) g (λ _ _, 1%float) pb in
  bucket (AliasProbabilisticRewireStrategy._in_edges self) false = [].
Proof.
  intros ops pb g self.
  refine (proj1 (proj2 (@Alias_directed_reads_empty_list float ops (PropertyBlock bool)
                          bool _ _ _ _ (edge_list g) g (λ _ _, 1%float) pb 0 0
                          _ _ _ _))).
  - reflexivity.
  - simpl. lia.
  - simpl. lia.
  - intros i Hi. simpl in Hi. assert (i = 0) as -> by lia. by vm_compute.
Defined.

(** ** The list the Correlated strategy reads *)

(** The constructor files every slot under the degree pair of its target. *)
Lemma Correlated_construct_complete edges g ei :
  ei < length edges →
  (ei, false) ∈ bucket (CorrelatedRewireStrategy.construct edges g)
                       (deg_pair g (target (edges !!! ei) g)).
Proof.
  unfold CorrelatedRewireStrategy.construct. intros Hei.
  assert (∀ n, ei < n →
            (ei, false) ∈ bucket (foldl (CorrelatedRewireStrategy.index_edge edges g) ∅
                                    (seq 0 n))
                                 (deg_pair g (target (edges !!! ei) g))) as Hn;
    [|by apply Hn].
  induction n as [|n IH]; intros Hlt; [lia|].
  rewrite seq_S, foldl_app. simpl.
  unfold CorrelatedRewireStrategy.index_edge at 1. cbv zeta.
  fold (deg_pair g (target (edges !!! n) g)). fold (deg_pair g (source (edges !!! n) g)).
  destruct (decide (ei = n)) as [->|Hne].
  - destruct (negb (is_directed g)); rewrite ?elem_of_bucket_push_back; auto.
  - specialize (IH ltac:(lia)).
    destruct (negb (is_directed g)); rewrite ?elem_of_bucket_push_back; auto.
Qed.

(** X23. The list that [get_target_edge] of the Correlated strategy reads
    for slot [ei] always holds the slot itself, so it is never empty and
    [uniform_int<>(0, elist.size() - 1)] has a range: the constructor files
    every slot under the degree pair of its target, and an accepted move
    keeps that. *)
Theorem Correlated_reads_nonempty_list :
  (∀ edges g ei, ei < length edges →
     (ei, false) ∈ bucket (CorrelatedRewireStrategy.construct edges g)
                          (deg_pair g (target (edges !!! ei) g))) ∧
  (∀ (rs rs' : rewire_state (gmap (nat * nat) (list EdgeRef))) sample ei sl pe,
     table_ok (_edges rs) (_g rs) → ei < length (_edges rs) →
     by_target_ok (_self rs) (_edges rs) (_g rs) →
     CorrelatedRewireStrategy.draws_ok (_self rs) (_edges rs) (_g rs) ei sample →
     RewireStrategyBase.call rs sample ei sl pe = (true, rs') →
     (∀ j, j < length (_edges rs) →
           (j, false) ∈ bucket (_self rs)
                               (deg_pair (_g rs) (target (_edges rs !!! j) (_g rs)))) →
     ∀ j, j < length (_edges rs') →
          (j, false) ∈ bucket (_self rs')
                              (deg_pair (_g rs') (target (_edges rs' !!! j) (_g rs')))).
Proof.
  split; [apply Correlated_construct_complete|].
  intros rs rs' sample ei sl pe Hok Hei Hinv Hdr Hcall Hall j Hj.
  destruct (Correlated_call_accepted_keeps _ _ _ _ _ _ Hok Hei Hinv Hdr Hcall)
    as (-> & _ & Hslots).
  destruct (Correlated_EdgeRef_ok _ _ _ _ _ Hinv Hdr) as [Het _].
  destruct (@call_accepted_table_ok _ _ CorrelatedRewireStrategy.strategy
              rs rs' sample ei _ _ Hok Hei Het Hcall) as (_ & Hlen & _).
  destruct (Hslots j) as [_ ->]. apply Hall. by rewrite <- Hlen.
Qed.
